(** * Tile primitives of jax_ipu_research: graph construction, verified

    A shallow embedding of [tile_array_primitives_impl.cpp] and
    [tile_interpreter_primitives_impl.cpp].  The primitives build a Poplar
    graph through a [poplar::Graph&] and may throw half-way, so every
    primitive is a function in a state-and-failure monad whose state, the
    graph, survives a failure. *)

From Stdlib Require Import ZArith Lia.
From stdpp Require Import base list gmap strings.

Local Open Scope string_scope.
Local Open Scope list_scope.
Local Open Scope Z_scope.

(** ** The Poplar interface the primitives are written against

    Poplar is an external library.  What is modelled of it:
    - a tensor is a view: element type, shape and the row-major list of the
      storage elements it refers to; two tensors alias when they share
      storage elements;
    - [Tensor::operator[]] and [Graph::setTileMapping] check their argument
      and throw; [Tensor::reinterpret] needs a type of the same size;
    - vertex types and their fields are taken to be registered with the
      graph: [addVertex], [connect], [setInitialValue], [setPerfEstimate]
      only record what they are given. *)

Module Poplar.

(** [poplar::Type] constants. *)
Inductive Type_ : Set :=
| BOOL | CHAR | UNSIGNED_CHAR | SIGNED_CHAR
| UNSIGNED_SHORT | SHORT
| UNSIGNED_INT | INT
| UNSIGNED_LONG | LONG
| UNSIGNED_LONGLONG | LONGLONG
| HALF | FLOAT.

#[global] Instance Type_eq_dec : EqDecision Type_.
Proof. solve_decision. Defined.

(** Size in bytes on the target. *)
Definition type_size (t : Type_) : nat :=
  match t with
  | BOOL | CHAR | UNSIGNED_CHAR | SIGNED_CHAR => 1
  | UNSIGNED_SHORT | SHORT | HALF => 2
  | UNSIGNED_INT | INT | FLOAT => 4
  | UNSIGNED_LONG | LONG => 4
  | UNSIGNED_LONGLONG | LONGLONG => 8
  end%nat.

(** What a call can end in besides returning: a C++ exception, the
    termination of the process by a failed [FMT_ASSERT] (the assertions are
    taken as compiled in), or undefined behaviour (an unchecked
    [std::vector::operator[]] out of range, a signed overflow). *)
Inductive failure : Set :=
| poplibs_error (msg : string)
| runtime_error (msg : string)
| poplar_error (msg : string)
| std_out_of_range
| std_length_error
| assert_fail (msg : string)
| ub_out_of_bounds
| ub_signed_overflow.

#[global] Instance failure_eq_dec : EqDecision failure.
Proof. solve_decision. Defined.

Inductive outcome (A : Type) : Type :=
| Ok (a : A)
| Fail (e : failure).
Arguments Ok {A} a.
Arguments Fail {A} e.

Definition is_ok {A} (o : outcome A) : bool :=
  match o with Ok _ => true | Fail _ => false end.

(** A storage element: variable number and offset in the variable. *)
Definition ElemRef : Set := (nat * nat)%type.

Record Tensor : Set := mkTensor {
  elementType : Type_;
  shape : list nat;
  elems : list ElemRef
}.

#[global] Instance Tensor_eq_dec : EqDecision Tensor.
Proof. solve_decision. Defined.

Definition numElements (sh : list nat) : nat := foldr Nat.mul 1%nat sh.

(** The invariant of every Poplar tensor. *)
Definition tensor_ok (t : Tensor) : Prop :=
  length (elems t) = numElements (shape t).

(** The extent of the first dimension, none for a scalar. *)
Definition extent (t : Tensor) : nat :=
  match shape t with
  | d :: _ => d
  | [] => 0%nat
  end.

(** The view of partition [i] of the first dimension. *)
Definition sub_tensor (t : Tensor) (i : nat) : Tensor :=
  {| elementType := elementType t;
     shape := tail (shape t);
     elems := take (numElements (tail (shape t)))
                   (drop (i * numElements (tail (shape t))) (elems t)) |}.

(** [t[i]]: the sub-tensor at [i] in the first dimension, checked. *)
Definition index (t : Tensor) (i : nat) : outcome Tensor :=
  match shape t with
  | [] => Fail (poplar_error "index of a scalar")
  | d :: _ =>
      if (i <? d)%nat then Ok (sub_tensor t i)
      else Fail (poplar_error "index out of bounds")
  end.

(** [t[i]] for a signed [i]: the argument is a [std::size_t], a negative
    [int32_t] converts to a value above any extent. *)
Definition index_Z (t : Tensor) (i : Z) : outcome Tensor :=
  if i <? 0 then Fail (poplar_error "index out of bounds")
  else index t (Z.to_nat i).

(** [t.expand({0})]. *)
Definition expand0 (t : Tensor) : Tensor :=
  {| elementType := elementType t; shape := 1%nat :: shape t;
     elems := elems t |}.

(** [t.flatten()]. *)
Definition flatten (t : Tensor) : Tensor :=
  {| elementType := elementType t; shape := [length (elems t)];
     elems := elems t |}.

(** [t.reinterpret(ty)]: same shape, same storage, new type. *)
Definition reinterpret (t : Tensor) (ty : Type_) : outcome Tensor :=
  if decide (type_size ty = type_size (elementType t)) then
    Ok {| elementType := ty; shape := shape t; elems := elems t |}
  else Fail (poplar_error "reinterpret to a type of another size").

(** [poplar::concat(ts)] along dimension 0. *)
Fixpoint concat_rest (ty : Type_) (rest : list nat) (ts : list Tensor)
  : outcome (nat * list ElemRef) :=
  match ts with
  | [] => Ok (0%nat, [])
  | t :: ts' =>
      match shape t with
      | d :: r =>
          if decide (r = rest /\ elementType t = ty) then
            match concat_rest ty rest ts' with
            | Ok (n, es) => Ok ((d + n)%nat, elems t ++ es)
            | Fail e => Fail e
            end
          else Fail (poplar_error "concat of mismatched tensors")
      | [] => Fail (poplar_error "concat of a scalar")
      end
  end.

Definition concat (ts : list Tensor) : outcome Tensor :=
  match ts with
  | [] => Fail (poplar_error "concat of no tensor")
  | t :: _ =>
      match shape t with
      | [] => Fail (poplar_error "concat of a scalar")
      | _ :: rest =>
          match concat_rest (elementType t) rest ts with
          | Ok (n, es) =>
              Ok {| elementType := elementType t; shape := n :: rest;
                    elems := es |}
          | Fail e => Fail e
          end
      end
  end.

(** What is connected to a vertex field. *)
Inductive Connection : Set :=
| ConnTensor (t : Tensor)
| ConnVector (ts : list Tensor).

(** An initial value of a vertex field; a float is carried by its bit
    pattern, it is only stored. *)
Inductive InitialValue : Set :=
| U32 (n : Z)
| F32 (bits : Z).

Record Vertex : Set := mkVertex {
  v_cs : nat;
  v_name : string;
  v_tile : option nat;
  v_perf : option Z;
  v_connections : list (string * Connection);
  v_initial : list (string * InitialValue)
}.

(** The graph under construction. *)
Record Graph : Type := mkGraph {
  numTiles : nat;
  variables : list (Type_ * list nat);
  tileMapping : gmap (nat * nat) nat;
  computeSets : nat;
  vertices : list Vertex
}.

#[warnings="-register-all"]
Inductive Program : Set :=
| Copy (src dst : Tensor)
| Execute (cs : nat)
| Sequence (progs : list Program).

(** *** The construction monad: graph state that survives a failure *)

Definition M (A : Type) : Type := Graph -> Graph * outcome A.

Definition ret {A} (a : A) : M A := fun g => (g, Ok a).
Definition throw {A} (e : failure) : M A := fun g => (g, Fail e).
Definition bind {A B} (m : M A) (k : A -> M B) : M B :=
  fun g => match m g with
           | (g', Ok a) => k a g'
           | (g', Fail e) => (g', Fail e)
           end.
Definition lift {A} (o : outcome A) : M A := fun g => (g, o).

(** [graph.addVariable(type, shape)]. *)
Definition var_tensor (v : nat) (ty : Type_) (sh : list nat) : Tensor :=
  {| elementType := ty; shape := sh;
     elems := map (fun k => (v, k)) (seq 0 (numElements sh)) |}.

Definition addVariable (ty : Type_) (sh : list nat) : M Tensor :=
  fun g =>
    ({| numTiles := numTiles g;
        variables := variables g ++ [(ty, sh)];
        tileMapping := tileMapping g;
        computeSets := computeSets g;
        vertices := vertices g |},
     Ok (var_tensor (length (variables g)) ty sh)).

Definition map_elems (es : list ElemRef) (tile : nat)
    (m : gmap (nat * nat) nat) : gmap (nat * nat) nat :=
  foldr (fun e acc => <[e := tile]> acc) m es.

(** [graph.setTileMapping(t, tile)]: the parameter is [unsigned], a
    signed argument is converted. *)
Definition setTileMapping (t : Tensor) (tile : Z) : M unit :=
  fun g =>
    let u := tile mod 2 ^ 32 in
    if u <? Z.of_nat (numTiles g) then
      ({| numTiles := numTiles g;
          variables := variables g;
          tileMapping := map_elems (elems t) (Z.to_nat u) (tileMapping g);
          computeSets := computeSets g;
          vertices := vertices g |}, Ok tt)
    else (g, Fail (poplar_error "invalid tile")).

(** [graph.addComputeSet()]. *)
Definition addComputeSet : M nat :=
  fun g =>
    ({| numTiles := numTiles g;
        variables := variables g;
        tileMapping := tileMapping g;
        computeSets := S (computeSets g);
        vertices := vertices g |}, Ok (computeSets g)).

Definition with_vertices (g : Graph) (vs : list Vertex) : Graph :=
  {| numTiles := numTiles g;
     variables := variables g;
     tileMapping := tileMapping g;
     computeSets := computeSets g;
     vertices := vs |}.

(** [graph.addVertex(cs, name)]: the handle is the vertex number. *)
Definition addVertex (cs : nat) (name : string) : M nat :=
  fun g =>
    (with_vertices g
       (vertices g ++ [ {| v_cs := cs; v_name := name; v_tile := None;
                           v_perf := None; v_connections := [];
                           v_initial := [] |} ]),
     Ok (length (vertices g))).

Definition update_vertex (v : nat) (f : Vertex -> Vertex) : M unit :=
  fun g => (with_vertices g (alter f v (vertices g)), Ok tt).

Definition set_tile (tile : nat) (x : Vertex) : Vertex :=
  {| v_cs := v_cs x; v_name := v_name x; v_tile := Some tile;
     v_perf := v_perf x; v_connections := v_connections x;
     v_initial := v_initial x |}.

Definition set_perf (cycles : Z) (x : Vertex) : Vertex :=
  {| v_cs := v_cs x; v_name := v_name x; v_tile := v_tile x;
     v_perf := Some cycles; v_connections := v_connections x;
     v_initial := v_initial x |}.

Definition add_connection (field : string) (c : Connection) (x : Vertex)
  : Vertex :=
  {| v_cs := v_cs x; v_name := v_name x; v_tile := v_tile x;
     v_perf := v_perf x; v_connections := v_connections x ++ [(field, c)];
     v_initial := v_initial x |}.

Definition add_initial (field : string) (x0 : InitialValue) (x : Vertex)
  : Vertex :=
  {| v_cs := v_cs x; v_name := v_name x; v_tile := v_tile x;
     v_perf := v_perf x; v_connections := v_connections x;
     v_initial := v_initial x ++ [(field, x0)] |}.

(** [graph.setTileMapping(v, tile)] for a vertex. *)
Definition setVertexTile (v : nat) (tile : Z) : M unit :=
  fun g =>
    let u := tile mod 2 ^ 32 in
    if u <? Z.of_nat (numTiles g) then update_vertex v (set_tile (Z.to_nat u)) g
    else (g, Fail (poplar_error "invalid tile")).

(** [graph.setPerfEstimate(v, cycles)]. *)
Definition setPerfEstimate (v : nat) (cycles : Z) : M unit :=
  update_vertex v (set_perf cycles).

(** [graph.connect(v[field], ...)]: the connection is recorded; what
    Poplar checks of it against the field of the vertex type is not
    modelled. *)
Definition connect (v : nat) (field : string) (c : Connection) : M unit :=
  update_vertex v (add_connection field c).

(** [graph.setInitialValue(v[field], value)]. *)
Definition setInitialValue (v : nat) (field : string) (x0 : InitialValue)
  : M unit :=
  update_vertex v (add_initial field x0).

(** *** What a program of copies does to the data *)

Definition Store : Type := ElemRef -> Z.

Definition read (s : Store) (t : Tensor) : list Z := map s (elems t).

Definition store_set (s : Store) (e : ElemRef) (x : Z) : Store :=
  fun e' => if decide (e' = e) then x else s e'.

Fixpoint write (s : Store) (dst : list ElemRef) (xs : list Z) : Store :=
  match dst, xs with
  | e :: dst', x :: xs' => write (store_set s e x) dst' xs'
  | _, _ => s
  end.

(** Vertex bodies are not part of the construction layer: a program that
    executes a compute set has no data semantics here. *)
Fixpoint exec (p : Program) (s : Store) : option Store :=
  match p with
  | Copy src dst => Some (write s (elems dst) (read s src))
  | Execute _ => None
  | Sequence ps =>
      (fix go (ps : list Program) (s : Store) : option Store :=
         match ps with
         | [] => Some s
         | p :: ps' =>
             match exec p s with
             | Some s' => go ps' s'
             | None => None
             end
         end) ps s
  end.

End Poplar.

Export Poplar.

#[global] Instance M_ret : MRet M := @ret.
#[global] Instance M_bind : MBind M := fun A B k m => bind m k.

(** ** std::vector accesses *)

(** [v[i]] with [i] a [std::size_t]: unchecked, out of range is undefined
    behaviour. *)
Definition vec_get {A} (v : list A) (i : nat) : outcome A :=
  match v !! i with
  | Some x => Ok x
  | None => Fail ub_out_of_bounds
  end.

(** [v[i]] with [i] an [int32_t]: a negative index converts to a
    [std::size_t] beyond any size. *)
Definition vec_get_Z {A} (v : list A) (i : Z) : outcome A :=
  if i <? 0 then Fail ub_out_of_bounds else vec_get v (Z.to_nat i).

(** [v.at(i)]: checked. *)
Definition vec_at {A} (v : list A) (i : nat) : outcome A :=
  match v !! i with
  | Some x => Ok x
  | None => Fail std_out_of_range
  end.

(** ** tile_array_primitives_impl.cpp: the data barrier *)

(** [tileBarrierReinterpretTensor]. *)
Definition tileBarrierReinterpretTensor (t : Tensor) : outcome Tensor :=
  if decide (elementType t = BOOL) then reinterpret t UNSIGNED_CHAR
  else if decide (elementType t = CHAR) then reinterpret t UNSIGNED_CHAR
  else if decide (elementType t = SIGNED_CHAR) then reinterpret t UNSIGNED_CHAR
  else if decide (elementType t = UNSIGNED_CHAR) then
         reinterpret t UNSIGNED_CHAR
  else if decide (elementType t = SHORT) then reinterpret t UNSIGNED_SHORT
  else if decide (elementType t = UNSIGNED_SHORT) then
         reinterpret t UNSIGNED_SHORT
  else if decide (elementType t = HALF) then reinterpret t UNSIGNED_SHORT
  else if decide (elementType t = INT) then reinterpret t UNSIGNED_INT
  else if decide (elementType t = UNSIGNED_INT) then reinterpret t UNSIGNED_INT
  else if decide (elementType t = FLOAT) then reinterpret t UNSIGNED_INT
  else Fail (runtime_error "Unknown Poplar tensor type in tile data barrier.").

(** ** Loops *)

(** A range-based [for]: the body runs on every element in order and the
    first failure ends the loop. *)
Fixpoint for_each {A S} (body : A -> S -> M S) (l : list A) (st : S) : M S :=
  match l with
  | [] => mret st
  | x :: l' => st' ← body x st; for_each body l' st'
  end.

(** [for (size_t i = 0; i < n; ++i)]. *)
Definition for_range {S} (body : nat -> S -> M S) (n : nat) (st : S) : M S :=
  for_each body (seq 0 n) st.

(** ** tile_array_utils.hpp *)

(** Modelled from the spec: [createShardedVariable] of tile_array_utils.hpp,
    which is not among the sources: "allocate a tensor already partitioned
    across a requested tile list"; a fresh variable with one partition per
    entry of the tile list in front of the given per-partition shape,
    partition [i] mapped to tile [tiles[i]]. *)
Definition createShardedVariable (ty : Type_) (sh : list nat)
    (tiles : list Z) : M Tensor :=
  t ← addVariable ty (length tiles :: sh);
  for_range (fun idx (_ : unit) =>
               part ← lift (index t idx);
               tile ← lift (vec_get tiles idx);
               setTileMapping part tile)
            (length tiles) tt;;
  mret t.

(** ** tile_array_primitives_impl.cpp: sharded placement *)

Module TilePutSharded.

(** [TilePutShardedPrimitive::program]; [tile_array] is the decoded
    attribute, [outputs] the caller's vector, returned as it is left. *)
Definition program (inputs outputs : list Tensor) (tile_array : list Z)
  : M (Program * list Tensor) :=
  if decide (length inputs ≠ 1%nat) then
    throw (poplibs_error
             "IPU tile put sharded expecting a single input tensor.")
  else
    input ← lift (vec_get inputs 0);
    extent ← lift (vec_get (shape input) 0);
    if decide (extent ≠ length tile_array) then
      throw (poplibs_error
               "IPU tile put sharding: inconsistent input size {} and tiles length {}.")
    else
      item ← lift (index input 0);
      output ← createShardedVariable (elementType input) (shape item)
                                     tile_array;
      mret (Copy input output, outputs ++ [output]).

End TilePutSharded.

(** ** tile_array_primitives_impl.cpp: cross-tile gather *)

Module TileGather.

(** [TileGatherParams]; the entries are [int32_t]. *)
Record Params : Set := mkParams {
  previous_tiles : list Z;
  indices : list Z;
  tiles : list Z
}.

(** The body of the loop over the gather slots; the state is the sequence
    built so far and [output_slices]. *)
Definition slot (input : Tensor) (item_type : Type_)
    (item_shape : list nat) (params : Params) (idx : nat)
    (st : list Program * list Tensor) : M (list Program * list Tensor) :=
  gather_idx ← lift (vec_get (indices params) idx);
  input_item ← lift (index_Z input gather_idx);
  input_tile ← lift (vec_get_Z (previous_tiles params) gather_idx);
  output_tile ← lift (vec_get (tiles params) idx);
  if decide (input_tile = output_tile) then
    mret (st.1, st.2 ++ [expand0 input_item])
  else
    output_item ← addVariable item_type item_shape;
    setTileMapping output_item output_tile;;
    mret (st.1 ++ [Copy input_item output_item],
          st.2 ++ [expand0 output_item]).

(** [TileGatherPrimitive::program]. *)
Definition program (inputs outputs : list Tensor) (params : Params)
  : M (Program * list Tensor) :=
  if decide (length inputs ≠ 1%nat) then
    throw (poplibs_error "IPU tile gather expecting a single input tensor.")
  else
    input ← lift (vec_get inputs 0);
    item ← lift (index input 0);
    st ← for_range (slot input (elementType input) (shape item) params)
                   (length (tiles params)) ([], []);
    output ← lift (concat st.2);
    mret (Sequence st.1, outputs ++ [output]).

End TileGather.

(** ** tile_array_primitives_impl.cpp: data barrier *)

Module TileDataBarrier.

(** [TileDataBarrierParams]. *)
Record Params : Set := mkParams {
  vname : string;
  inputs_tiles : list (list Z);
  max_tile : Z
}.

Definition INT32_MAX : Z := 2 ^ 31 - 1.

(** [std::vector<std::vector<poplar::Tensor>>
    tensors_per_tiles(params.max_tile + 1)]: the sum is an [int32_t] sum,
    the size a [std::size_t]. *)
Definition make_buckets (max_tile : Z) : outcome (list (list Tensor)) :=
  if decide (max_tile = INT32_MAX) then Fail ub_signed_overflow
  else if max_tile + 1 <? 0 then Fail std_length_error
  else Ok (replicate (Z.to_nat (max_tile + 1)) []).

(** [tensors_per_tiles[tiles[k]].push_back(in_reinterpret[k])]: the vector
    element is taken before the argument is evaluated. *)
Definition slot (in_reinterpret : Tensor) (tiles : list Z) (k : nat)
    (tensors_per_tiles : list (list Tensor)) : M (list (list Tensor)) :=
  tile ← lift (vec_get tiles k);
  bucket ← lift (vec_get_Z tensors_per_tiles tile);
  item ← lift (index in_reinterpret k);
  mret (<[Z.to_nat tile := bucket ++ [item]]> tensors_per_tiles).

(** The body of the loop over the inputs. *)
Definition input_slots (inputs : list Tensor) (params : Params) (idx : nat)
    (tensors_per_tiles : list (list Tensor)) : M (list (list Tensor)) :=
  input ← lift (vec_get inputs idx);
  in_reinterpret ← lift (tileBarrierReinterpretTensor input);
  tiles ← lift (vec_get (inputs_tiles params) idx);
  for_range (slot in_reinterpret tiles) (length tiles) tensors_per_tiles.

(** The body of the loop over the tiles. *)
Definition tile_vertex (cs : nat) (params : Params)
    (tensors_per_tiles : list (list Tensor)) (tile : nat) (_ : unit)
  : M unit :=
  tensors ← lift (vec_get tensors_per_tiles tile);
  if decide (length tensors = 0%nat) then mret tt
  else
    v ← addVertex cs (vname params);
    setVertexTile v (Z.of_nat tile);;
    setPerfEstimate v 14;;
    connect v "data" (ConnVector tensors).

(** The association of the barrier tensors per tile. *)
Definition bucketing (inputs : list Tensor) (params : Params)
  : M (list (list Tensor)) :=
  empty_buckets ← lift (make_buckets (max_tile params));
  for_range (input_slots inputs params) (length inputs) empty_buckets.

(** [TileDataBarrierPrimitive::program]. *)
Definition program (inputs outputs : list Tensor) (params : Params)
  : M (Program * list Tensor) :=
  if (length inputs <? 1)%nat then
    throw (poplibs_error
             "IPU tile data barrier expecting multiple input tensors.")
  else
    tensors_per_tiles ← bucketing inputs params;
    cs ← addComputeSet;
    for_range (tile_vertex cs params tensors_per_tiles)
              (length tensors_per_tiles) tt;;
    mret (Sequence [Execute cs], inputs).

End TileDataBarrier.

(** ** tile_interpreter_primitives_impl.cpp: the tile-mapped equation *)

Module TileMapEquation.

(** [enum class VertexIOType : int]; decoding casts the integer read, so a
    value that is none of the enumerators can occur. *)
Inductive VertexIOType : Set :=
| In
| Out
| InOut
| NotARole (v : Z).

#[global] Instance VertexIOType_eq_dec : EqDecision VertexIOType.
Proof. solve_decision. Defined.

Section Equation.

(** [IpuType] and [toPoplar] are declared in tile_array_utils.hpp, which
    is not among the sources: they are parameters. *)
Variable IpuType : Type.
Variable toPoplar : IpuType -> outcome Type_.

(** [ShapedArray]. *)
Record ShapedArray : Type := mkShapedArray {
  sa_shape : list nat;
  dtype : IpuType
}.

(** [VertexIOInfo]; [rank] is a [uint8_t]. *)
Record VertexIOInfo : Type := mkVertexIOInfo {
  name : string;
  iotype : VertexIOType;
  aval : ShapedArray;
  rank : Z
}.

(** [VertexIOInfo::connectReshape]. *)
Definition connectReshape (info : VertexIOInfo) (t : Tensor)
  : outcome Tensor :=
  if decide (rank info = 1) then Ok (flatten t)
  else if decide (rank info = 2) then Ok t
  else Fail (poplibs_error "IPU IO vertex tensor must of rank 1 or 2.").

(** [VertexAttribute<T>]. *)
Record VertexAttribute : Set := mkVertexAttribute {
  attr_name : string;
  attr_value : Z
}.

(** [TileMapEquation]. *)
Record Equation : Type := mkEquation {
  pname : string;
  vname : string;
  tiles : list Z;
  inputs_info : list VertexIOInfo;
  outputs_info : list VertexIOInfo;
  attributes_u32 : list VertexAttribute;
  attributes_f32 : list VertexAttribute;
  gp_filename : string;
  perf_estimate : Z
}.

(** [std::distance(begin, std::find_if(begin, end, pred))]. *)
Fixpoint find_if_distance (pred : VertexIOInfo -> bool)
    (infos : list VertexIOInfo) : nat :=
  match infos with
  | [] => 0%nat
  | ininfo :: rest =>
      if pred ininfo then 0%nat else S (find_if_distance pred rest)
  end.

(** The body of the loop of [allocateOutputTensors]. *)
Definition allocate_output (eqn : Equation) (inputs : list Tensor)
    (outinfo : VertexIOInfo) (outputs : list Tensor) : M (list Tensor) :=
  match iotype outinfo with
  | InOut =>
      let idx :=
        find_if_distance
          (fun ininfo => bool_decide (name ininfo = name outinfo))
          (inputs_info eqn) in
      t ← lift (vec_at inputs idx);
      mret (outputs ++ [t])
  | Out =>
      ty ← lift (toPoplar (dtype (aval outinfo)));
      t ← createShardedVariable ty (sa_shape (aval outinfo)) (tiles eqn);
      mret (outputs ++ [t])
  | _ => throw (runtime_error "Unknown IO type for vertex output tensor.")
  end.

(** [TileMapEquation::allocateOutputTensors]. *)
Definition allocateOutputTensors (eqn : Equation) (inputs : list Tensor)
  : M (list Tensor) :=
  if decide (length inputs ≠ length (inputs_info eqn)) then
    throw (assert_fail "Inconsistent input vector size.")
  else for_each (allocate_output eqn inputs) (outputs_info eqn) [].

Definition connect_input (eqn : Equation) (inputs : list Tensor)
    (v tidx k : nat) (_ : unit) : M unit :=
  info ← lift (vec_get (inputs_info eqn) k);
  input ← lift (vec_get inputs k);
  part ← lift (index input tidx);
  t ← lift (connectReshape info part);
  connect v (name info) (ConnTensor t).

Definition connect_output (eqn : Equation) (outputs : list Tensor)
    (v tidx k : nat) (_ : unit) : M unit :=
  info ← lift (vec_get (outputs_info eqn) k);
  if decide (iotype info = Out) then
    output ← lift (vec_get outputs k);
    part ← lift (index output tidx);
    t ← lift (connectReshape info part);
    connect v (name info) (ConnTensor t)
  else mret tt.

(** The body of the loop over the tiles of [add]. *)
Definition add_vertex (eqn : Equation) (inputs outputs : list Tensor)
    (cs tidx : nat) (_ : unit) : M unit :=
  tile ← lift (vec_get (tiles eqn) tidx);
  v ← addVertex cs (vname eqn);
  setVertexTile v tile;;
  (if 0 <? perf_estimate eqn then setPerfEstimate v (perf_estimate eqn)
   else mret tt);;
  for_range (connect_input eqn inputs v tidx) (length inputs) tt;;
  for_range (connect_output eqn outputs v tidx) (length outputs) tt;;
  for_each (fun attr (_ : unit) =>
              setInitialValue v (attr_name attr) (U32 (attr_value attr)))
           (attributes_u32 eqn) tt;;
  for_each (fun attr (_ : unit) =>
              setInitialValue v (attr_name attr) (F32 (attr_value attr)))
           (attributes_f32 eqn) tt.

(** [TileMapEquation::add] with the outputs given; [prog] is the
    caller's sequence, returned as it is left. *)
Definition add (eqn : Equation) (prog : list Program)
    (inputs outputs : list Tensor) : M (list Program) :=
  if decide (length inputs ≠ length (inputs_info eqn)) then
    throw (assert_fail "Inconsistent inputs vector size.")
  else if decide (length outputs ≠ length (outputs_info eqn)) then
    throw (assert_fail "Inconsistent outputs vector size.")
  else
    cs ← addComputeSet;
    for_range (add_vertex eqn inputs outputs cs) (length (tiles eqn)) tt;;
    mret (prog ++ [Execute cs]).

(** [TileMapEquation::add] allocating the outputs. *)
Definition add_allocating (eqn : Equation) (prog : list Program)
    (inputs : list Tensor) : M (list Program * list Tensor) :=
  outputs ← allocateOutputTensors eqn inputs;
  prog' ← add eqn prog inputs outputs;
  mret (prog', outputs).

(** [TileMapEquationCall::program]; a failure leaves the caller's
    [outputs] as they were. *)
Definition program (inputs outputs : list Tensor) (tile_equation : Equation)
  : M (Program * list Tensor) :=
  r ← add_allocating tile_equation [] inputs;
  mret (Sequence r.1, r.2).

End Equation.

Arguments sa_shape {IpuType} _.
Arguments dtype {IpuType} _.
Arguments name {IpuType} _.
Arguments iotype {IpuType} _.
Arguments aval {IpuType} _.
Arguments rank {IpuType} _.
Arguments connectReshape {IpuType} _ _.
Arguments pname {IpuType} _.
Arguments vname {IpuType} _.
Arguments tiles {IpuType} _.
Arguments inputs_info {IpuType} _.
Arguments outputs_info {IpuType} _.
Arguments attributes_u32 {IpuType} _.
Arguments attributes_f32 {IpuType} _.
Arguments gp_filename {IpuType} _.
Arguments perf_estimate {IpuType} _.
Arguments find_if_distance {IpuType} _ _.
Arguments allocate_output {IpuType} _ _ _ _ _.
Arguments allocateOutputTensors {IpuType} _ _ _.
Arguments connect_input {IpuType} _ _ _ _ _ _.
Arguments connect_output {IpuType} _ _ _ _ _ _.
Arguments add_vertex {IpuType} _ _ _ _ _ _.
Arguments add {IpuType} _ _ _ _.
Arguments add_allocating {IpuType} _ _ _ _.
Arguments program {IpuType} _ _ _ _.

End TileMapEquation.

(** ** tile_array_primitives_impl.cpp: replicated placement *)

(** [t.broadcast(N, 0)]: a view with the tensor repeated [N] times along
    dimension 0, taken as the concatenation of [N] copies; nothing below
    relies on the case [N = 0]. *)
Definition broadcast0 (t : Tensor) (n : nat) : outcome Tensor :=
  concat (replicate n t).

Module TilePutReplicated.

(** [TilePutReplicatedPrimitive::program]; [tile_array] is the decoded
    attribute, [outputs] the caller's vector, returned as it is left. *)
Definition program (inputs outputs : list Tensor) (tile_array : list Z)
  : M (Program * list Tensor) :=
  if decide (length inputs ≠ 1%nat) then
    throw (poplibs_error
             "IPU tile put replicated expecting a single input tensor.")
  else
    input ← lift (vec_get inputs 0);
    input_broadcasted ←
      lift (broadcast0 (expand0 input) (length tile_array));
    output ← createShardedVariable (elementType input) (shape input)
                                   tile_array;
    mret (Copy input_broadcasted output, outputs ++ [output]).

End TilePutReplicated.

(** ** tile_interpreter_primitives_impl.cpp: values, comparison, JSON *)

(** The part of [nlohmann::json] the attribute code is written against: a
    JSON value, [at] on an object (a missing key is a [json::out_of_range],
    another kind of value a [json::type_error]) and [get_to] for a string. *)
Module Json.

#[warnings="-register-all"]
Inductive json : Type :=
| JNull
| JBool (b : bool)
| JNumber (n : Z)
| JString (s : string)
| JArray (items : list json)
| JObject (fields : gmap string json).

Inductive json_exception : Set :=
| type_error
| out_of_range.

Inductive result (A : Type) : Type :=
| Value (a : A)
| Throws (e : json_exception).
Arguments Value {A} a.
Arguments Throws {A} e.

(** [j.at(key)]. *)
Definition at_key (j : json) (key : string) : result json :=
  match j with
  | JObject fields =>
      match fields !! key with
      | Some x => Value x
      | None => Throws out_of_range
      end
  | _ => Throws type_error
  end.

(** [j.get_to(s)] for a [std::string]. *)
Definition get_string (j : json) : result string :=
  match j with
  | JString s => Value s
  | _ => Throws type_error
  end.

End Json.

Module VertexAttribute.
Import Json.

Section Attribute.

(** The attribute type [T] with its conversions to and from JSON and its
    [operator==]: [uint32_t] and [float] in the source. *)
Context {T : Type}.
Variable value_to_json : T -> json.
Variable value_from_json : json -> result T.
Variable value_eqb : T -> T -> bool.

(** [VertexAttribute<T>]. *)
Record Attribute : Type := mkAttribute {
  name : string;
  value : T
}.

(** [operator==] on attributes. *)
Definition eqb (lhs rhs : Attribute) : bool :=
  bool_decide (name lhs = name rhs) && value_eqb (value lhs) (value rhs).

(** [to_json]: [j = json{{"name", v.name}, {"value", v.value}}]. *)
Definition to_json (v : Attribute) : json :=
  JObject (<["name" := JString (name v)]>
             (<["value" := value_to_json (value v)]> ∅)).

(** [from_json]: the fields of [v] are assigned one after the other, so a
    failure on ["value"] leaves the name already assigned. *)
Definition from_json (j : json) (v : Attribute) : Attribute * result unit :=
  match at_key j "name" with
  | Throws e => (v, Throws e)
  | Value jn =>
      match get_string jn with
      | Throws e => (v, Throws e)
      | Value n =>
          let v1 := {| name := n; value := value v |} in
          match at_key j "value" with
          | Throws e => (v1, Throws e)
          | Value jv =>
              match value_from_json jv with
              | Throws e => (v1, Throws e)
              | Value x => ({| name := n; value := x |}, Value tt)
              end
          end
      end
  end.

End Attribute.

Arguments Attribute T : clear implicits.
Arguments mkAttribute {T} _ _.

End VertexAttribute.

Module VertexIOInfoEq.
Import TileMapEquation.

(** [operator==] on [VertexIOInfo]; [IpuType] is an enumeration, compared by
    value. *)
Definition eqb {IpuType} `{EqDecision IpuType}
    (lhs rhs : VertexIOInfo IpuType) : bool :=
  bool_decide (name lhs = name rhs) &&
  bool_decide (iotype lhs = iotype rhs) &&
  bool_decide (sa_shape (aval lhs) = sa_shape (aval rhs)) &&
  bool_decide (dtype (aval lhs) = dtype (aval rhs)) &&
  bool_decide (rank lhs = rank rhs).

End VertexIOInfoEq.

(** * Specifications *)

(** ** The data barrier *)

Module BarrierSpec.
Import TileDataBarrier.

Definition family_8 : list Type_ := [BOOL; CHAR; SIGNED_CHAR; UNSIGNED_CHAR].
Definition family_16 : list Type_ := [SHORT; UNSIGNED_SHORT; HALF].
Definition family_32 : list Type_ := [INT; UNSIGNED_INT; FLOAT].

Definition supported (ty : Type_) : Prop :=
  ty ∈ family_8 ++ family_16 ++ family_32.

#[global] Instance supported_dec ty : Decision (supported ty).
Proof. unfold supported. apply _. Defined.

(** The same tensor seen at another element type. *)
Definition retyped (t : Tensor) (ty : Type_) : Tensor :=
  {| elementType := ty; shape := shape t; elems := elems t |}.

(** The reinterpretation of a supported type, as a total function. *)
Definition barrier_type (ty : Type_) : Type_ :=
  if decide (ty ∈ family_8) then UNSIGNED_CHAR
  else if decide (ty ∈ family_16) then UNSIGNED_SHORT
  else UNSIGNED_INT.

(** One tensor slot of the barrier: slot [e_slot] of input [e_input],
    assigned to tile [e_tile]. *)
Record Entry : Set := mkEntry {
  e_input : nat;
  e_slot : nat;
  e_tile : Z;
  e_tensor : Tensor
}.

(** What the bucketing is specified to be: every slot of every input, in
    the order of the inputs and of their slots, ... *)
Definition input_entries (idx : nat) (t : Tensor) (tiles : list Z)
  : list Entry :=
  imap (fun k tile =>
          mkEntry idx k tile
            (sub_tensor (retyped t (barrier_type (elementType t))) k))
       tiles.

Definition entries (inputs : list Tensor) (params : Params) : list Entry :=
  List.concat (imap (fun idx p => input_entries idx p.1 p.2)
               (zip inputs (inputs_tiles params))).

(** ... put in the bucket of its tile and in no other, ... *)
Definition spec_bucket (es : list Entry) (tile : nat) : list Entry :=
  filter (fun e => e_tile e = Z.of_nat tile) es.

(** ... with one bucket per tile up to the bucket count. *)
Definition spec_buckets (es : list Entry) (n : nat) : list (list Tensor) :=
  (fun tile => e_tensor <$> spec_bucket es tile) <$> seq 0 n.

Definition bucket_count (params : Params) : nat :=
  Z.to_nat (max_tile params + 1).

(** The preconditions of the accesses of the bucketing loop: there is a
    tile array for every input, and every tile of the tile array of an
    input lies in [[0, max_tile]]. *)
Definition in_bounds (inputs : list Tensor) (params : Params) : Prop :=
  (length inputs <= length (inputs_tiles params))%nat /\
  Forall (Forall (fun tile => 0 <= tile <= max_tile params))
         (take (length inputs) (inputs_tiles params)).

(** Nothing else stops the loop: the inputs have supported types, the
    bucket count is an [int32_t] that is not negative, and an input has a
    slot for each entry of its tile array. *)
Definition reaches_all (inputs : list Tensor) (params : Params) : Prop :=
  Forall (fun t => supported (elementType t)) inputs /\
  0 <= max_tile params + 1 <= INT32_MAX /\
  Forall (fun p : Tensor * list Z => (length p.2 <= extent p.1)%nat)
         (zip inputs (inputs_tiles params)).

#[global] Instance in_bounds_dec inputs params :
  Decision (in_bounds inputs params).
Proof. unfold in_bounds. apply _. Defined.

#[global] Instance reaches_all_dec inputs params :
  Decision (reaches_all inputs params).
Proof. unfold reaches_all. apply _. Defined.

(** The vertex of a tile with a bucket that is not empty. *)
Definition barrier_vertex (cs : nat) (vn : string) (tile : nat)
    (tensors : list Tensor) : Vertex :=
  {| v_cs := cs; v_name := vn; v_tile := Some tile; v_perf := Some 14;
     v_connections := [("data", ConnVector tensors)]; v_initial := [] |}.

Definition bucket_vertex (cs : nat) (vn : string)
    (tpt : list (list Tensor)) (tile : nat) : option Vertex :=
  match tpt !! tile with
  | Some (x :: ts) => Some (barrier_vertex cs vn tile (x :: ts))
  | _ => None
  end.

(** The graph the barrier builds. *)
Definition barrier_graph (g : Graph) (inputs : list Tensor)
    (params : Params) : Graph :=
  {| numTiles := numTiles g;
     variables := variables g;
     tileMapping := tileMapping g;
     computeSets := S (computeSets g);
     vertices :=
       vertices g
       ++ omap (bucket_vertex (computeSets g) (vname params)
                  (spec_buckets (entries inputs params)
                     (bucket_count params)))
               (seq 0 (bucket_count params)) |}.

Definition missing_tile (g : Graph) (inputs : list Tensor)
    (params : Params) : Prop :=
  exists tile,
    is_Some (bucket_vertex (computeSets g) (vname params)
               (spec_buckets (entries inputs params) (bucket_count params))
               tile) /\
    (numTiles g <= tile)%nat.

(** The vertex of bucket [b], read off the specification. *)
Definition spec_vertex (cs : nat) (vn : string) (es : list Entry)
    (b : nat) : option Vertex :=
  match spec_bucket es b with
  | [] => None
  | _ => Some (barrier_vertex cs vn b (e_tensor <$> spec_bucket es b))
  end.

(** Every tile a slot is assigned to is a tile of the target. *)
Definition tiles_valid (g : Graph) (inputs : list Tensor)
    (params : Params) : Prop :=
  Forall (Forall (fun tile => tile < Z.of_nat (numTiles g)))
         (take (length inputs) (inputs_tiles params)).

(** A barrier descriptor that fits its inputs and the target. *)
Definition descriptor_ok (g : Graph) (inputs : list Tensor)
    (params : Params) : Prop :=
  in_bounds inputs params /\ reaches_all inputs params /\
  tiles_valid g inputs params.

#[global] Instance descriptor_ok_dec g inputs params :
  Decision (descriptor_ok g inputs params).
Proof. unfold descriptor_ok, tiles_valid. apply _. Defined.

(** The scenario of the specification: an 8-bit and a 32-bit input, on
    tiles [0,1] and [1,2], with [max_tile = 2]. *)
Definition barrier_ex_graph : Graph :=
  {| numTiles := 4; variables := [(UNSIGNED_CHAR, [2%nat]); (FLOAT, [2%nat])];
     tileMapping := ∅; computeSets := 0; vertices := [] |}.
Definition barrier_ex_inputs : list Tensor :=
  [var_tensor 0 UNSIGNED_CHAR [2%nat]; var_tensor 1 FLOAT [2%nat]].
Definition barrier_ex_params : Params :=
  {| vname := "TileDataBarrierVertex";
     inputs_tiles := [[0; 1]; [1; 2]]; max_tile := 2 |}.

(** A descriptor whose second tile array names a tile above [max_tile]. *)
Definition barrier_ex_params_out : Params :=
  {| vname := "TileDataBarrierVertex";
     inputs_tiles := [[0; 1]; [1; 3]]; max_tile := 2 |}.

End BarrierSpec.

(** ** The cross-tile gather *)

Module GatherSpec.
Import TileGather.

(** A gather descriptor that fits its input and the target: the input is
    partitioned as [previous_tiles] says, there are as many indices as new
    tiles, every index is valid against [previous_tiles], every new tile is
    a tile of the target (and an [int32_t]), and the input lives in the
    graph. *)
Definition gather_ok (g : Graph) (input : Tensor) (params : Params) : Prop :=
  tensor_ok input /\
  extent input = length (previous_tiles params) /\
  length (indices params) = length (tiles params) /\
  Forall (fun gi => 0 <= gi < Z.of_nat (length (previous_tiles params)))
         (indices params) /\
  Forall (fun tile => 0 <= tile < Z.of_nat (numTiles g) /\ tile < 2 ^ 31)
         (tiles params) /\
  Forall (fun e : ElemRef => (e.1 < length (variables g))%nat) (elems input).

#[global] Instance gather_ok_dec g input params :
  Decision (gather_ok g input params).
Proof. unfold gather_ok, tensor_ok. apply _. Defined.

(** The source slot, the tile it is on and the tile it goes to, for the
    destination slot [i]. *)
Definition gather_idx (params : Params) (i : nat) : nat :=
  Z.to_nat (default 0 (indices params !! i)).
Definition input_tile (params : Params) (i : nat) : Z :=
  default 0 (previous_tiles params !! gather_idx params i).
Definition output_tile (params : Params) (i : nat) : Z :=
  default 0 (tiles params !! i).

(** Slot [i] changes tile. *)
Definition moved (params : Params) (i : nat) : Prop :=
  input_tile params i <> output_tile params i.

#[global] Instance moved_dec params i : Decision (moved params i).
Proof. unfold moved. apply _. Defined.

(** The number of slots before [i] that change tile. *)
Definition moved_before (params : Params) (i : nat) : nat :=
  length (filter (moved params) (seq 0 i)).

Definition item_shape (input : Tensor) : list nat := tail (shape input).

(** The source slice of slot [i], and the variable allocated for it if it
    changes tile: the next free one. *)
Definition slot_source (input : Tensor) (params : Params) (i : nat) : Tensor :=
  sub_tensor input (gather_idx params i).
Definition slot_dest (g : Graph) (input : Tensor) (params : Params)
    (i : nat) : Tensor :=
  var_tensor (length (variables g) + moved_before params i)
             (elementType input) (item_shape input).

(** What slot [i] is specified to contribute: its output slice, ... *)
Definition slot_item (g : Graph) (input : Tensor) (params : Params)
    (i : nat) : Tensor :=
  if decide (moved params i) then slot_dest g input params i
  else slot_source input params i.

(** ... a copy, if it changes tile, ... *)
Definition slot_copy (g : Graph) (input : Tensor) (params : Params)
    (i : nat) : option Program :=
  if decide (moved params i)
  then Some (Copy (slot_source input params i) (slot_dest g input params i))
  else None.

(** ... a variable, if it changes tile, ... *)
Definition slot_variable (input : Tensor) (params : Params) (i : nat)
  : option (Type_ * list nat) :=
  if decide (moved params i) then Some (elementType input, item_shape input)
  else None.

(** ... mapped to the new tile. *)
Definition slot_mapping (g : Graph) (input : Tensor) (params : Params)
    (m : gmap (nat * nat) nat) (i : nat) : gmap (nat * nat) nat :=
  if decide (moved params i)
  then map_elems (elems (slot_dest g input params i))
                 (Z.to_nat (output_tile params i)) m
  else m.

(** The graph, the copies and the slices after [n] slots. *)
Definition gather_graph (g : Graph) (input : Tensor) (params : Params)
    (n : nat) : Graph :=
  {| numTiles := numTiles g;
     variables := variables g ++ omap (slot_variable input params) (seq 0 n);
     tileMapping := foldl (slot_mapping g input params) (tileMapping g)
                          (seq 0 n);
     computeSets := computeSets g;
     vertices := vertices g |}.

Definition gather_copies (g : Graph) (input : Tensor) (params : Params)
    (n : nat) : list Program :=
  omap (slot_copy g input params) (seq 0 n).

Definition gather_items (g : Graph) (input : Tensor) (params : Params)
    (n : nat) : list Tensor :=
  slot_item g input params <$> seq 0 n.

(** The concatenation of the slices along the leading axis. *)
Definition gather_output (g : Graph) (input : Tensor) (params : Params)
  : Tensor :=
  {| elementType := elementType input;
     shape := length (tiles params) :: item_shape input;
     elems := List.concat
                (elems <$> gather_items g input params
                             (length (tiles params))) |}.

(** The scenario of the specification: three slots on tiles 0, 1, 2,
    gathered with indices [2,0,1] to tiles [2,3,1]. *)
Definition gather_ex_graph : Graph :=
  {| numTiles := 4; variables := [(FLOAT, [3%nat; 2%nat])];
     tileMapping := ∅; computeSets := 0; vertices := [] |}.
Definition gather_ex_input : Tensor := var_tensor 0 FLOAT [3%nat; 2%nat].
Definition gather_ex_params : Params :=
  {| previous_tiles := [0; 1; 2]; indices := [2; 0; 1]; tiles := [2; 3; 1] |}.

(** A failure that is not the validation error of a primitive. *)
Definition not_validation (e : failure) : Prop :=
  forall msg, e <> poplibs_error msg.

(** The descriptor with the indices that no slot reads removed. *)
Definition without_surplus (params : Params) : Params :=
  {| previous_tiles := previous_tiles params;
     indices := take (length (tiles params)) (indices params);
     tiles := tiles params |}.

(** Three indices for two new tiles. *)
Definition gather_ex_params_surplus : Params :=
  {| previous_tiles := [0; 1; 2]; indices := [2; 0; 1]; tiles := [2; 3] |}.

End GatherSpec.

(** ** Sharded placement *)

Module ShardedSpec.

(** A tile of the target, held in an [int32_t]. *)
Definition valid_tile (g : Graph) (tile : Z) : Prop :=
  0 <= tile < Z.of_nat (numTiles g) /\ tile < 2 ^ 31.

(** An input and a tile array that fit: as many tiles as the input has
    partitions, every tile a tile of the target, the input in the graph. *)
Definition sharded_ok (g : Graph) (input : Tensor) (tile_array : list Z)
  : Prop :=
  tensor_ok input /\
  shape input <> [] /\
  extent input = length tile_array /\
  Forall (valid_tile g) tile_array /\
  Forall (fun e : ElemRef => (e.1 < length (variables g))%nat) (elems input).

#[global] Instance sharded_ok_dec g input tile_array :
  Decision (sharded_ok g input tile_array).
Proof. unfold sharded_ok, tensor_ok, valid_tile. apply _. Defined.

(** The tensor [createShardedVariable] returns: the next free variable. *)
Definition sharded_tensor (g : Graph) (ty : Type_) (sh : list nat)
    (tiles : list Z) : Tensor :=
  var_tensor (length (variables g)) ty (length tiles :: sh).

(** The mapping of partition [i] to its tile. *)
Definition partition_mapping (t : Tensor) (tiles : list Z)
    (m : gmap (nat * nat) nat) (i : nat) : gmap (nat * nat) nat :=
  map_elems (elems (sub_tensor t i)) (Z.to_nat (default 0 (tiles !! i))) m.

(** The graph after the first [n] partitions are mapped. *)
Definition sharded_graph (g : Graph) (ty : Type_) (sh : list nat)
    (tiles : list Z) (n : nat) : Graph :=
  {| numTiles := numTiles g;
     variables := variables g ++ [(ty, length tiles :: sh)];
     tileMapping :=
       foldl (partition_mapping (sharded_tensor g ty sh tiles) tiles)
             (tileMapping g) (seq 0 n);
     computeSets := computeSets g;
     vertices := vertices g |}.

(** The scenario of the specification: four rows on tiles 2, 5, 0, 7. *)
Definition sharded_ex_graph : Graph :=
  {| numTiles := 8; variables := [(FLOAT, [4%nat; 3%nat])];
     tileMapping := ∅; computeSets := 0; vertices := [] |}.
Definition sharded_ex_input : Tensor := var_tensor 0 FLOAT [4%nat; 3%nat].
Definition sharded_ex_tiles : list Z := [2; 5; 0; 7].

(** An input without rows, for no tile. *)
Definition sharded_ex_empty_graph : Graph :=
  {| numTiles := 8; variables := [(FLOAT, [0%nat; 3%nat])];
     tileMapping := ∅; computeSets := 0; vertices := [] |}.
Definition sharded_ex_empty_input : Tensor := var_tensor 0 FLOAT [0%nat; 3%nat].

End ShardedSpec.

(** ** The tile-mapped equation *)

Module EquationSpec.
Import TileMapEquation ShardedSpec.

(** The graph [g'] is [g] with changes to its vertices only, none added
    or removed. *)
Definition same_but_vertices (g g' : Graph) : Prop :=
  numTiles g' = numTiles g /\
  variables g' = variables g /\
  tileMapping g' = tileMapping g /\
  computeSets g' = computeSets g /\
  length (vertices g') = length (vertices g).

(** A construction that only changes vertices that exist. *)
Definition vertex_only {A} (m : M A) : Prop :=
  forall g, same_but_vertices g (m g).1.

(** The graph [g'] is [g] with the vertices [vs] added behind its own, and
    nothing else changed. *)
Definition with_added (g : Graph) (vs : list Vertex) (g' : Graph) : Prop :=
  numTiles g' = numTiles g /\
  variables g' = variables g /\
  tileMapping g' = tileMapping g /\
  computeSets g' = computeSets g /\
  vertices g' = vertices g ++ vs.

(** Vertices of the compute set [cs] and of the vertex name [nm]. *)
Definition instances (cs : nat) (nm : string) (vs : list Vertex) : Prop :=
  Forall (fun x => v_cs x = cs /\ v_name x = nm) vs.

(** The graph [g'] while a vertex of [cs] and [nm] is wired behind the
    vertices [vs] added to [g]. *)
Definition wiring (g : Graph) (vs : list Vertex) (cs : nat) (nm : string)
    (g' : Graph) : Prop :=
  exists x, with_added g (vs ++ [x]) g' /\ v_cs x = cs /\ v_name x = nm.

(** An input descriptor of the name of the output descriptor. *)
Definition matches {IpuType} (outinfo ininfo : VertexIOInfo IpuType) : Prop :=
  name ininfo = name outinfo.

#[global] Instance matches_dec {IpuType}
    (outinfo ininfo : VertexIOInfo IpuType) : Decision (matches outinfo ininfo).
Proof. unfold matches. apply _. Defined.
#[global] Typeclasses Opaque matches.

(** The tensor an [InOut] output resolves to: the input of the first input
    descriptor of its name. *)
Definition resolved {IpuType} (eqn : Equation IpuType)
    (inputs : list Tensor) (outinfo : VertexIOInfo IpuType) (t : Tensor)
  : Prop :=
  exists j ininfo,
    inputs_info eqn !! j = Some ininfo /\
    matches outinfo ininfo /\
    (forall j' ininfo', (j' < j)%nat -> inputs_info eqn !! j' = Some ininfo' ->
       ~ matches outinfo ininfo') /\
    inputs !! j = Some t.

(** An output descriptor the allocation can serve: an [InOut] one with an
    input of its name, or an [Out] one whose type is known, on tiles of the
    target. *)
Definition allocatable {IpuType} (toPoplar : IpuType -> outcome Type_)
    (g : Graph) (eqn : Equation IpuType) (outinfo : VertexIOInfo IpuType)
  : Prop :=
  match iotype outinfo with
  | InOut => Exists (matches outinfo) (inputs_info eqn)
  | Out => is_ok (toPoplar (dtype (aval outinfo))) = true /\
           Forall (valid_tile g) (tiles eqn)
  | _ => False
  end.

#[global] Instance allocatable_dec {IpuType}
    (toPoplar : IpuType -> outcome Type_) g eqn outinfo :
  Decision (allocatable toPoplar g eqn outinfo).
Proof.
  unfold allocatable, valid_tile. destruct (iotype outinfo); apply _.
Defined.

(** An equation on tiles 1 and 2 whose input is declared of rank 3. *)
Definition equation_ex_graph : Graph :=
  {| numTiles := 4; variables := [(FLOAT, [2%nat; 3%nat])];
     tileMapping := ∅; computeSets := 0; vertices := [] |}.
Definition equation_ex_input : Tensor := var_tensor 0 FLOAT [2%nat; 3%nat].
Definition equation_ex_info (n : string) (io : VertexIOType) (r : Z)
  : VertexIOInfo Type_ :=
  mkVertexIOInfo Type_ n io (mkShapedArray Type_ [3%nat] FLOAT) r.
Definition equation_ex_rank3 : Equation Type_ :=
  mkEquation Type_ "scale" "ScaleVertex" [1; 2]
    [equation_ex_info "x" In 3] [] [] [] "" 0.

(** An equation on tiles 1 and 2 whose input has one partition only. *)
Definition equation_ex_short_graph : Graph :=
  {| numTiles := 4; variables := [(FLOAT, [1%nat; 3%nat])];
     tileMapping := ∅; computeSets := 0; vertices := [] |}.
Definition equation_ex_short_input : Tensor :=
  var_tensor 0 FLOAT [1%nat; 3%nat].
Definition equation_ex_short : Equation Type_ :=
  mkEquation Type_ "scale" "ScaleVertex" [1; 2]
    [equation_ex_info "x" In 1] [] [] [] "" 0.

(** An equation with two inputs of one name and an [InOut] output of that
    name. *)
Definition equation_ex_input2 : Tensor :=
  {| elementType := FLOAT; shape := [2%nat; 3%nat];
     elems := rev (elems equation_ex_input) |}.
Definition equation_ex_duplicate : Equation Type_ :=
  mkEquation Type_ "scale" "ScaleVertex" [1; 2]
    [equation_ex_info "x" InOut 1; equation_ex_info "x" InOut 1] [equation_ex_info "x" InOut 1]
    [] [] "" 0.

(** The same with one input, and an [Out] output besides. *)
Definition equation_ex_inout : Equation Type_ :=
  mkEquation Type_ "scale" "ScaleVertex" [1; 2]
    [equation_ex_info "x" InOut 1] [equation_ex_info "x" InOut 1; equation_ex_info "y" Out 1]
    [] [] "" 0.

End EquationSpec.

(** ** Replicated placement *)

Module ReplicatedSpec.
Import ShardedSpec.

(** An input and a tile array the replication accepts: every tile a tile of
    the target, the input in the graph. *)
Definition replicated_ok (g : Graph) (input : Tensor) (tile_array : list Z)
  : Prop :=
  tensor_ok input /\
  Forall (valid_tile g) tile_array /\
  Forall (fun e : ElemRef => (e.1 < length (variables g))%nat) (elems input).

#[global] Instance replicated_ok_dec g input tile_array :
  Decision (replicated_ok g input tile_array).
Proof. unfold replicated_ok, tensor_ok, valid_tile. apply _. Defined.

(** One row of three values, for tiles 2, 5, 0, 7. *)
Definition replicated_ex_graph : Graph :=
  {| numTiles := 8; variables := [(FLOAT, [3%nat])];
     tileMapping := ∅; computeSets := 0; vertices := [] |}.
Definition replicated_ex_input : Tensor := var_tensor 0 FLOAT [3%nat].
Definition replicated_ex_tiles : list Z := [2; 5; 0; 7].

End ReplicatedSpec.

(** ** What a construction leaves alone *)

Module FrameSpec.

(** The graph [g'] is [g] with variables added and storage of the added
    variables mapped: no compute set and no vertex is added, and nothing of
    the variables [g] has changes. *)
Definition allocates_only (g g' : Graph) : Prop :=
  numTiles g' = numTiles g /\
  computeSets g' = computeSets g /\
  vertices g' = vertices g /\
  variables g `prefix_of` variables g' /\
  forall e : ElemRef,
    (e.1 < length (variables g))%nat ->
    tileMapping g' !! e = tileMapping g !! e.

End FrameSpec.

(** ** The data barrier: when it returns and what a failure leaves *)

Module BarrierOutcomeSpec.
Import TileDataBarrier BarrierSpec.

(** The graph [g'] is [g] with vertices added, and nothing else. *)
Definition vertices_added (g g' : Graph) : Prop :=
  numTiles g' = numTiles g /\
  variables g' = variables g /\
  tileMapping g' = tileMapping g /\
  computeSets g' = computeSets g /\
  vertices g `prefix_of` vertices g'.

(** A failure other than the one of a tile the target does not have. *)
Definition not_invalid_tile (e : failure) : Prop :=
  e <> poplar_error "invalid tile".

(** What input [idx] must be like for its slots to be bucketed in [n]
    buckets. *)
Definition input_fits (inputs : list Tensor) (params : Params) (n : nat)
    (idx : nat) : Prop :=
  exists t tiles,
    inputs !! idx = Some t /\
    supported (elementType t) /\
    inputs_tiles params !! idx = Some tiles /\
    (length tiles <= extent t)%nat /\
    Forall (fun tile => 0 <= tile /\ (Z.to_nat tile < n)%nat) tiles.

(** A target with two tiles only, for the descriptor of the scenario. *)
Definition barrier_ex_small_graph : Graph :=
  {| numTiles := 2; variables := [(UNSIGNED_CHAR, [2%nat]); (FLOAT, [2%nat])];
     tileMapping := ∅; computeSets := 0; vertices := [] |}.

End BarrierOutcomeSpec.

(** ** The tile-mapped equation: the vertices *)

Module EquationVertexSpec.
Import TileMapEquation ShardedSpec EquationSpec.

(** The vertex with connections and initial values added behind its own. *)
Definition with_connections (x : Vertex)
    (cs : list (string * Connection)) : Vertex :=
  {| v_cs := v_cs x; v_name := v_name x; v_tile := v_tile x;
     v_perf := v_perf x; v_connections := v_connections x ++ cs;
     v_initial := v_initial x |}.

Definition with_initial (x : Vertex)
    (ivs : list (string * InitialValue)) : Vertex :=
  {| v_cs := v_cs x; v_name := v_name x; v_tile := v_tile x;
     v_perf := v_perf x; v_connections := v_connections x;
     v_initial := v_initial x ++ ivs |}.

Section Vertex.

Context {IpuType : Type}.
Implicit Types (eqn : Equation IpuType) (info : VertexIOInfo IpuType).

(** The tensor connected for a descriptor of rank 1 or 2. *)
Definition reshaped info (t : Tensor) : Tensor :=
  if decide (rank info = 1) then flatten t else t.

(** The connection of partition [tidx] of a tensor to the field of its
    descriptor. *)
Definition connection (tidx : nat) (p : VertexIOInfo IpuType * Tensor)
  : string * Connection :=
  (name p.1, ConnTensor (reshaped p.1 (sub_tensor p.2 tidx))).

(** The connections of the inputs, in order, ... *)
Definition input_connections eqn (inputs : list Tensor) (tidx : nat)
  : list (string * Connection) :=
  connection tidx <$> zip (inputs_info eqn) inputs.

(** ... and of the outputs of role [Out], in order. *)
Definition out_connection (tidx : nat) (p : VertexIOInfo IpuType * Tensor)
  : option (string * Connection) :=
  if decide (iotype p.1 = Out) then Some (connection tidx p) else None.

Definition output_connections eqn (outputs : list Tensor) (tidx : nat)
  : list (string * Connection) :=
  omap (out_connection tidx) (zip (outputs_info eqn) outputs).

Definition initial_u32 (a : VertexAttribute) : string * InitialValue :=
  (attr_name a, U32 (attr_value a)).
Definition initial_f32 (a : VertexAttribute) : string * InitialValue :=
  (attr_name a, F32 (attr_value a)).

(** The vertex of tile number [tidx] of the equation. *)
Definition equation_vertex eqn (inputs outputs : list Tensor)
    (cs tidx : nat) : Vertex :=
  {| v_cs := cs;
     v_name := vname eqn;
     v_tile := Some (Z.to_nat (default 0 (tiles eqn !! tidx)));
     v_perf := if 0 <? perf_estimate eqn then Some (perf_estimate eqn)
               else None;
     v_connections := input_connections eqn inputs tidx
                      ++ output_connections eqn outputs tidx;
     v_initial := (initial_u32 <$> attributes_u32 eqn)
                  ++ (initial_f32 <$> attributes_f32 eqn) |}.

(** The graph [add] builds. *)
Definition equation_graph (g : Graph) eqn (inputs outputs : list Tensor)
  : Graph :=
  {| numTiles := numTiles g;
     variables := variables g;
     tileMapping := tileMapping g;
     computeSets := S (computeSets g);
     vertices :=
       vertices g
       ++ (equation_vertex eqn inputs outputs (computeSets g)
             <$> seq 0 (length (tiles eqn))) |}.

(** A tensor that can be connected on each of [n] tiles for a descriptor:
    with a tile at all, the rank declared is 1 or 2; there is a partition
    per tile. *)
Definition connectable (n : nat) (p : VertexIOInfo IpuType * Tensor)
  : Prop :=
  ((0 < n)%nat -> rank p.1 = 1 \/ rank p.1 = 2) /\ (n <= extent p.2)%nat.

(** An equation that fits its tensors and the target. *)
Definition equation_ok (g : Graph) eqn (inputs outputs : list Tensor)
  : Prop :=
  length inputs = length (inputs_info eqn) /\
  length outputs = length (outputs_info eqn) /\
  Forall (valid_tile g) (tiles eqn) /\
  Forall (connectable (length (tiles eqn))) (zip (inputs_info eqn) inputs) /\
  Forall (fun p => iotype p.1 = Out -> connectable (length (tiles eqn)) p)
         (zip (outputs_info eqn) outputs).

(** What the turn of tile number [tidx] needs. *)
Definition tile_fits g eqn (inputs outputs : list Tensor) (tidx : nat)
  : Prop :=
  (exists tile, tiles eqn !! tidx = Some tile /\
                tile mod 2 ^ 32 < Z.of_nat (numTiles g)) /\
  (forall k p, zip (inputs_info eqn) inputs !! k = Some p ->
     (rank p.1 = 1 \/ rank p.1 = 2) /\ (tidx < extent p.2)%nat) /\
  (forall k p, zip (outputs_info eqn) outputs !! k = Some p ->
     iotype p.1 = Out ->
     (rank p.1 = 1 \/ rank p.1 = 2) /\ (tidx < extent p.2)%nat).

#[global] Instance equation_ok_dec g eqn inputs outputs :
  Decision (equation_ok g eqn inputs outputs).
Proof. unfold equation_ok, connectable, valid_tile. apply _. Defined.

End Vertex.

(** An equation on tiles 1 and 2 with an input, an in-out operand, an
    output and two attributes. *)
Definition equation_ex_full_graph : Graph :=
  {| numTiles := 4;
     variables := [(FLOAT, [2%nat; 3%nat]); (FLOAT, [2%nat; 3%nat]);
                   (FLOAT, [2%nat; 3%nat])];
     tileMapping := ∅; computeSets := 0; vertices := [] |}.
Definition equation_ex_full : Equation Type_ :=
  mkEquation Type_ "scale" "ScaleVertex" [1; 2]
    [equation_ex_info "x" In 1; equation_ex_info "acc" InOut 2]
    [equation_ex_info "acc" InOut 2; equation_ex_info "y" Out 1]
    [mkVertexAttribute "n" 3] [mkVertexAttribute "alpha" 1065353216]
    "" 100.
Definition equation_ex_full_inputs : list Tensor :=
  [var_tensor 0 FLOAT [2%nat; 3%nat]; var_tensor 1 FLOAT [2%nat; 3%nat]].
Definition equation_ex_full_outputs : list Tensor :=
  [var_tensor 1 FLOAT [2%nat; 3%nat]; var_tensor 2 FLOAT [2%nat; 3%nat]].

End EquationVertexSpec.

(** ** The tile-mapped equation: the outputs allocated *)

Module AllocationSpec.
Import TileMapEquation ShardedSpec EquationSpec.

Section Outputs.

Context {IpuType : Type}.

(** The number of descriptors of role [Out] in a list. *)
Definition out_count (infos : list (VertexIOInfo IpuType)) : nat :=
  length (filter (fun oi => iotype oi = Out) infos).

(** The variable allocated for output [k], if of role [Out]: the free ones
    are taken in the order of the outputs. *)
Definition out_variable (g : Graph) (eqn : Equation IpuType) (k : nat)
  : nat :=
  length (variables g) + out_count (take k (outputs_info eqn)).

(** The shape of an output allocated: a partition per tile, of the shape
    of the descriptor. *)
Definition out_shape (eqn : Equation IpuType) (oi : VertexIOInfo IpuType)
  : list nat :=
  length (tiles eqn) :: sa_shape (aval oi).

(** What holds of the outputs allocated for the descriptors [pre], in the
    graph [g'] reached from [g]: an output of role [Out] is the variable
    taken for it, of the type and shape of its descriptor, with partition
    [i] mapped to tile [tiles[i]]. *)
Definition allocated (toPoplar : IpuType -> outcome Type_) (g : Graph)
    (eqn : Equation IpuType) (pre : list (VertexIOInfo IpuType))
    (g' : Graph) (outs : list Tensor) : Prop :=
  numTiles g' = numTiles g /\
  length outs = length pre /\
  length (variables g') = (length (variables g) + out_count pre)%nat /\
  forall k oi,
    pre !! k = Some oi -> iotype oi = Out ->
    exists ty,
      toPoplar (dtype (aval oi)) = Ok ty /\
      let v := (length (variables g) + out_count (take k pre))%nat in
      let t := var_tensor v ty (out_shape eqn oi) in
      outs !! k = Some t /\
      variables g' !! v = Some (ty, out_shape eqn oi) /\
      forall i tile,
        tiles eqn !! i = Some tile ->
        Forall (fun e => tileMapping g' !! e = Some (Z.to_nat tile))
               (elems (sub_tensor t i)).

End Outputs.

(** An equation on tiles 1 and 2 with two outputs to allocate around an
    in-out operand. *)
Definition equation_ex_outs : Equation Type_ :=
  mkEquation Type_ "scale" "ScaleVertex" [1; 2]
    [equation_ex_info "acc" InOut 1]
    [equation_ex_info "y" Out 1; equation_ex_info "acc" InOut 1;
     equation_ex_info "z" Out 1]
    [] [] "" 0.

End AllocationSpec.

(** ** The attributes in JSON *)

Module AttributeSpec.
Import Json VertexAttribute.

(** The conversions of an integer attribute value: a number is read back
    as it is, and no other value converts. *)
Definition number_to_json (n : Z) : json := JNumber n.
Definition number_from_json (j : json) : result Z :=
  match j with
  | JNumber n => Value n
  | _ => Throws type_error
  end.

Definition attribute_ex : Attribute Z := mkAttribute "scale" 3.

End AttributeSpec.

(** * Verification *)

(** ** Reasoning about constructions: triples with a failure postcondition *)

(** [triple m g P Q]: run from [g], [m] either returns [a] in a graph [g']
    with [P g' a], or fails with [e] in a graph [g'] with [Q g' e]. *)
Definition triple {A} (m : M A) (g : Graph)
    (P : Graph -> A -> Prop) (Q : Graph -> failure -> Prop) : Prop :=
  match m g with
  | (g', Ok a) => P g' a
  | (g', Fail e) => Q g' e
  end.

Lemma triple_ret {A} (a : A) g (P : Graph -> A -> Prop) Q :
  P g a -> triple (mret a) g P Q.
Proof. done. Qed.

Lemma triple_bind {A B} (m : M A) (k : A -> M B) g
    (R : Graph -> A -> Prop) (P : Graph -> B -> Prop) Q :
  triple m g R Q ->
  (forall g' a, R g' a -> triple (k a) g' P Q) ->
  triple (m ≫= k) g P Q.
Proof.
  unfold triple, mbind, M_bind, bind. intros Hm Hk.
  destruct (m g) as [g' [a|e]]; [by apply Hk | done].
Qed.

Lemma triple_seq {A B} (m : M A) (k : A -> M B) g
    (R : Graph -> A -> Prop) (Q1 : Graph -> failure -> Prop)
    (P : Graph -> B -> Prop) (Q : Graph -> failure -> Prop) :
  triple m g R Q1 ->
  (forall g' e, Q1 g' e -> Q g' e) ->
  (forall g' a, R g' a -> triple (k a) g' P Q) ->
  triple (m ≫= k) g P Q.
Proof.
  unfold triple, mbind, M_bind, bind. intros Hm HQ Hk.
  destruct (m g) as [g' [a|e]]; [by apply Hk | by apply HQ].
Qed.

Lemma triple_bind_lift {A B} (o : outcome A) (k : A -> M B) g
    (P : Graph -> B -> Prop) (Q : Graph -> failure -> Prop) :
  match o with Ok a => triple (k a) g P Q | Fail e => Q g e end ->
  triple (lift o ≫= k) g P Q.
Proof. by destruct o. Qed.

Lemma triple_conseq {A} (m : M A) g (P P' : Graph -> A -> Prop)
    (Q Q' : Graph -> failure -> Prop) :
  triple m g P Q ->
  (forall g' a, P g' a -> P' g' a) ->
  (forall g' e, Q g' e -> Q' g' e) ->
  triple m g P' Q'.
Proof.
  unfold triple. intros Hm HP HQ.
  destruct (m g) as [g' [a|e]]; auto.
Qed.

Lemma triple_bind_run {A B} (m : M A) (k : A -> M B) g g1 r
    (P : Graph -> B -> Prop) (Q : Graph -> failure -> Prop) :
  m g = (g1, r) ->
  match r with Ok a => triple (k a) g1 P Q | Fail e => Q g1 e end ->
  triple (m ≫= k) g P Q.
Proof.
  unfold triple, mbind, M_bind, bind. intros ->. by destruct r.
Qed.

Lemma alter_last {A} (f : A -> A) (l : list A) (x : A) :
  alter f (length l) (l ++ [x]) = l ++ [f x].
Proof.
  replace (length l) with (length l + 0)%nat by lia.
  by rewrite alter_app_r.
Qed.

Lemma setVertexTile_valid v tile g :
  0 <= tile < 2 ^ 32 -> (Z.to_nat tile < numTiles g)%nat ->
  setVertexTile v tile g
  = (with_vertices g (alter (set_tile (Z.to_nat tile)) v (vertices g)), Ok tt).
Proof.
  intros Hrange Hvalid. unfold setVertexTile.
  rewrite Z.mod_small by done.
  destruct (Z.ltb_spec tile (Z.of_nat (numTiles g))); [done|lia].
Qed.

Lemma setVertexTile_invalid v tile g :
  0 <= tile < 2 ^ 32 -> (numTiles g <= Z.to_nat tile)%nat ->
  setVertexTile v tile g = (g, Fail (poplar_error "invalid tile")).
Proof.
  intros Hrange Hinvalid. unfold setVertexTile.
  rewrite Z.mod_small by done.
  destruct (Z.ltb_spec tile (Z.of_nat (numTiles g))); [lia|done].
Qed.

(** The invariant rule of the loops: [I pre] holds when the elements of
    [pre] have been processed. *)
Lemma triple_for_each {A S} (body : A -> S -> M S) (l : list A)
    (I : list A -> Graph -> S -> Prop) (Q : Graph -> failure -> Prop) g st :
  I [] g st ->
  (forall pre x post g st, l = pre ++ x :: post -> I pre g st ->
     triple (body x st) g (I (pre ++ [x])) Q) ->
  triple (for_each body l st) g (I l) Q.
Proof.
  intros H0 Hstep.
  assert (forall post pre g st, l = pre ++ post -> I pre g st ->
            triple (for_each body post st) g (I l) Q) as Hgen.
  { induction post as [|x post IH]; intros pre g1 st1 Hl HI; simpl.
    - rewrite app_nil_r in Hl. by subst.
    - eapply triple_bind; [by eapply Hstep|].
      intros g2 st2 HI2. eapply IH; [|done].
      by rewrite <- app_assoc. }
  by eapply (Hgen l []).
Qed.

(** The same for a counting loop: [I i] holds before iteration [i]. *)
Lemma triple_for_range {St} (body : nat -> St -> M St) (n : nat)
    (I : nat -> Graph -> St -> Prop) (Q : Graph -> failure -> Prop) g st :
  I 0%nat g st ->
  (forall i g st, (i < n)%nat -> I i g st -> triple (body i st) g (I (S i)) Q) ->
  triple (for_range body n st) g (I n) Q.
Proof.
  intros H0 Hstep. unfold for_range.
  eapply triple_conseq.
  - apply (triple_for_each body (seq 0 n)
             (fun pre g st => I (length pre) g st) Q); [done|].
    intros pre x post g1 st1 Hl HI.
    assert (x = length pre /\ (length pre < n)%nat) as [-> Hlt].
    { assert (seq 0 n !! length pre = Some x) as Hx.
      { rewrite Hl. by rewrite list_lookup_middle. }
      apply lookup_seq in Hx. lia. }
    rewrite length_app. simpl. rewrite Nat.add_1_r. by apply Hstep.
  - intros g' st'. by rewrite length_seq.
  - done.
Qed.


(** A loop whose every iteration returns, followed step by step. *)
Lemma for_range_run {St} (body : nat -> St -> M St) (n : nat)
    (G : nat -> Graph) (f : nat -> St) :
  (forall i, (i < n)%nat -> body i (f i) (G i) = (G (S i), Ok (f (S i)))) ->
  for_range body n (f 0%nat) (G 0%nat) = (G n, Ok (f n)).
Proof.
  intros Hstep.
  pose proof (triple_for_range body n
                (fun i g st => g = G i /\ st = f i)
                (fun _ _ => False) (G 0%nat) (f 0%nat)) as H.
  unfold triple at 2 in H.
  destruct (for_range body n (f 0%nat) (G 0%nat)) as [g' [st'|e]].
  - destruct H as [-> ->]; [done| |done].
    intros i g st Hi [-> ->]. unfold triple. by rewrite Hstep.
  - destruct H; [done|].
    intros i g st Hi [-> ->]. unfold triple. by rewrite Hstep.
Qed.

Lemma bind_run {A B} (m : M A) (k : A -> M B) g g1 a :
  m g = (g1, Ok a) -> (m ≫= k) g = k a g1.
Proof. unfold mbind, M_bind, bind. by intros ->. Qed.

Lemma bind_lift_ok {A B} (o : outcome A) (k : A -> M B) g a :
  o = Ok a -> (lift o ≫= k) g = k a g.
Proof. by intros ->. Qed.

Lemma for_each_ext {A St} (body1 body2 : A -> St -> M St) l st g :
  (forall x, x ∈ l -> forall st g, body1 x st g = body2 x st g) ->
  for_each body1 l st g = for_each body2 l st g.
Proof.
  revert st g. induction l as [|x l IH]; intros st g Hext; [done|].
  simpl. unfold mbind, M_bind, bind.
  rewrite Hext by left.
  destruct (body2 x st g) as [g' [st'|e]]; [|done].
  apply IH. intros y Hy. apply Hext. by right.
Qed.

Lemma for_range_ext {St} (body1 body2 : nat -> St -> M St) n st g :
  (forall i, (i < n)%nat -> forall st g, body1 i st g = body2 i st g) ->
  for_range body1 n st g = for_range body2 n st g.
Proof.
  intros Hext. apply for_each_ext.
  intros i Hi%elem_of_seq. apply Hext. lia.
Qed.

(** ** What a run that returns went through *)

Lemma bind_ok_inv {A B} (m : M A) (k : A -> M B) g g' b :
  (m ≫= k) g = (g', Ok b) ->
  exists g1 a, m g = (g1, Ok a) /\ k a g1 = (g', Ok b).
Proof.
  unfold mbind, M_bind, bind.
  destruct (m g) as [g1 [a|e]]; [|done]. intros H. by exists g1, a.
Qed.

Lemma bind_lift_ok_inv {A B} (o : outcome A) (k : A -> M B) g g' b :
  (lift o ≫= k) g = (g', Ok b) ->
  exists a, o = Ok a /\ k a g = (g', Ok b).
Proof.
  intros (g1 & a & Hm & Hk)%bind_ok_inv. unfold lift in Hm.
  injection Hm as <- ->. by exists a.
Qed.

Lemma triple_ok {A} (m : M A) g g' a P Q :
  triple m g P Q -> m g = (g', Ok a) -> P g' a.
Proof. unfold triple. intros H E. by rewrite E in H. Qed.

Lemma triple_fail {A} (m : M A) g g' e (P : Graph -> A -> Prop) Q :
  triple m g P Q -> m g = (g', Fail e) -> Q g' e.
Proof. unfold triple. intros H E. by rewrite E in H. Qed.

(** ** Loops, turn by turn *)

Lemma for_each_snoc {A St} (body : A -> St -> M St) l x st g :
  for_each body (l ++ [x]) st g = (for_each body l st ≫= body x) g.
Proof.
  revert st g. induction l as [|y l IH]; intros st g; simpl.
  - unfold mbind, M_bind, bind. simpl.
    by destruct (body x st g) as [g' [a|e]].
  - unfold mbind, M_bind, bind.
    destruct (body y st g) as [g' [st'|e]]; [|done].
    apply IH.
Qed.

Lemma for_range_S {St} (body : nat -> St -> M St) n st g :
  for_range body (S n) st g = (for_range body n st ≫= body n) g.
Proof. unfold for_range. rewrite seq_S. apply for_each_snoc. Qed.

(** ** Facts on the Poplar model *)

Lemma index_in_range t i :
  (i < extent t)%nat -> index t i = Ok (sub_tensor t i).
Proof.
  unfold index, extent. destruct (shape t) as [|d rest]; [lia|].
  intros Hi. by destruct (Nat.ltb_spec i d); [|lia].
Qed.

Lemma index_Z_in_range t i :
  0 <= i -> (Z.to_nat i < extent t)%nat ->
  index_Z t i = Ok (sub_tensor t (Z.to_nat i)).
Proof.
  intros Hpos Hi. unfold index_Z.
  destruct (Z.ltb_spec i 0); [lia|]. by apply index_in_range.
Qed.

Lemma tensor_ok_extent t :
  tensor_ok t -> (0 < extent t)%nat ->
  length (elems t) = (extent t * numElements (tail (shape t)))%nat.
Proof.
  unfold tensor_ok, extent. destruct (shape t) as [|d rest]; [lia|].
  intros ->. done.
Qed.

Lemma sub_tensor_length t i :
  tensor_ok t -> (i < extent t)%nat ->
  length (elems (sub_tensor t i)) = numElements (tail (shape t)).
Proof.
  intros Hok Hi. unfold sub_tensor. simpl.
  rewrite length_take, length_drop, tensor_ok_extent by (done || lia).
  nia.
Qed.

Lemma sub_tensor_ok t i :
  tensor_ok t -> (i < extent t)%nat -> tensor_ok (sub_tensor t i).
Proof. intros Hok Hi. unfold tensor_ok at 1. by rewrite sub_tensor_length. Qed.

Lemma sub_tensor_elems_subseteq t i e :
  e ∈ elems (sub_tensor t i) -> e ∈ elems t.
Proof.
  unfold sub_tensor. simpl. intros He.
  apply elem_of_take in He as (k & Hk & _).
  rewrite lookup_drop in Hk. by eapply list_elem_of_lookup_2.
Qed.

Lemma var_tensor_ok v ty sh : tensor_ok (var_tensor v ty sh).
Proof. unfold tensor_ok, var_tensor. simpl. by rewrite length_fmap, length_seq. Qed.

Lemma var_tensor_elems_var v ty sh e :
  e ∈ elems (var_tensor v ty sh) -> e.1 = v.
Proof.
  unfold var_tensor. simpl. by intros (k & -> & _)%list_elem_of_fmap.
Qed.

Lemma var_tensor_NoDup v ty sh : NoDup (elems (var_tensor v ty sh)).
Proof.
  unfold var_tensor. simpl. apply NoDup_fmap_2; [|apply NoDup_seq].
  by intros k1 k2 [= ->].
Qed.

Lemma sub_tensor_var_elems v ty d sh i :
  (i < d)%nat ->
  elems (sub_tensor (var_tensor v ty (d :: sh)) i)
  = (fun k => (v, k)) <$> seq (i * numElements sh) (numElements sh).
Proof.
  intros Hi. unfold sub_tensor, var_tensor. simpl tail. simpl elems.
  rewrite <- fmap_drop, <- fmap_take. f_equal.
  rewrite drop_seq, take_seq. f_equal. nia.
Qed.

(** *** Concatenation of slices of one shape *)

Lemma concat_rest_slices ty sh (items : list Tensor) :
  Forall (fun t => elementType t = ty /\ shape t = sh) items ->
  concat_rest ty sh (expand0 <$> items)
  = Ok (length items, List.concat (elems <$> items)).
Proof.
  induction 1 as [|t items [Hty Hsh] _ IH]; [done|].
  rewrite fmap_cons. cbn [concat_rest shape expand0 elementType elems].
  rewrite IH.
  destruct (decide (shape t = sh /\ elementType t = ty)) as [_|Hn]; [done|].
  by destruct Hn.
Qed.

Lemma concat_slices ty sh (items : list Tensor) :
  items <> [] ->
  Forall (fun t => elementType t = ty /\ shape t = sh) items ->
  concat (expand0 <$> items)
  = Ok {| elementType := ty; shape := length items :: sh;
          elems := List.concat (elems <$> items) |}.
Proof.
  intros Hne Hall. unfold concat.
  destruct items as [|t items]; [done|].
  pose proof (Forall_inv Hall) as [Hty Hsh].
  rewrite fmap_cons. cbn [shape expand0 elementType].
  rewrite <- fmap_cons, Hsh, Hty. by rewrite concat_rest_slices.
Qed.

Lemma concat_take_drop {A} (ls : list (list A)) (n i : nat) (l : list A) :
  Forall (fun l => length l = n) ls ->
  ls !! i = Some l ->
  take n (drop (i * n) (List.concat ls)) = l.
Proof.
  intros Hall. revert i. induction Hall as [|l0 ls Hl0 _ IH]; intros i Hi.
  - done.
  - destruct i as [|i]; simpl in *.
    + injection Hi as ->. rewrite drop_0. by rewrite take_app_length'.
    + rewrite drop_app_add' by done. by apply IH.
Qed.

Lemma index_concat_slices ty sh (items : list Tensor) i t :
  Forall (fun t => elementType t = ty /\ shape t = sh) items ->
  Forall tensor_ok items ->
  items !! i = Some t ->
  index {| elementType := ty; shape := length items :: sh;
           elems := List.concat (elems <$> items) |} i
  = Ok t.
Proof.
  intros Hall Hok Hi.
  rewrite index_in_range
    by (unfold extent; simpl; by eapply lookup_lt_Some).
  f_equal. unfold sub_tensor. simpl.
  rewrite Forall_lookup in Hall. destruct (Hall _ _ Hi) as [Hty Hsh].
  rewrite (concat_take_drop _ _ _ (elems t)).
  - destruct t. simpl in *. by subst.
  - apply Forall_fmap, Forall_lookup. intros j t' Hj. simpl.
    rewrite Forall_lookup in Hok. rewrite (Hok _ _ Hj).
    by destruct (Hall _ _ Hj) as [_ ->].
  - by rewrite list_lookup_fmap, Hi.
Qed.

(** *** Stores *)

Lemma write_other s dst xs e : e ∉ dst -> write s dst xs e = s e.
Proof.
  revert s xs. induction dst as [|d dst IH]; intros s xs He; [done|].
  destruct xs as [|x xs]; [done|]. simpl.
  rewrite IH by set_solver. unfold store_set.
  destruct (decide (e = d)); [set_solver|done].
Qed.

Lemma read_write s dst xs :
  NoDup dst -> length xs = length dst -> write s dst xs <$> dst = xs.
Proof.
  revert s xs. induction dst as [|d dst IH]; intros s xs Hnd Hlen.
  - by destruct xs.
  - destruct xs as [|x xs]; [done|]. simpl in *.
    apply NoDup_cons in Hnd as [Hd Hnd]. f_equal.
    + rewrite write_other by done. unfold store_set.
      by destruct (decide (d = d)).
    + apply IH; [done|lia].
Qed.

Lemma read_ext s s' t :
  (forall e, e ∈ elems t -> s' e = s e) -> read s' t = read s t.
Proof.
  intros H. unfold read. apply list_eq. intros i.
  rewrite !list_lookup_fmap.
  destruct (elems t !! i) as [e|] eqn:He; [|done]. simpl.
  f_equal. apply H. by eapply list_elem_of_lookup_2.
Qed.

Lemma length_concat_uniform {A} (n : nat) (ls : list (list A)) :
  Forall (fun l => length l = n) ls ->
  length (List.concat ls) = (length ls * n)%nat.
Proof.
  induction 1 as [|l ls Hl _ IH]; [done|].
  simpl. rewrite length_app, IH, Hl. lia.
Qed.

(** A bulk copy between tensors of one shape copies partition by
    partition. *)
Lemma copy_partition_view s input output i :
  NoDup (elems output) ->
  length (elems input) = length (elems output) ->
  shape output = shape input ->
  read (write s (elems output) (read s input)) (sub_tensor output i)
  = read s (sub_tensor input i).
Proof.
  intros Hnd Hlen Hshape. unfold read, sub_tensor. simpl.
  rewrite Hshape, !fmap_take, !fmap_drop.
  rewrite read_write; [done..|]. by rewrite length_fmap.
Qed.

Lemma exec_Sequence_app ps1 ps2 s :
  exec (Sequence (ps1 ++ ps2)) s
  = exec (Sequence ps1) s ≫= exec (Sequence ps2).
Proof.
  revert s. induction ps1 as [|p ps1 IH]; intros s; [done|].
  simpl in *. destruct (exec p s) as [s'|]; [apply IH|done].
Qed.

(** *** Tile mappings *)

Lemma map_elems_lookup es tile m e :
  e ∈ es -> map_elems es tile m !! e = Some tile.
Proof.
  induction es as [|e0 es IH]; intros He; [by apply elem_of_nil in He|].
  simpl. destruct (decide (e = e0)) as [->|Hne].
  - by rewrite lookup_insert_eq.
  - rewrite lookup_insert_ne by done. apply IH.
    by apply elem_of_cons in He as [?|?].
Qed.

Lemma map_elems_lookup_other es tile m e :
  e ∉ es -> map_elems es tile m !! e = m !! e.
Proof.
  induction es as [|e0 es IH]; intros He; [done|].
  simpl. rewrite lookup_insert_ne by set_solver. apply IH. set_solver.
Qed.

Lemma setTileMapping_valid t tile g :
  0 <= tile < 2 ^ 32 -> (Z.to_nat tile < numTiles g)%nat ->
  setTileMapping t tile g
  = ({| numTiles := numTiles g; variables := variables g;
        tileMapping := map_elems (elems t) (Z.to_nat tile) (tileMapping g);
        computeSets := computeSets g; vertices := vertices g |}, Ok tt).
Proof.
  intros Hrange Hvalid. unfold setTileMapping.
  rewrite Z.mod_small by done.
  destruct (Z.ltb_spec tile (Z.of_nat (numTiles g))); [done|lia].
Qed.

(** *** The failures of the accesses *)

Lemma vec_get_fail {A} (v : list A) i e :
  vec_get v i = Fail e -> e = ub_out_of_bounds.
Proof. unfold vec_get. destruct (v !! i); [done|]. by intros [= <-]. Qed.

Lemma vec_get_Z_fail {A} (v : list A) i e :
  vec_get_Z v i = Fail e -> e = ub_out_of_bounds.
Proof.
  unfold vec_get_Z. destruct (i <? 0); [by intros [= <-]|apply vec_get_fail].
Qed.

Lemma index_fail t i e :
  index t i = Fail e -> exists msg, e = poplar_error msg.
Proof.
  unfold index. destruct (shape t) as [|d rest]; [intros [= <-]; by eexists|].
  destruct (i <? d)%nat; [done|]. intros [= <-]. by eexists.
Qed.

Lemma index_Z_fail t i e :
  index_Z t i = Fail e -> exists msg, e = poplar_error msg.
Proof.
  unfold index_Z. destruct (i <? 0); [|apply index_fail].
  intros [= <-]. by eexists.
Qed.

Lemma concat_rest_fail ty rest ts e :
  concat_rest ty rest ts = Fail e -> exists msg, e = poplar_error msg.
Proof.
  induction ts as [|t ts IH]; [done|]. simpl.
  destruct (shape t) as [|d r]; [intros [= <-]; by eexists|].
  destruct (decide (r = rest /\ elementType t = ty));
    [|intros [= <-]; by eexists].
  destruct (concat_rest ty rest ts) as [[n es]|e']; [done|].
  intros [= <-]. by apply IH.
Qed.

Lemma concat_fail ts e :
  concat ts = Fail e -> exists msg, e = poplar_error msg.
Proof.
  unfold concat. destruct ts as [|t ts]; [intros [= <-]; by eexists|].
  destruct (shape t) as [|d rest] eqn:Hsh; [intros [= <-]; by eexists|].
  destruct (concat_rest _ _ _) as [[n es]|e'] eqn:Hc; [done|].
  intros [= <-]. by eapply concat_rest_fail.
Qed.

Lemma setTileMapping_fail t tile g g' e :
  setTileMapping t tile g = (g', Fail e) -> e = poplar_error "invalid tile".
Proof.
  unfold setTileMapping. destruct (_ <? _); [done|]. by intros [= _ <-].
Qed.

(** *** Accesses that return *)

Lemma vec_get_ok_inv {A} (v : list A) i x :
  vec_get v i = Ok x -> v !! i = Some x.
Proof. unfold vec_get. destruct (v !! i); [by intros [= ->]|done]. Qed.

Lemma vec_get_Z_ok_inv {A} (v : list A) i x :
  vec_get_Z v i = Ok x -> 0 <= i /\ v !! Z.to_nat i = Some x.
Proof.
  unfold vec_get_Z. destruct (Z.ltb_spec i 0); [done|].
  intros Hi%vec_get_ok_inv. split; [lia|done].
Qed.

Lemma index_ok_inv t i x :
  index t i = Ok x -> (i < extent t)%nat /\ x = sub_tensor t i.
Proof.
  unfold index, extent. destruct (shape t) as [|d rest]; [done|].
  destruct (Nat.ltb_spec i d); [|done]. by intros [= <-].
Qed.

Lemma index_Z_ok_inv t i x :
  index_Z t i = Ok x ->
  0 <= i /\ (Z.to_nat i < extent t)%nat /\ x = sub_tensor t (Z.to_nat i).
Proof.
  unfold index_Z. destruct (Z.ltb_spec i 0); [done|].
  intros Hi%index_ok_inv. split; [lia|done].
Qed.

Lemma setTileMapping_ok_inv t tile g g' u :
  setTileMapping t tile g = (g', Ok u) ->
  tile mod 2 ^ 32 < Z.of_nat (numTiles g) /\ numTiles g' = numTiles g.
Proof.
  unfold setTileMapping.
  destruct (Z.ltb_spec (tile mod 2 ^ 32) (Z.of_nat (numTiles g))); [|done].
  by intros [= <- _].
Qed.

(** The slices of a tensor, one after the other, are the tensor. *)
Lemma concat_slices_of {A} (l : list A) (n m : nat) :
  length l = (n * m)%nat ->
  List.concat ((fun i => take m (drop (i * m) l)) <$> seq 0 n) = l.
Proof.
  intros Hlen.
  assert (forall k, (k <= n)%nat ->
            List.concat ((fun i => take m (drop (i * m) l)) <$> seq 0 k)
            = take (k * m) l) as H.
  { induction k as [|k IH]; intros Hk; [done|].
    rewrite seq_S, fmap_app, concat_app, IH by lia. simpl.
    rewrite app_nil_r, take_take_drop. f_equal. lia. }
  rewrite H by lia. apply take_ge. lia.
Qed.

(** ** The data barrier: the reinterpretation table *)

Module BarrierFacts.
Import TileDataBarrier BarrierSpec.

Ltac table_case H :=
  unfold family_8, family_16, family_32 in H; simpl in H;
  rewrite ?elem_of_cons, ?elem_of_nil in H; intuition congruence.



Lemma reinterpret_supported t :
  supported (elementType t) ->
  tileBarrierReinterpretTensor t
  = Ok (retyped t (barrier_type (elementType t))).
Proof.
  destruct t as [ty sh es]. unfold supported. simpl.
  destruct ty; intros H; try reflexivity; exfalso; table_case H.
Qed.

Lemma per_input_Forall (P : Z -> Prop) (n : nat) (its : list (list Z)) :
  (forall idx tiles tile,
      (idx < n)%nat -> its !! idx = Some tiles -> tile ∈ tiles -> P tile)
  <-> Forall (Forall P) (take n its).
Proof.
  rewrite Forall_lookup. split.
  - intros H idx tiles [Hl Hi]%lookup_take_Some.
    apply Forall_forall. intros tile. by apply (H idx).
  - intros H idx tiles tile Hi Hl. revert tile. apply Forall_forall.
    apply (H idx). by apply lookup_take_Some.
Qed.

Lemma per_pair_Forall {A B} (R : A -> B -> Prop) (l : list A)
    (k : list B) :
  (forall i x y, l !! i = Some x -> k !! i = Some y -> R x y)
  <-> Forall (fun p => R p.1 p.2) (zip l k).
Proof.
  rewrite Forall_lookup. split.
  - intros H i [x y] (Hx & Hy)%lookup_zip_Some. by apply (H i).
  - intros H i x y Hx Hy. apply (H i (x, y)). by apply lookup_zip_Some.
Qed.

Lemma in_bounds_alt inputs params :
  in_bounds inputs params <->
  (length inputs <= length (inputs_tiles params))%nat /\
  forall idx tiles tile,
    (idx < length inputs)%nat ->
    inputs_tiles params !! idx = Some tiles ->
    tile ∈ tiles ->
    0 <= tile <= max_tile params.
Proof.
  unfold in_bounds.
  by rewrite (per_input_Forall (fun tile => 0 <= tile <= max_tile params)).
Qed.

Lemma tiles_valid_alt g inputs params :
  tiles_valid g inputs params <->
  forall idx tiles tile,
    (idx < length inputs)%nat ->
    inputs_tiles params !! idx = Some tiles ->
    tile ∈ tiles ->
    tile < Z.of_nat (numTiles g).
Proof.
  unfold tiles_valid.
  by rewrite (per_input_Forall (fun tile => tile < Z.of_nat (numTiles g))).
Qed.

Lemma spec_buckets_length es n : length (spec_buckets es n) = n.
Proof. unfold spec_buckets. by rewrite length_fmap, length_seq. Qed.

Lemma spec_buckets_lookup es n j :
  (j < n)%nat ->
  spec_buckets es n !! j = Some (e_tensor <$> spec_bucket es j).
Proof.
  intros Hj. unfold spec_buckets.
  rewrite list_lookup_fmap, lookup_seq_lt by done. done.
Qed.

Lemma spec_buckets_push es n e :
  (Z.to_nat (e_tile e) < n)%nat -> 0 <= e_tile e ->
  <[Z.to_nat (e_tile e) :=
      (e_tensor <$> spec_bucket es (Z.to_nat (e_tile e))) ++ [e_tensor e]]>
    (spec_buckets es n)
  = spec_buckets (es ++ [e]) n.
Proof.
  intros Hlt Hpos. apply list_eq. intros j.
  destruct (decide (j < n)%nat) as [Hj|Hj].
  - rewrite (spec_buckets_lookup (es ++ [e])) by done.
    unfold spec_bucket at 2. rewrite filter_app, fmap_app.
    destruct (decide (j = Z.to_nat (e_tile e))) as [->|Hne].
    + rewrite list_lookup_insert_eq by (by rewrite spec_buckets_length).
      rewrite filter_cons_True by lia. done.
    + rewrite list_lookup_insert_ne by done.
      rewrite spec_buckets_lookup by done.
      rewrite filter_cons_False by lia.
      simpl. by rewrite app_nil_r.
  - rewrite !lookup_ge_None_2; [done| |].
    + rewrite spec_buckets_length. lia.
    + rewrite length_insert, spec_buckets_length. lia.
Qed.

(** The loop over the slots of one input. *)
Lemma slots_triple idx t r tiles es n g :
  r = retyped t (barrier_type (elementType t)) ->
  (length tiles <= extent t)%nat ->
  triple (for_range (slot r tiles) (length tiles) (spec_buckets es n)) g
    (fun g' tpt =>
       g' = g /\ tpt = spec_buckets (es ++ input_entries idx t tiles) n /\
       Forall (fun tile => 0 <= tile /\ (Z.to_nat tile < n)%nat) tiles)
    (fun g' e =>
       g' = g /\ e = ub_out_of_bounds /\
       ~ Forall (fun tile => 0 <= tile /\ (Z.to_nat tile < n)%nat) tiles).
Proof.
  intros -> Hd.
  eapply triple_conseq.
  - apply (triple_for_range _ _
      (fun k g' tpt =>
         g' = g /\
         tpt = spec_buckets (es ++ take k (input_entries idx t tiles)) n /\
         Forall (fun tile => 0 <= tile /\ (Z.to_nat tile < n)%nat)
                (take k tiles))
      (fun g' e =>
         g' = g /\ e = ub_out_of_bounds /\
         ~ Forall (fun tile => 0 <= tile /\ (Z.to_nat tile < n)%nat) tiles)).
    + split; [done|]. rewrite !take_0, app_nil_r. by split.
    + intros k g1 tpt Hk (-> & -> & Hall).
      destruct (lookup_lt_is_Some_2 tiles k Hk) as [tile Htile].
      unfold slot. apply triple_bind_lift.
      unfold vec_get. rewrite Htile.
      apply triple_bind_lift. unfold vec_get_Z, vec_get.
      destruct (Z.ltb_spec tile 0) as [Hneg|Hpos].
      { repeat split.
        intros HF. rewrite Forall_lookup in HF.
        specialize (HF _ _ Htile). lia. }
      destruct (decide (Z.to_nat tile < n)%nat) as [Hin|Hout].
      2:{ rewrite lookup_ge_None_2
            by (rewrite spec_buckets_length; lia).
          repeat split.
          intros HF. rewrite Forall_lookup in HF.
          specialize (HF _ _ Htile). lia. }
      rewrite spec_buckets_lookup by done.
      apply triple_bind_lift. unfold index. simpl.
      unfold extent in Hd. destruct (shape t) as [|d rest]; [lia|].
      destruct (Nat.ltb_spec k d) as [_|?]; [|lia].
      apply triple_ret. split; [done|]. split.
      * assert (input_entries idx t tiles !! k
                = Some (mkEntry idx k tile
                          (sub_tensor
                             (retyped t (barrier_type (elementType t))) k)))
          as Hent.
        { unfold input_entries. by rewrite list_lookup_imap, Htile. }
        rewrite (take_S_r _ _ _ Hent), app_assoc.
        by rewrite <- (spec_buckets_push _ n (mkEntry idx k tile _)).
      * rewrite (take_S_r _ _ _ Htile). apply Forall_app. split; [done|].
        by repeat constructor.
  - intros g' tpt (-> & -> & Hall). split; [done|].
    rewrite take_ge in Hall by done.
    rewrite take_ge by (unfold input_entries; by rewrite length_imap).
    done.
  - intros g' e H. exact H.
Qed.

Lemma spec_buckets_nil n : spec_buckets [] n = replicate n [].
Proof.
  apply list_eq. intros j. destruct (decide (j < n)%nat).
  - rewrite spec_buckets_lookup, lookup_replicate_2 by done. done.
  - rewrite !lookup_ge_None_2; [done| |].
    + rewrite length_replicate. lia.
    + rewrite spec_buckets_length. lia.
Qed.

Lemma good_tile_iff params tile :
  0 <= max_tile params + 1 ->
  (0 <= tile /\ (Z.to_nat tile < bucket_count params)%nat)
  <-> 0 <= tile <= max_tile params.
Proof. unfold bucket_count. lia. Qed.

(** The bucketing loop either builds the specified buckets, when its
    accesses are in bounds, or runs out of bounds. *)
Lemma bucketing_triple inputs params g :
  reaches_all inputs params ->
  triple (bucketing inputs params) g
    (fun g' tpt =>
       g' = g /\
       tpt = spec_buckets (entries inputs params) (bucket_count params) /\
       in_bounds inputs params)
    (fun g' e =>
       g' = g /\ e = ub_out_of_bounds /\ ~ in_bounds inputs params).
Proof.
  intros (Hsup & Hmax & Hslots).
  pose proof (proj2 (per_pair_Forall
           (fun t (tiles : list Z) => (length tiles <= extent t)%nat)
           inputs (inputs_tiles params)) Hslots) as Hslots'.
  clear Hslots. rename Hslots' into Hslots. simpl in Hslots.
  unfold bucketing. apply triple_bind_lift. unfold make_buckets.
  destruct (decide (max_tile params = INT32_MAX)) as [Heq|_]; [lia|].
  destruct (Z.ltb_spec (max_tile params + 1) 0) as [?|_]; [lia|].
  fold (bucket_count params). rewrite <- spec_buckets_nil.
  set (f := fun (idx : nat) (p : Tensor * list Z) =>
              input_entries idx p.1 p.2).
  set (its := inputs_tiles params).
  eapply triple_conseq.
  - apply (triple_for_range _ _
      (fun idx g' tpt =>
         g' = g /\
         tpt = spec_buckets
                 (List.concat (take idx (imap f (zip inputs its))))
                 (bucket_count params) /\
         (idx <= length its)%nat /\
         forall j tiles tile, (j < idx)%nat -> its !! j = Some tiles ->
           tile ∈ tiles -> 0 <= tile <= max_tile params)
      (fun g' e =>
         g' = g /\ e = ub_out_of_bounds /\ ~ in_bounds inputs params)).
    + repeat split; try done; try lia.
    + intros idx g1 tpt Hidx (-> & -> & Hle & Hprev).
      destruct (lookup_lt_is_Some_2 inputs idx Hidx) as [t Ht].
      unfold input_slots. apply triple_bind_lift.
      unfold vec_get at 1. rewrite Ht.
      apply triple_bind_lift.
      rewrite reinterpret_supported
        by (rewrite Forall_lookup in Hsup; by eapply Hsup).
      apply triple_bind_lift. unfold vec_get. fold its.
      destruct (its !! idx) as [tiles|] eqn:Htiles.
      2:{ repeat split. intros [Hlen _].
          apply lookup_ge_None_1 in Htiles. fold its in Hlen. lia. }
      eapply triple_conseq.
      * apply (slots_triple idx t); [done|]. by eapply Hslots.
      * intros g' tpt (-> & -> & Hall). split; [done|]. split.
        { assert (imap f (zip inputs its) !! idx
                  = Some (input_entries idx t tiles)) as Hent.
          { rewrite list_lookup_imap.
            rewrite lookup_zip_with, Ht. simpl. by rewrite Htiles. }
          rewrite (take_S_r _ _ _ Hent), concat_app. simpl.
          by rewrite app_nil_r. }
        split; [apply lookup_lt_Some in Htiles; lia|].
        intros j tiles' tile Hj Hjt Hin.
        destruct (decide (j = idx)) as [->|Hne].
        -- rewrite Htiles in Hjt. injection Hjt as <-.
           rewrite Forall_forall in Hall.
           apply good_tile_iff; [lia|]. by apply Hall.
        -- eapply Hprev; [|done..]. lia.
      * intros g' e (-> & -> & Hbad). repeat split.
        intros Hb. destruct (proj1 (in_bounds_alt _ _) Hb) as [_ Hin].
        apply Hbad. apply Forall_forall. intros tile Htile.
        apply good_tile_iff; [lia|]. by eapply Hin.
  - intros g' tpt (-> & -> & Hle & Hall). split; [done|]. split.
    + unfold entries. fold its. fold f.
      rewrite take_ge; [done|].
      rewrite length_imap, length_zip_with. lia.
    + apply in_bounds_alt. split; [done|].
      intros idx tiles tile. apply Hall.
  - intros g' e H. exact H.
Qed.

(** The loop over the tiles adds the vertices of the buckets that are
    not empty, or stops at a tile the target does not have. *)
Lemma vertices_triple cs params tpt g :
  Z.of_nat (length tpt) <= 2 ^ 32 ->
  triple (for_range (tile_vertex cs params tpt) (length tpt) tt) g
    (fun g' _ =>
       g' = with_vertices g
              (vertices g
               ++ omap (bucket_vertex cs (vname params) tpt)
                       (seq 0 (length tpt))))
    (fun g' e =>
       e = poplar_error "invalid tile" /\
       exists tile, is_Some (bucket_vertex cs (vname params) tpt tile) /\
                    (numTiles g <= tile)%nat).
Proof.
  intros Hlen.
  eapply triple_conseq.
  - apply (triple_for_range _ _
      (fun tile g' (_ : unit) =>
         g' = with_vertices g
                (vertices g
                 ++ omap (bucket_vertex cs (vname params) tpt)
                         (seq 0 tile)))
      (fun g' e =>
         e = poplar_error "invalid tile" /\
         exists tile, is_Some (bucket_vertex cs (vname params) tpt tile) /\
                      (numTiles g <= tile)%nat)).
    + simpl. rewrite app_nil_r. by destruct g.
    + intros tile g1 [] Htile ->.
      destruct (lookup_lt_is_Some_2 tpt tile Htile) as [tensors Hts].
      unfold tile_vertex. apply triple_bind_lift.
      unfold vec_get. rewrite Hts.
      rewrite seq_S, omap_app. simpl.
      assert (bucket_vertex cs (vname params) tpt tile
              = match tensors with
                | x :: ts =>
                    Some (barrier_vertex cs (vname params) tile (x :: ts))
                | [] => None
                end) as ->
        by (unfold bucket_vertex; by rewrite Hts).
      destruct tensors as [|x ts]; simpl.
      { apply triple_ret. by rewrite app_nil_r. }
      eapply triple_bind_run; [reflexivity|]. simpl.
      destruct (decide (tile < numTiles g)%nat) as [Hvalid|Hinvalid].
      2:{ eapply triple_bind_run.
          - apply setVertexTile_invalid; [lia|]. simpl. lia.
          - split; [done|]. exists tile. split; [|lia].
            unfold bucket_vertex. rewrite Hts. by eexists. }
      eapply triple_bind_run.
      { apply setVertexTile_valid; [lia|]. simpl. lia. }
      simpl.
      eapply triple_bind_run; [reflexivity|]. simpl.
      unfold triple, connect, update_vertex, with_vertices. simpl.
      rewrite !alter_last. simpl. rewrite Nat2Z.id.
      by rewrite app_assoc.
  - intros g' u H. exact H.
  - intros g' e H. exact H.
Qed.

(** The whole primitive, in every case that [reaches_all] leaves. *)
Lemma program_triple inputs outputs params g :
  inputs <> [] ->
  reaches_all inputs params ->
  triple (program inputs outputs params) g
    (fun g' r =>
       in_bounds inputs params /\
       g' = barrier_graph g inputs params /\
       r = (Sequence [Execute (computeSets g)], inputs))
    (fun g' e =>
       (e = ub_out_of_bounds /\ ~ in_bounds inputs params /\ g' = g) \/
       (e = poplar_error "invalid tile" /\ in_bounds inputs params /\
        missing_tile g inputs params)).
Proof.
  intros Hne Hreach. unfold program.
  destruct inputs as [|t0 inputs0] eqn:Hinputs; [done|].
  rewrite <- Hinputs in *. clear Hne.
  assert ((length inputs <? 1)%nat = false) as ->.
  { apply Nat.ltb_ge. rewrite Hinputs. simpl. lia. }
  eapply triple_seq.
  { apply (bucketing_triple inputs params g Hreach). }
  { intros g' e (-> & -> & Hbad). by left. }
  intros g' tpt (-> & -> & Hin).
  eapply triple_bind_run; [reflexivity|]. simpl.
  destruct Hreach as (_ & Hmax & _).
  eapply triple_seq.
  - apply vertices_triple. rewrite spec_buckets_length.
    unfold bucket_count, INT32_MAX in *. lia.
  - intros g' e [-> Hmiss]. right. split; [done|]. split; [done|].
    exact Hmiss.
  - intros g' u ->. apply triple_ret. split; [done|].
    rewrite spec_buckets_length. by split.
Qed.

(** *** The entries are the slots, each once *)

Lemma elem_of_entries inputs params e :
  e ∈ entries inputs params <->
  exists t tiles,
    inputs !! e_input e = Some t /\
    inputs_tiles params !! e_input e = Some tiles /\
    tiles !! e_slot e = Some (e_tile e) /\
    e_tensor e
    = sub_tensor (retyped t (barrier_type (elementType t))) (e_slot e).
Proof.
  unfold entries. rewrite list_elem_of_In, in_concat. split.
  - intros (l & Hl & He).
    apply list_elem_of_In, elem_of_lookup_imap in Hl
      as (idx & [t tiles] & -> & Hz).
    apply list_elem_of_In, elem_of_lookup_imap in He
      as (k & tile & -> & Hk).
    rewrite lookup_zip_with in Hz. simpl in *.
    destruct (inputs !! idx) as [t'|] eqn:Ht; [|done]. simpl in Hz.
    destruct (inputs_tiles params !! idx) as [tiles'|] eqn:Hts; [|done].
    simpl in Hz. injection Hz as -> ->. by exists t, tiles.
  - intros (t & tiles & Ht & Hts & Hk & Hten).
    exists (input_entries (e_input e) t tiles). split.
    + apply list_elem_of_In.
      apply (elem_of_lookup_imap_2
               (fun idx p => input_entries idx p.1 p.2) _ (t, tiles)).
      by rewrite lookup_zip_with, Ht; simpl; rewrite Hts.
    + apply list_elem_of_In. unfold input_entries.
      destruct e as [idx k tile ten]. simpl in *. subst ten.
      apply (elem_of_lookup_imap_2
               (fun k tile =>
                  mkEntry idx k tile
                    (sub_tensor (retyped t (barrier_type (elementType t)))
                                k)) tiles tile k Hk).
Qed.

Lemma NoDup_concat_imap {A B} (key : B -> nat) (l : list A) :
  forall f : nat -> A -> list B,
    (forall i x, NoDup (f i x)) ->
    (forall i x b, b ∈ f i x -> key b = i) ->
    NoDup (List.concat (imap f l)).
Proof.
  revert key. induction l as [|x l IH]; intros key f Hnd Hkey.
  - constructor.
  - rewrite imap_cons. simpl. apply NoDup_app. split; [apply Hnd|]. split.
    + intros b Hb Hb'. apply Hkey in Hb.
      rewrite list_elem_of_In, in_concat in Hb'.
      destruct Hb' as (l' & Hl' & Hbl').
      apply list_elem_of_In, elem_of_lookup_imap in Hl'
        as (i & y & -> & _).
      apply list_elem_of_In in Hbl'. apply Hkey in Hbl'. lia.
    + apply (IH (fun b => pred (key b))).
      * intros i y. apply Hnd.
      * intros i y b Hb. apply Hkey in Hb. simpl in Hb. lia.
Qed.

Lemma NoDup_entries inputs params : NoDup (entries inputs params).
Proof.
  unfold entries. apply (NoDup_concat_imap e_input).
  - intros idx [t tiles]. simpl. unfold input_entries.
    apply NoDup_alt. intros i j e Hi Hj.
    rewrite list_lookup_imap in Hi, Hj.
    destruct (tiles !! i); [|done]. destruct (tiles !! j); [|done].
    simpl in *. injection Hi as <-. by injection Hj as ->.
  - intros idx [t tiles] e He. simpl in He.
    apply elem_of_lookup_imap in He as (k & tile & -> & _). done.
Qed.

Lemma elem_of_spec_bucket es b e :
  e ∈ spec_bucket es b <-> e ∈ es /\ e_tile e = Z.of_nat b.
Proof. unfold spec_bucket. rewrite list_elem_of_filter. tauto. Qed.

Lemma bucket_vertex_spec cs vn es n b :
  (b < n)%nat ->
  bucket_vertex cs vn (spec_buckets es n) b = spec_vertex cs vn es b.
Proof.
  intros Hb. unfold bucket_vertex, spec_vertex.
  rewrite spec_buckets_lookup by done.
  by destruct (spec_bucket es b).
Qed.

Lemma omap_bucket_vertex_spec cs vn es n :
  omap (bucket_vertex cs vn (spec_buckets es n)) (seq 0 n)
  = omap (spec_vertex cs vn es) (seq 0 n).
Proof.
  apply list_omap_ext, Forall2_same_length_lookup. split; [done|].
  intros i b b' Hb Hb'. rewrite Hb in Hb'. injection Hb' as <-.
  apply lookup_seq in Hb as [-> Hi]. by apply bucket_vertex_spec.
Qed.

(** *** Valid descriptors *)

Lemma valid_no_missing_tile g inputs params :
  tiles_valid g inputs params -> ~ missing_tile g inputs params.
Proof.
  intros Hvalid (tile & [v Hv] & Hge).
  pose proof (proj1 (tiles_valid_alt _ _ _) Hvalid) as Hvalid'.
  clear Hvalid. rename Hvalid' into Hvalid.
  unfold bucket_vertex in Hv.
  destruct (spec_buckets _ _ !! tile) as [[|x ts]|] eqn:Hb; try done.
  assert (tile < bucket_count params)%nat as Hlt.
  { apply lookup_lt_Some in Hb. by rewrite spec_buckets_length in Hb. }
  rewrite spec_buckets_lookup in Hb by done. injection Hb as Hb.
  destruct (spec_bucket (entries inputs params) tile) as [|e es] eqn:He;
    [done|].
  assert (e ∈ spec_bucket (entries inputs params) tile) as Hin
    by (rewrite He; left).
  apply elem_of_spec_bucket in Hin as [Hin Htile].
  apply elem_of_entries in Hin as (t & tiles & Ht & Hts & Hk & _).
  assert (e_tile e < Z.of_nat (numTiles g)); [|lia].
  apply (Hvalid (e_input e) tiles).
  - by eapply lookup_lt_Some.
  - done.
  - apply list_elem_of_lookup. by exists (e_slot e).
Qed.

(** The barrier of a valid descriptor returns, and what it returns. *)
Lemma program_valid g inputs outputs params :
  inputs <> [] ->
  descriptor_ok g inputs params ->
  program inputs outputs params g
  = (barrier_graph g inputs params,
     Ok (Sequence [Execute (computeSets g)], inputs)).
Proof.
  intros Hne (Hb & Hr & Hv).
  pose proof (program_triple inputs outputs params g Hne Hr) as H.
  unfold triple in H.
  destruct (program inputs outputs params g) as [g' [r|e]].
  - by destruct H as (_ & -> & ->).
  - destruct H as [(_ & Hnb & _)|(_ & _ & Hmiss)]; [done|].
    by apply valid_no_missing_tile in Hmiss.
Qed.

(** *** The claims on the barrier *)

(** Whatever the descriptor, what the barrier returns is its inputs and
    the execution of one compute set. *)
Lemma program_returns_inputs g inputs outputs params g' prog outs :
  program inputs outputs params g = (g', Ok (prog, outs)) ->
  outs = inputs /\ exists cs, prog = Sequence [Execute cs].
Proof.
  unfold program. destruct (length inputs <? 1)%nat; [done|].
  unfold mbind, M_bind, bind.
  destruct (bucketing inputs params g) as [g1 [tpt|e]]; [|done].
  destruct (addComputeSet g1) as [g2 [cs|e]]; [|done].
  destruct (for_range _ _ _ g2) as [g3 [u|e]]; [|done].
  intros [= _ <- <-]. split; [done|]. by exists cs.
Qed.

(** C2 — the barrier is the identity on its tensors: for at least one
    input, all of supported element types, the primitive never returns
    anything but its input list (the same handles, so the same storage and
    the same values) with a program that is the execution of one compute set
    and holds no copy; and with a descriptor that fits the inputs it does
    return, allocating no variable and changing no tile mapping. *)
Theorem barrier_identity g inputs outputs params :
  inputs <> [] ->
  Forall (fun t => supported (elementType t)) inputs ->
  (forall g' prog outs,
     program inputs outputs params g = (g', Ok (prog, outs)) ->
     outs = inputs /\ exists cs, prog = Sequence [Execute cs]) /\
  (descriptor_ok g inputs params ->
   exists g' cs,
     program inputs outputs params g
     = (g', Ok (Sequence [Execute cs], inputs)) /\
     variables g' = variables g /\
     tileMapping g' = tileMapping g).
Proof.
  intros Hne _. split.
  - intros g' prog outs. apply program_returns_inputs.
  - intros Hok.
    exists (barrier_graph g inputs params), (computeSets g).
    by rewrite (program_valid g inputs outputs params Hne Hok).
Qed.

Lemma barrier_identity_witness :
  descriptor_ok barrier_ex_graph barrier_ex_inputs barrier_ex_params /\
  exists g' cs,
    program barrier_ex_inputs [] barrier_ex_params barrier_ex_graph
    = (g', Ok (Sequence [Execute cs], barrier_ex_inputs)) /\
    variables g' = variables barrier_ex_graph /\
    tileMapping g' = tileMapping barrier_ex_graph.
Proof.
  assert (descriptor_ok barrier_ex_graph barrier_ex_inputs barrier_ex_params) as Hok by compute_done.
  split; [exact Hok|].
  apply (barrier_identity barrier_ex_graph barrier_ex_inputs [] barrier_ex_params);
    [done | compute_done | exact Hok].
Defined.

(** C6 — bucketing by tile: for a descriptor that fits its inputs,
    [max_tile + 1] buckets are considered; every slot [k] of every input
    [idx] is an entry, once, and lies in the bucket of the tile
    [inputs_tiles[idx][k]] and in no other bucket; every bucket that is not
    empty gives one vertex, mapped to the tile of the bucket and with all
    the slots of the bucket connected to its [data] field, and an empty
    bucket gives none; the vertices are in one new compute set, which the
    program executes once. *)
Theorem barrier_tile_bucketing g inputs outputs params :
  inputs <> [] ->
  descriptor_ok g inputs params ->
  let es := entries inputs params in
  let n := bucket_count params in
  let cs := computeSets g in
  Z.of_nat n = max_tile params + 1 /\
  (forall idx k t tiles tile,
      inputs !! idx = Some t ->
      inputs_tiles params !! idx = Some tiles ->
      tiles !! k = Some tile ->
      mkEntry idx k tile
        (sub_tensor (retyped t (barrier_type (elementType t))) k) ∈ es) /\
  NoDup es /\
  (forall e, e ∈ es ->
     exists b, (b < n)%nat /\ Z.of_nat b = e_tile e /\
               forall b', e ∈ spec_bucket es b' <-> b' = b) /\
  exists g',
    program inputs outputs params g
    = (g', Ok (Sequence [Execute cs], inputs)) /\
    computeSets g' = S cs /\
    vertices g'
    = vertices g ++ omap (spec_vertex cs (vname params) es) (seq 0 n).
Proof.
  intros Hne Hok es n cs.
  pose proof Hok as (Hb & (_ & Hmax & _) & _).
  destruct (proj1 (in_bounds_alt _ _) Hb) as [Hlen Hin].
  split; [unfold n, bucket_count; lia|].
  split.
  { intros idx k t tiles tile Ht Hts Hk.
    apply elem_of_entries. by exists t, tiles. }
  split; [apply NoDup_entries|].
  split.
  { intros e He.
    pose proof He as (t & tiles & Ht & Hts & Hk & _)%elem_of_entries.
    assert (0 <= e_tile e <= max_tile params) as Hrange.
    { apply (Hin (e_input e) tiles); [by eapply lookup_lt_Some|done|].
      apply list_elem_of_lookup. by exists (e_slot e). }
    exists (Z.to_nat (e_tile e)). split; [unfold n, bucket_count; lia|].
    split; [lia|].
    intros b'. rewrite elem_of_spec_bucket. split; [lia|].
    intros ->. split; [done|lia]. }
  exists (barrier_graph g inputs params).
  rewrite (program_valid g inputs outputs params Hne Hok).
  split; [done|]. split; [done|]. simpl.
  by rewrite omap_bucket_vertex_spec.
Qed.

Lemma barrier_tile_bucketing_witness :
  descriptor_ok barrier_ex_graph barrier_ex_inputs barrier_ex_params /\
  exists g',
    program barrier_ex_inputs [] barrier_ex_params barrier_ex_graph
    = (g', Ok (Sequence [Execute 0%nat], barrier_ex_inputs)) /\
    computeSets g' = 1%nat /\
    vertices g'
    = vertices barrier_ex_graph
      ++ omap (spec_vertex 0 (vname barrier_ex_params) (entries barrier_ex_inputs barrier_ex_params))
              (seq 0 (bucket_count barrier_ex_params)).
Proof.
  assert (descriptor_ok barrier_ex_graph barrier_ex_inputs barrier_ex_params) as Hok by compute_done.
  split; [exact Hok|].
  apply (barrier_tile_bucketing barrier_ex_graph barrier_ex_inputs [] barrier_ex_params);
    [done | exact Hok].
Defined.

(** C10 — the bucketing loop checks nothing: where no exception stops it
    first, its accesses are in bounds exactly when there is a tile array
    for every input and every tile of the tile array of every input lies
    in [[0, max_tile]]; when that fails the primitive does not reject the
    descriptor, it reads or writes a vector out of bounds. *)
Theorem barrier_accesses_unchecked g inputs outputs params :
  inputs <> [] ->
  reaches_all inputs params ->
  (in_bounds inputs params <->
   (program inputs outputs params g).2 <> Fail ub_out_of_bounds) /\
  (~ in_bounds inputs params ->
   program inputs outputs params g = (g, Fail ub_out_of_bounds)).
Proof.
  intros Hne Hr.
  pose proof (program_triple inputs outputs params g Hne Hr) as H.
  unfold triple in H.
  destruct (program inputs outputs params g) as [g' [r|e]]; simpl.
  - destruct H as (Hin & _ & _). split; [by split|done].
  - destruct H as [(-> & Hnin & ->)|(-> & Hin & _)].
    + split; [|done]. split; [done|]. intros Hn. by destruct Hn.
    + split; [by split|done].
Qed.

Lemma barrier_accesses_unchecked_witness :
  reaches_all barrier_ex_inputs barrier_ex_params_out /\
  ~ in_bounds barrier_ex_inputs barrier_ex_params_out /\
  program barrier_ex_inputs [] barrier_ex_params_out barrier_ex_graph
  = (barrier_ex_graph, Fail ub_out_of_bounds).
Proof.
  assert (reaches_all barrier_ex_inputs barrier_ex_params_out) as Hr by compute_done.
  assert (~ in_bounds barrier_ex_inputs barrier_ex_params_out) as Hn by compute_done.
  split; [exact Hr|]. split; [exact Hn|].
  apply (barrier_accesses_unchecked barrier_ex_graph barrier_ex_inputs [] barrier_ex_params_out);
    [done | exact Hr | exact Hn].
Defined.

End BarrierFacts.

(** ** The data barrier: when it returns and what a failure leaves *)

Module BarrierOutcome.
Import TileDataBarrier BarrierSpec BarrierOutcomeSpec.

Lemma reinterpret_ok_inv t r :
  tileBarrierReinterpretTensor t = Ok r ->
  supported (elementType t) /\
  r = retyped t (barrier_type (elementType t)).
Proof.
  destruct t as [ty sh es]. unfold supported, family_8, family_16, family_32.
  simpl. rewrite !elem_of_cons, elem_of_nil.
  destruct ty; simpl; intros [= <-]; (split; [tauto|reflexivity]).
Qed.

(** X15 — the reinterpretation keeps the element size and is idempotent:
    the type a tensor is reinterpreted to has the size of its own type (so
    that the reinterpretation itself cannot fail), and a tensor that has been
    reinterpreted is reinterpreted to itself. *)
Theorem barrier_reinterpret_stable t r :
  tileBarrierReinterpretTensor t = Ok r ->
  type_size (elementType r) = type_size (elementType t) /\
  tileBarrierReinterpretTensor r = Ok r.
Proof.
  destruct t as [ty sh es].
  destruct ty; simpl; intros [= <-]; by split.
Qed.

Lemma barrier_reinterpret_stable_witness :
  type_size (elementType (retyped (var_tensor 0 HALF [2%nat]) UNSIGNED_SHORT))
  = type_size (elementType (var_tensor 0 HALF [2%nat])) /\
  tileBarrierReinterpretTensor
    (retyped (var_tensor 0 HALF [2%nat]) UNSIGNED_SHORT)
  = Ok (retyped (var_tensor 0 HALF [2%nat]) UNSIGNED_SHORT).
Proof.
  apply (barrier_reinterpret_stable (var_tensor 0 HALF [2%nat])).
  reflexivity.
Defined.

Lemma reinterpret_fail_kind t e :
  tileBarrierReinterpretTensor t = Fail e -> not_invalid_tile e.
Proof. destruct t as [ty sh es]. by destruct ty; simpl; intros [= <-]. Qed.

Lemma index_fail_kind t i e : index t i = Fail e -> not_invalid_tile e.
Proof.
  unfold index. destruct (shape t); [by intros [= <-]|].
  destruct (_ <? _)%nat; [done|]. by intros [= <-].
Qed.

(** The loop over the slots of one input, without any assumption. *)
Lemma slots_returns r tiles tpt g :
  triple (for_range (slot r tiles) (length tiles) tpt) g
    (fun g' tpt' =>
       g' = g /\ length tpt' = length tpt /\
       (length tiles <= extent r)%nat /\
       Forall (fun tile => 0 <= tile /\ (Z.to_nat tile < length tpt)%nat)
              tiles)
    (fun g' e => g' = g /\ not_invalid_tile e).
Proof.
  eapply triple_conseq.
  - apply (triple_for_range _ _
      (fun k g' tpt' =>
         g' = g /\ length tpt' = length tpt /\
         (k <= length tiles -> k <= extent r)%nat /\
         Forall (fun tile => 0 <= tile /\ (Z.to_nat tile < length tpt)%nat)
                (take k tiles))
      (fun g' e => g' = g /\ not_invalid_tile e)).
    + repeat split; [lia|]. by rewrite take_0.
    + intros k g1 tpt1 Hk (-> & Hlen & Hext & Hall).
      destruct (lookup_lt_is_Some_2 tiles k Hk) as [tile Htile].
      unfold slot. apply triple_bind_lift.
      unfold vec_get at 1. rewrite Htile.
      apply triple_bind_lift.
      destruct (vec_get_Z tpt1 tile) as [bucket|e] eqn:E1;
        [|apply vec_get_Z_fail in E1 as ->; by split].
      apply vec_get_Z_ok_inv in E1 as [Hpos Hb%lookup_lt_Some].
      apply triple_bind_lift.
      destruct (index r k) as [item|e] eqn:E2;
        [|split; [done|by eapply index_fail_kind]].
      apply index_ok_inv in E2 as [Hlt _].
      apply triple_ret. split; [done|].
      split; [by rewrite length_insert|]. split; [lia|].
      rewrite (take_S_r _ _ _ Htile). apply Forall_app. split; [done|].
      repeat constructor; [done|lia].
  - intros g' tpt' (-> & Hlen & Hext & Hall).
    rewrite take_ge in Hall by done. repeat split; try done. by apply Hext.
  - done.
Qed.

Lemma input_slots_returns inputs params idx tpt g :
  triple (input_slots inputs params idx tpt) g
    (fun g' tpt' =>
       g' = g /\ length tpt' = length tpt /\
       input_fits inputs params (length tpt) idx)
    (fun g' e => g' = g /\ not_invalid_tile e).
Proof.
  unfold input_slots.
  apply triple_bind_lift.
  destruct (vec_get inputs idx) as [t|e] eqn:E1;
    [|apply vec_get_fail in E1 as ->; by split].
  apply vec_get_ok_inv in E1.
  apply triple_bind_lift.
  destruct (tileBarrierReinterpretTensor t) as [r|e] eqn:E2;
    [|split; [done|by eapply reinterpret_fail_kind]].
  apply reinterpret_ok_inv in E2 as [Hsup ->].
  apply triple_bind_lift.
  destruct (vec_get (inputs_tiles params) idx) as [tiles|e] eqn:E3;
    [|apply vec_get_fail in E3 as ->; by split].
  apply vec_get_ok_inv in E3.
  eapply triple_conseq; [apply slots_returns| |done].
  intros g' tpt' (-> & Hlen & Hext & Hall). split; [done|]. split; [done|].
  by exists t, tiles.
Qed.

Lemma fits_reaches_all inputs params :
  0 <= max_tile params + 1 <= INT32_MAX ->
  (forall idx, (idx < length inputs)%nat ->
     input_fits inputs params (bucket_count params) idx) ->
  reaches_all inputs params /\ in_bounds inputs params.
Proof.
  intros Hmax Hfit. split.
  - split; [|split; [done|]].
    + apply Forall_lookup. intros idx t Ht.
      destruct (Hfit idx) as (t' & tiles & Ht' & Hsup & _);
        [by eapply lookup_lt_Some|].
      rewrite Ht in Ht'. by injection Ht' as <-.
    + apply (BarrierFacts.per_pair_Forall
               (fun t (tiles : list Z) => (length tiles <= extent t)%nat)).
      intros idx t tiles Ht Htiles.
      destruct (Hfit idx) as (t' & tiles' & Ht' & _ & Htiles' & Hext & _);
        [by eapply lookup_lt_Some|].
      rewrite Ht in Ht'. rewrite Htiles in Htiles'.
      injection Ht' as <-. by injection Htiles' as <-.
  - apply BarrierFacts.in_bounds_alt. split.
    + destruct (decide (length inputs = 0%nat)) as [->|Hne]; [lia|].
      destruct (Hfit (pred (length inputs)))
        as (_ & tiles & _ & _ & Htiles%lookup_lt_Some & _); lia.
    + intros idx tiles tile Hidx Htiles Hin.
      destruct (Hfit idx Hidx) as (_ & tiles' & _ & _ & Htiles' & _ & Hall).
      rewrite Htiles in Htiles'. injection Htiles' as <-.
      rewrite Forall_forall in Hall.
      apply BarrierFacts.good_tile_iff; [lia|]. by apply Hall.
Qed.

(** The bucketing returns only for a descriptor whose accesses are all in
    bounds, and changes nothing in the graph. *)
Lemma bucketing_returns inputs params g :
  triple (bucketing inputs params) g
    (fun g' tpt =>
       g' = g /\
       (max_tile params <= INT32_MAX ->
        reaches_all inputs params /\ in_bounds inputs params))
    (fun g' e => g' = g /\ not_invalid_tile e).
Proof.
  unfold bucketing. apply triple_bind_lift.
  unfold make_buckets.
  destruct (decide (max_tile params = INT32_MAX)) as [?|Hne]; [by split|].
  destruct (Z.ltb_spec (max_tile params + 1) 0) as [?|Hpos]; [by split|].
  fold (bucket_count params).
  eapply triple_conseq.
  - apply (triple_for_range _ _
      (fun idx g' tpt =>
         g' = g /\ length tpt = bucket_count params /\
         forall j, (j < idx)%nat ->
           input_fits inputs params (bucket_count params) j)
      (fun g' e => g' = g /\ not_invalid_tile e)).
    + split; [done|]. split; [by rewrite length_replicate|]. intros j Hj. lia.
    + intros idx g1 tpt Hidx (-> & Hlen & Hprev).
      eapply triple_conseq; [apply input_slots_returns| |done].
      intros g' tpt' (-> & Hlen' & Hfit). split; [done|].
      split; [congruence|]. intros j Hj.
      destruct (decide (j = idx)) as [->|]; [|apply Hprev; lia].
      by rewrite <- Hlen.
  - intros g' tpt (-> & _ & Hfit). split; [done|]. intros Hint.
    apply fits_reaches_all; [lia|done].
  - done.
Qed.

Lemma vertices_added_refl g : vertices_added g g.
Proof. by repeat split. Qed.

Lemma vertices_added_trans g1 g2 g3 :
  vertices_added g1 g2 -> vertices_added g2 g3 -> vertices_added g1 g3.
Proof.
  intros (? & ? & ? & ? & ?) (? & ? & ? & ? & ?).
  repeat split; try congruence. by etrans.
Qed.

(** One turn of the loop over the tiles. *)
Lemma tile_vertex_run cs params (tpt : list (list Tensor)) (tile : nat)
    (tensors : list Tensor) (g : Graph) :
  tpt !! tile = Some tensors ->
  exists g' r,
    tile_vertex cs params tpt tile tt g = (g', r) /\
    vertices_added g g' /\
    match r with
    | Ok _ => tensors <> [] ->
              Z.of_nat tile mod 2 ^ 32 < Z.of_nat (numTiles g)
    | Fail e => e = poplar_error "invalid tile"
    end.
Proof.
  intros Hts. unfold tile_vertex.
  rewrite (bind_lift_ok _ _ _ tensors) by (unfold vec_get; by rewrite Hts).
  destruct tensors as [|x ts]; simpl.
  { eexists _, _. split; [reflexivity|].
    split; [apply vertices_added_refl|done]. }
  unfold mbind, M_bind, bind, addVertex, setVertexTile, setPerfEstimate,
    connect, update_vertex. simpl.
  destruct (Z.ltb_spec (Z.of_nat tile mod 2 ^ 32) (Z.of_nat (numTiles g)));
    simpl.
  - eexists _, _. split; [reflexivity|]. split; [|done].
    repeat split; simpl. rewrite !alter_last. by apply prefix_app_r.
  - eexists _, _. split; [reflexivity|]. split; [|done].
    repeat split; simpl. by apply prefix_app_r.
Qed.

(** The loop over the tiles, without any assumption on the buckets. *)
Lemma vertices_returns cs params tpt g :
  triple (for_range (tile_vertex cs params tpt) (length tpt) tt) g
    (fun g' _ =>
       vertices_added g g' /\
       (Z.of_nat (length tpt) <= 2 ^ 32 ->
        forall tile, is_Some (bucket_vertex cs (vname params) tpt tile) ->
                     (tile < numTiles g)%nat))
    (fun g' e => vertices_added g g' /\ e = poplar_error "invalid tile").
Proof.
  eapply triple_conseq.
  - apply (triple_for_range _ _
      (fun n g' (_ : unit) =>
         vertices_added g g' /\
         (Z.of_nat (length tpt) <= 2 ^ 32 ->
          forall tile, (tile < n)%nat ->
            is_Some (bucket_vertex cs (vname params) tpt tile) ->
            (tile < numTiles g)%nat))
      (fun g' e => vertices_added g g' /\ e = poplar_error "invalid tile")).
    + split; [apply vertices_added_refl|]. intros _ tile Htile. lia.
    + intros tile g1 [] Htile [Hadd Hprev].
      destruct (lookup_lt_is_Some_2 tpt tile Htile) as [tensors Hts].
      destruct (tile_vertex_run cs params tpt tile tensors g1 Hts)
        as (g2 & r & Hrun & Hadd2 & Hr).
      unfold triple. rewrite Hrun. destruct r as [[]|e].
      * split; [by eapply vertices_added_trans|].
        intros Hlen tile' Hlt Hsome.
        destruct (decide (tile' = tile)) as [->|]; [|apply Hprev; [done|lia|done]].
        unfold bucket_vertex in Hsome. rewrite Hts in Hsome.
        destruct tensors as [|x ts]; [by destruct Hsome|].
        rewrite Z.mod_small in Hr by lia.
        destruct Hadd as (Hn & _). rewrite Hn in Hr.
        assert (Z.of_nat tile < Z.of_nat (numTiles g)) by (by apply Hr).
        lia.
      * split; [by eapply vertices_added_trans|done].
  - intros g' u [Hadd H]. split; [done|]. intros Hlen tile Hsome.
    apply H; [done| |done].
    unfold bucket_vertex in Hsome.
    destruct (tpt !! tile) eqn:E; [by eapply lookup_lt_Some|by destruct Hsome].
  - done.
Qed.

(** A bucket that holds a slot has a vertex. *)
Lemma slot_bucket_vertex cs inputs params idx t tiles tile :
  in_bounds inputs params ->
  inputs !! idx = Some t ->
  inputs_tiles params !! idx = Some tiles ->
  tile ∈ tiles ->
  is_Some (bucket_vertex cs (vname params)
             (spec_buckets (entries inputs params) (bucket_count params))
             (Z.to_nat tile)).
Proof.
  intros Hin Ht Htiles [k Hk]%list_elem_of_lookup.
  pose proof (proj1 (BarrierFacts.in_bounds_alt _ _) Hin) as [_ Hb].
  assert (0 <= tile <= max_tile params) as Hrange.
  { apply (Hb idx tiles); [by eapply lookup_lt_Some|done|].
    apply list_elem_of_lookup. by exists k. }
  set (e := mkEntry idx k tile
              (sub_tensor (retyped t (barrier_type (elementType t))) k)).
  assert (e ∈ spec_bucket (entries inputs params) (Z.to_nat tile)) as He.
  { apply BarrierFacts.elem_of_spec_bucket. split; [|simpl; lia].
    apply BarrierFacts.elem_of_entries. by exists t, tiles. }
  unfold bucket_vertex.
  rewrite BarrierFacts.spec_buckets_lookup by (unfold bucket_count; lia).
  destruct (spec_bucket _ _) as [|e0 es]; [by apply elem_of_nil in He|].
  by eexists.
Qed.

(** X5 — when the barrier returns: with [max_tile] an [int32_t], the
    primitive returns exactly when it has at least one input and the
    descriptor fits the inputs and the target (supported element types, as
    many tile arrays as inputs, no more tiles than slots for an input, every
    tile in [[0, max_tile]] and a tile of the target, and [max_tile + 1]
    an [int32_t] that is not negative). *)
Theorem barrier_returns_iff g inputs outputs params :
  max_tile params <= INT32_MAX ->
  (exists g' r, program inputs outputs params g = (g', Ok r)) <->
  inputs <> [] /\ descriptor_ok g inputs params.
Proof.
  intros Hint. split.
  - intros (g' & r & Hrun). unfold program in Hrun.
    destruct (Nat.ltb_spec (length inputs) 1) as [?|Hlen]; [done|].
    split; [intros ->; simpl in Hlen; lia|].
    apply bind_ok_inv in Hrun as (g1 & tpt & Hb & Hrun).
    destruct (triple_ok _ _ _ _ _ _ (bucketing_returns inputs params g) Hb)
      as [-> Hfit].
    destruct (Hfit Hint) as [Hreach Hin].
    destruct (triple_ok _ _ _ _ _ _
                (BarrierFacts.bucketing_triple inputs params g Hreach) Hb)
      as (_ & -> & _).
    apply bind_ok_inv in Hrun as (g2 & cs & Hcs & Hrun).
    apply bind_ok_inv in Hrun as (g3 & u & Hloop & _).
    destruct (triple_ok _ _ _ _ _ _
                (vertices_returns cs params _ g2) Hloop) as [_ Hvalid].
    assert (numTiles g2 = numTiles g) as Hnum
      by (unfold addComputeSet in Hcs; by injection Hcs as <- _).
    rewrite BarrierFacts.spec_buckets_length, Hnum in Hvalid.
    destruct Hreach as (Hsup & Hmax & Hslots).
    split; [done|]. split; [done|].
    apply BarrierFacts.tiles_valid_alt. intros idx tiles tile Hidx Htiles Htile.
    destruct (lookup_lt_is_Some_2 inputs idx Hidx) as [t Ht].
    pose proof (proj1 (BarrierFacts.in_bounds_alt _ _) Hin) as [_ Hb'].
    pose proof (Hb' idx tiles tile Hidx Htiles Htile) as Hrange.
    assert (Z.to_nat tile < numTiles g)%nat; [|lia].
    apply Hvalid.
    + unfold bucket_count, INT32_MAX in *. lia.
    + by eapply slot_bucket_vertex.
  - intros [Hne Hok]. eexists _, _. by apply BarrierFacts.program_valid.
Qed.

Lemma barrier_returns_iff_witness :
  (exists g' r,
     program barrier_ex_inputs [] barrier_ex_params barrier_ex_graph
     = (g', Ok r)) <->
  barrier_ex_inputs <> [] /\
  descriptor_ok barrier_ex_graph barrier_ex_inputs barrier_ex_params.
Proof.
  apply (barrier_returns_iff barrier_ex_graph barrier_ex_inputs []
           barrier_ex_params).
  vm_compute. discriminate.
Defined.

(** X6 — what a failure of the barrier leaves: a failure other than a tile
    the target does not have leaves the graph untouched; the failure on such
    a tile comes after the compute set is added, and leaves the graph with
    that compute set and with vertices added behind the ones it had, its
    variables and its tile mapping untouched. *)
Theorem barrier_failure_graph inputs outputs params g g' e :
  program inputs outputs params g = (g', Fail e) ->
  (not_invalid_tile e /\ g' = g) \/
  (e = poplar_error "invalid tile" /\
   numTiles g' = numTiles g /\
   variables g' = variables g /\
   tileMapping g' = tileMapping g /\
   computeSets g' = S (computeSets g) /\
   vertices g `prefix_of` vertices g').
Proof.
  unfold program.
  destruct (length inputs <? 1)%nat.
  { intros [= <- <-]. by left. }
  unfold mbind, M_bind, bind.
  pose proof (bucketing_returns inputs params g) as Hb. unfold triple in Hb.
  destruct (bucketing inputs params g) as [g1 [tpt|e1]].
  2:{ intros [= <- <-]. destruct Hb as [-> Hb]. by left. }
  destruct Hb as [-> _]. simpl.
  pose proof (vertices_returns (computeSets g) params tpt
                (addComputeSet g).1) as Hv.
  unfold triple in Hv. simpl in Hv.
  destruct (for_range _ _ _ _) as [g2 [u|e2]]; [done|].
  intros [= <- <-]. destruct Hv as [(Hn & Hvar & Hmap & Hcs & Hpre) ->].
  right. by repeat split.
Qed.

Lemma barrier_failure_graph_witness :
  exists g' e,
    program barrier_ex_inputs [] barrier_ex_params barrier_ex_small_graph
    = (g', Fail e) /\
    ((not_invalid_tile e /\ g' = barrier_ex_small_graph) \/
     (e = poplar_error "invalid tile" /\
      numTiles g' = numTiles barrier_ex_small_graph /\
      variables g' = variables barrier_ex_small_graph /\
      tileMapping g' = tileMapping barrier_ex_small_graph /\
      computeSets g' = S (computeSets barrier_ex_small_graph) /\
      vertices barrier_ex_small_graph `prefix_of` vertices g')).
Proof.
  eexists _, _. split; [vm_compute; reflexivity|].
  apply (barrier_failure_graph barrier_ex_inputs [] barrier_ex_params).
  vm_compute. reflexivity.
Defined.

End BarrierOutcome.

(** ** Sharded placement *)

Module ShardedFacts.
Import ShardedSpec.

Section Allocation.

Variables (g : Graph) (ty : Type_) (sh : list nat) (tiles : list Z).
Hypothesis Hvalid : Forall (valid_tile g) tiles.

Lemma partition_elems i :
  (i < length tiles)%nat ->
  elems (sub_tensor (sharded_tensor g ty sh tiles) i)
  = (fun k => (length (variables g), k))
      <$> seq (i * numElements sh) (numElements sh).
Proof. intros Hi. by apply sub_tensor_var_elems. Qed.

Lemma partitions_disjoint i j e :
  (i < length tiles)%nat -> (j < length tiles)%nat -> i <> j ->
  e ∈ elems (sub_tensor (sharded_tensor g ty sh tiles) i) ->
  e ∉ elems (sub_tensor (sharded_tensor g ty sh tiles) j).
Proof.
  intros Hi Hj Hne. rewrite !partition_elems by done.
  intros (k & -> & Hk%elem_of_seq)%list_elem_of_fmap
         (k' & [= <-] & Hk'%elem_of_seq)%list_elem_of_fmap.
  nia.
Qed.

Lemma sharded_graph_0 :
  addVariable ty (length tiles :: sh) g
  = (sharded_graph g ty sh tiles 0, Ok (sharded_tensor g ty sh tiles)).
Proof. done. Qed.

(** [createShardedVariable] on valid tiles. *)
Lemma createShardedVariable_run :
  createShardedVariable ty sh tiles g
  = (sharded_graph g ty sh tiles (length tiles),
     Ok (sharded_tensor g ty sh tiles)).
Proof.
  unfold createShardedVariable.
  rewrite (bind_run _ _ _ _ _ sharded_graph_0).
  erewrite bind_run; [reflexivity|].
  apply (for_range_run _ _ (sharded_graph g ty sh tiles) (fun _ => tt)).
  intros i Hi.
  destruct (lookup_lt_is_Some_2 tiles i Hi) as [tile Htile].
  rewrite Forall_lookup in Hvalid.
  destruct (Hvalid _ _ Htile) as [Hrange Hint].
  rewrite (bind_lift_ok _ _ _ (sub_tensor (sharded_tensor g ty sh tiles) i))
    by (apply index_in_range; unfold extent; simpl; lia).
  rewrite (bind_lift_ok _ _ _ tile) by (unfold vec_get; by rewrite Htile).
  rewrite setTileMapping_valid by (simpl; lia).
  assert (forall m,
            partition_mapping (sharded_tensor g ty sh tiles) tiles m i
            = map_elems (elems (sub_tensor (sharded_tensor g ty sh tiles) i))
                        (Z.to_nat tile) m) as Hpm
    by (intros m; unfold partition_mapping; by rewrite Htile).
  unfold sharded_graph. rewrite seq_S, foldl_app. simpl foldl.
  by rewrite Hpm.
Qed.

Lemma partition_mapped n i tile e :
  (n <= length tiles)%nat -> (i < n)%nat -> tiles !! i = Some tile ->
  e ∈ elems (sub_tensor (sharded_tensor g ty sh tiles) i) ->
  tileMapping (sharded_graph g ty sh tiles n) !! e = Some (Z.to_nat tile).
Proof.
  intros Hn Hi Htile He. simpl. induction n as [|n IH]; [lia|].
  rewrite seq_S, foldl_app. simpl foldl.
  match goal with
  | |- partition_mapping ?t _ ?m _ !! _ = _ =>
      change (map_elems (elems (sub_tensor t n))
                (Z.to_nat (default 0 (tiles !! n))) m !! e
              = Some (Z.to_nat tile))
  end.
  destruct (decide (i = n)) as [->|Hne].
  - rewrite Htile. simpl. by apply map_elems_lookup.
  - rewrite map_elems_lookup_other; [apply IH; lia|].
    apply (partitions_disjoint i n); [lia..|done].
Qed.

End Allocation.

(** The primitive on an input and a tile array that fit, with at least
    one tile. *)
Lemma sharded_program_run g input outputs tile_array :
  sharded_ok g input tile_array ->
  tile_array <> [] ->
  TilePutSharded.program [input] outputs tile_array g
  = (sharded_graph g (elementType input) (tail (shape input)) tile_array
       (length tile_array),
     Ok (Copy input
           (sharded_tensor g (elementType input) (tail (shape input))
              tile_array),
         outputs
         ++ [sharded_tensor g (elementType input) (tail (shape input))
               tile_array])).
Proof.
  intros (Hten & Hshape & Hext & Hvalid & Hold) Hne.
  unfold TilePutSharded.program.
  destruct (decide (length [input] <> 1%nat)) as [?|_]; [done|].
  rewrite (bind_lift_ok _ _ _ input) by done.
  rewrite (bind_lift_ok _ _ _ (extent input)).
  2:{ unfold vec_get, extent. by destruct (shape input). }
  destruct (decide (extent input <> length tile_array)) as [?|_]; [done|].
  rewrite (bind_lift_ok _ _ _ (sub_tensor input 0)).
  2:{ apply index_in_range. rewrite Hext.
      destruct tile_array; [done|simpl; lia]. }
  simpl shape.
  by rewrite (bind_run _ _ _ _ _
                (createShardedVariable_run g _ _ tile_array Hvalid)).
Qed.

Lemma sharded_tensor_shape g input tile_array :
  shape input <> [] -> extent input = length tile_array ->
  sharded_tensor g (elementType input) (tail (shape input)) tile_array
  = var_tensor (length (variables g)) (elementType input) (shape input).
Proof.
  unfold sharded_tensor, extent. destruct (shape input); [done|].
  by intros _ ->.
Qed.

(** A bulk copy between tensors of one shape copies partition by
    partition. *)
Lemma copy_partition s input output i :
  NoDup (elems output) ->
  length (elems input) = length (elems output) ->
  shape output = shape input ->
  read (write s (elems output) (read s input)) (sub_tensor output i)
  = read s (sub_tensor input i).
Proof.
  intros Hnd Hlen Hshape. unfold read, sub_tensor. simpl.
  rewrite Hshape, !fmap_take, !fmap_drop.
  rewrite read_write; [done..|]. by rewrite length_fmap.
Qed.

(** C7, as the code has it — sharded placement of an input with at least
    one partition: for an input whose leading extent is the length of the
    tile array, tiles of the target and every partition [i], the primitive
    returns one bulk copy from the input to its output; the output is a new
    variable of the type and shape of the input, sharing no storage with it;
    partition [i] of the output has the shape of the input without its
    leading axis, is mapped to [tile_array[i]] and holds after the copy the
    values of partition [i] of the input. *)
Theorem sharded_placement g input outputs tile_array s i tile :
  sharded_ok g input tile_array ->
  tile_array !! i = Some tile ->
  exists g' output s' part,
    TilePutSharded.program [input] outputs tile_array g
    = (g', Ok (Copy input output, outputs ++ [output])) /\
    output
    = var_tensor (length (variables g)) (elementType input) (shape input) /\
    variables g' = variables g ++ [(elementType input, shape input)] /\
    Forall (fun e => e ∉ elems input) (elems output) /\
    index output i = Ok part /\
    shape part = tail (shape input) /\
    elementType part = elementType input /\
    Forall (fun e => tileMapping g' !! e = Some (Z.to_nat tile))
           (elems part) /\
    exec (Copy input output) s = Some s' /\
    index input i = Ok (sub_tensor input i) /\
    read s' part = read s (sub_tensor input i).
Proof.
  intros Hok Htile.
  pose proof Hok as (Hten & Hshape & Hext & Hvalid & Hold).
  assert (i < length tile_array)%nat as Hi by (by eapply lookup_lt_Some).
  assert (tile_array <> []) as Hne by (intros E; by rewrite E in Htile).
  pose proof (sharded_tensor_shape g input tile_array Hshape Hext) as Hout.
  eexists _, _, _, _.
  split; [by apply sharded_program_run|]. rewrite Hout.
  split; [done|].
  split.
  { simpl. f_equal. f_equal. unfold extent in Hext.
    destruct (shape input); [done|]. simpl. by rewrite Hext. }
  split.
  { apply Forall_forall. intros e He%var_tensor_elems_var Hin.
    rewrite Forall_forall in Hold. apply Hold in Hin. lia. }
  split.
  { apply index_in_range. unfold extent in *. simpl.
    destruct (shape input); [done|]. lia. }
  split; [done|]. split; [done|].
  split.
  { apply Forall_forall. intros e He. rewrite <- Hout in He.
    by apply (partition_mapped g _ _ tile_array (length tile_array) i). }
  split; [reflexivity|].
  split; [apply index_in_range; lia|].
  apply copy_partition.
  - apply var_tensor_NoDup.
  - rewrite Hten. simpl. by rewrite length_fmap, length_seq.
  - done.
Qed.

Lemma sharded_placement_witness :
  sharded_ok sharded_ex_graph sharded_ex_input sharded_ex_tiles /\
  exists g' output s' part,
    TilePutSharded.program [sharded_ex_input] [] sharded_ex_tiles sharded_ex_graph
    = (g', Ok (Copy sharded_ex_input output, [output])) /\
    index output 1 = Ok part /\
    Forall (fun e => tileMapping g' !! e = Some 5%nat) (elems part) /\
    exec (Copy sharded_ex_input output) (fun e => Z.of_nat e.2) = Some s' /\
    read s' part = read (fun e => Z.of_nat e.2) (sub_tensor sharded_ex_input 1).
Proof.
  assert (sharded_ok sharded_ex_graph sharded_ex_input sharded_ex_tiles) as Hok by compute_done.
  split; [exact Hok|].
  destruct (sharded_placement sharded_ex_graph sharded_ex_input [] sharded_ex_tiles
              (fun e => Z.of_nat e.2) 1 5 Hok eq_refl)
    as (g' & output & s' & part & Hrun & _ & _ & _ & Hpart & _ & _ & Hmap
        & Hexec & _ & Hval).
  by exists g', output, s', part.
Defined.

(** C7, as the specification has it, fails on an input without
    partitions: the extent is the length of the (empty) tile array, and the
    primitive throws on [input[0]] instead of allocating. *)
Lemma sharded_empty_counterexample :
  extent sharded_ex_empty_input = length (@nil Z) /\
  TilePutSharded.program [sharded_ex_empty_input] [] [] sharded_ex_empty_graph
  = (sharded_ex_empty_graph, Fail (poplar_error "index out of bounds")).
Proof. split; reflexivity. Qed.

End ShardedFacts.

(** ** Replicated placement *)

Module ReplicatedFacts.
Import ShardedSpec ReplicatedSpec.

Lemma broadcast0_expand0 input n :
  n <> 0%nat ->
  broadcast0 (expand0 input) n
  = Ok {| elementType := elementType input; shape := n :: shape input;
          elems := List.concat (elems <$> replicate n input) |}.
Proof.
  intros Hn. unfold broadcast0. rewrite <- fmap_replicate.
  rewrite (concat_slices (elementType input) (shape input)).
  - by rewrite length_replicate.
  - by destruct n.
  - apply Forall_replicate. done.
Qed.

Lemma replicated_program_run g input outputs tile_array :
  Forall (valid_tile g) tile_array ->
  tile_array <> [] ->
  TilePutReplicated.program [input] outputs tile_array g
  = (sharded_graph g (elementType input) (shape input) tile_array
       (length tile_array),
     Ok (Copy {| elementType := elementType input;
                 shape := length tile_array :: shape input;
                 elems := List.concat
                            (elems <$> replicate (length tile_array) input) |}
           (sharded_tensor g (elementType input) (shape input) tile_array),
         outputs
         ++ [sharded_tensor g (elementType input) (shape input)
               tile_array])).
Proof.
  intros Hvalid Hne. unfold TilePutReplicated.program.
  destruct (decide (length [input] <> 1%nat)) as [?|_]; [done|].
  rewrite (bind_lift_ok _ _ _ input) by done.
  rewrite (bind_lift_ok _ _ _ _
             (broadcast0_expand0 input (length tile_array)
                ltac:(by destruct tile_array))).
  by rewrite (bind_run _ _ _ _ _
                (ShardedFacts.createShardedVariable_run g _ _ tile_array
                   Hvalid)).
Qed.

(** X1 — replicated placement: for one input (of any shape, a scalar
    included), tiles of the target and every entry [i] of the tile array,
    the primitive returns one bulk copy from a broadcast view of the input
    to its output; the output is a new variable with one partition per tile
    in front of the shape of the input, sharing no storage with it;
    partition [i] of the source view is the input itself; partition [i] of
    the output has the type and shape of the input, is mapped to
    [tile_array[i]] and holds after the copy the values of the input. *)
Theorem replicated_placement g input outputs tile_array s i tile :
  replicated_ok g input tile_array ->
  tile_array !! i = Some tile ->
  exists g' src output s' part,
    TilePutReplicated.program [input] outputs tile_array g
    = (g', Ok (Copy src output, outputs ++ [output])) /\
    output
    = var_tensor (length (variables g)) (elementType input)
        (length tile_array :: shape input) /\
    variables g'
    = variables g ++ [(elementType input, length tile_array :: shape input)] /\
    shape src = shape output /\
    index src i = Ok input /\
    Forall (fun e => e ∉ elems input) (elems output) /\
    index output i = Ok part /\
    shape part = shape input /\
    elementType part = elementType input /\
    Forall (fun e => tileMapping g' !! e = Some (Z.to_nat tile))
           (elems part) /\
    exec (Copy src output) s = Some s' /\
    read s' part = read s input.
Proof.
  intros (Hten & Hvalid & Hold) Htile.
  assert (i < length tile_array)%nat as Hi by (by eapply lookup_lt_Some).
  assert (tile_array <> []) as Hne by (intros E; by rewrite E in Htile).
  set (n := length tile_array) in *.
  assert (index {| elementType := elementType input;
                   shape := n :: shape input;
                   elems := List.concat (elems <$> replicate n input) |} i
          = Ok input) as Hsrc.
  { pose proof (index_concat_slices (elementType input) (shape input)
                  (replicate n input) i input) as H.
    rewrite length_replicate in H. apply H.
    - by apply Forall_replicate.
    - by apply Forall_replicate.
    - by apply lookup_replicate_2. }
  eexists _, _, _, _, _.
  split; [by apply replicated_program_run|].
  split; [done|]. split; [done|]. split; [done|].
  split; [exact Hsrc|].
  split.
  { apply Forall_forall. intros e He%var_tensor_elems_var Hin.
    rewrite Forall_forall in Hold. apply Hold in Hin. lia. }
  split; [apply index_in_range; unfold extent; simpl; lia|].
  split; [done|]. split; [done|].
  split.
  { apply Forall_forall. intros e He.
    by apply (ShardedFacts.partition_mapped g _ _ tile_array n i). }
  split; [reflexivity|].
  subst n. rewrite copy_partition_view.
  - rewrite index_in_range in Hsrc by (unfold extent; simpl; lia).
    injection Hsrc as Hsrc. by rewrite Hsrc.
  - apply var_tensor_NoDup.
  - simpl. rewrite length_fmap, length_seq.
    rewrite (length_concat_uniform (numElements (shape input))).
    + by rewrite length_fmap, length_replicate.
    + apply Forall_fmap, Forall_replicate. exact Hten.
  - done.
Qed.

Lemma replicated_placement_witness :
  replicated_ok replicated_ex_graph replicated_ex_input replicated_ex_tiles /\
  exists g' src output s' part,
    TilePutReplicated.program [replicated_ex_input] [] replicated_ex_tiles
      replicated_ex_graph
    = (g', Ok (Copy src output, [output])) /\
    index output 1 = Ok part /\
    Forall (fun e => tileMapping g' !! e = Some 5%nat) (elems part) /\
    exec (Copy src output) (fun e => Z.of_nat e.2) = Some s' /\
    read s' part = read (fun e => Z.of_nat e.2) replicated_ex_input.
Proof.
  assert (replicated_ok replicated_ex_graph replicated_ex_input
            replicated_ex_tiles) as Hok by compute_done.
  split; [exact Hok|].
  destruct (replicated_placement replicated_ex_graph replicated_ex_input []
              replicated_ex_tiles (fun e => Z.of_nat e.2) 1 5 Hok eq_refl)
    as (g' & src & output & s' & part & Hrun & _ & _ & _ & _ & _ & Hpart
        & _ & _ & Hmap & Hexec & Hval).
  by exists g', src, output, s', part.
Defined.

End ReplicatedFacts.

(** ** Sharded placement: the validation *)

Module ShardedValidation.
Import ShardedSpec GatherSpec.

Lemma createShardedVariable_never_validates ty sh tiles g :
  triple (createShardedVariable ty sh tiles) g
    (fun _ _ => True) (fun _ e => not_validation e).
Proof.
  unfold createShardedVariable.
  eapply triple_bind_run; [reflexivity|]. cbv beta iota.
  eapply triple_bind; [|done].
  apply (triple_for_range _ _ (fun _ _ _ => True)); [done|].
  intros i g1 [] _ _.
  apply triple_bind_lift.
  destruct (index _ i) as [part|e] eqn:E1;
    [|apply index_fail in E1 as [m ->]; by intros msg].
  apply triple_bind_lift.
  destruct (vec_get tiles i) as [tile|e] eqn:E2;
    [|apply vec_get_fail in E2 as ->; by intros msg].
  unfold triple.
  destruct (setTileMapping part tile g1) as [g2 [[]|e]] eqn:E3; [done|].
  apply setTileMapping_fail in E3 as ->. by intros msg.
Qed.

(** X7 — the validation of the sharded placement: for inputs that are not
    scalars, the primitive throws a validation error exactly when it is not
    given one input, or the leading extent of its input is not the length of
    the tile array; the graph is then untouched. *)
Theorem sharded_validation inputs outputs tile_array g :
  Forall (fun t => shape t <> []) inputs ->
  ((exists msg,
      (TilePutSharded.program inputs outputs tile_array g).2
      = Fail (poplibs_error msg)) <->
   (length inputs <> 1%nat \/
    exists input, inputs = [input] /\ extent input <> length tile_array)) /\
  (forall msg,
     (TilePutSharded.program inputs outputs tile_array g).2
     = Fail (poplibs_error msg) ->
     (TilePutSharded.program inputs outputs tile_array g).1 = g).
Proof.
  intros Hshape. unfold TilePutSharded.program.
  destruct (decide (length inputs <> 1%nat)) as [Hlen|Hlen].
  { split; [|done]. split; [by left|]. intros _. by eexists. }
  destruct inputs as [|input [|? ?]]; simpl in Hlen; [lia| |lia].
  apply Forall_inv in Hshape.
  rewrite (bind_lift_ok _ _ _ input) by done.
  rewrite (bind_lift_ok _ _ _ (extent input)).
  2:{ unfold vec_get, extent. by destruct (shape input). }
  destruct (decide (extent input <> length tile_array)) as [Hext|Hext].
  { split; [|done]. split; [|intros _; by eexists].
    intros _. right. by exists input. }
  assert (forall msg,
            ((item ← lift (index input 0);
              output ← createShardedVariable (elementType input)
                         (shape item) tile_array;
              mret (Copy input output, outputs ++ [output])) g).2
            <> Fail (poplibs_error msg)) as Hnever.
  { intros msg.
    destruct (index input 0) as [item|e] eqn:E1.
    2:{ apply index_fail in E1 as [m ->]. done. }
    rewrite (bind_lift_ok _ _ _ item) by done.
    pose proof (createShardedVariable_never_validates (elementType input)
                  (shape item) tile_array g) as H.
    unfold triple in H. unfold mbind, M_bind, bind.
    destruct (createShardedVariable _ _ _ g) as [g1 [t|e]]; [done|].
    simpl. intros [= ->]. by apply (H msg). }
  split.
  - split.
    + intros [msg Hmsg]. by apply Hnever in Hmsg.
    + intros [?|(input' & [= <-] & ?)]; done.
  - intros msg Hmsg. by apply Hnever in Hmsg.
Qed.

Lemma sharded_validation_witness :
  (exists msg,
     (TilePutSharded.program [sharded_ex_input] [] [2; 5] sharded_ex_graph).2
     = Fail (poplibs_error msg)) /\
  (TilePutSharded.program [sharded_ex_input] [] [2; 5] sharded_ex_graph).1
  = sharded_ex_graph.
Proof.
  assert (Forall (fun t => shape t <> []) [sharded_ex_input]) as Hshape
    by (by repeat constructor).
  destruct (sharded_validation [sharded_ex_input] [] [2; 5] sharded_ex_graph
              Hshape) as [Hiff Hgraph].
  assert (exists msg,
            (TilePutSharded.program [sharded_ex_input] [] [2; 5]
               sharded_ex_graph).2 = Fail (poplibs_error msg)) as Hmsg.
  { apply Hiff. right. exists sharded_ex_input. split; [done|].
    vm_compute. discriminate. }
  split; [exact Hmsg|]. destruct Hmsg as [msg Hmsg]. by eapply Hgraph.
Defined.

End ShardedValidation.

(** ** The cross-tile gather *)

Module GatherFacts.
Import TileGather GatherSpec.

Section Run.

Variables (g : Graph) (input : Tensor) (params : Params).
Hypothesis Hok : gather_ok g input params.

(** What the body of the loop reads for slot [i]. *)
Lemma slot_lookups i :
  (i < length (tiles params))%nat ->
  exists gi pt nt,
    indices params !! i = Some gi /\
    previous_tiles params !! Z.to_nat gi = Some pt /\
    tiles params !! i = Some nt /\
    0 <= gi /\ (Z.to_nat gi < extent input)%nat /\
    0 <= nt < 2 ^ 31 /\ (Z.to_nat nt < numTiles g)%nat /\
    gather_idx params i = Z.to_nat gi /\
    input_tile params i = pt /\
    output_tile params i = nt.
Proof.
  intros Hi. destruct Hok as (_ & Hext & Hlen & Hidx & Htiles & _).
  destruct (lookup_lt_is_Some_2 (indices params) i) as [gi Hgi]; [lia|].
  destruct (lookup_lt_is_Some_2 (tiles params) i) as [nt Hnt]; [lia|].
  rewrite Forall_lookup in Hidx. specialize (Hidx _ _ Hgi).
  rewrite Forall_lookup in Htiles. specialize (Htiles _ _ Hnt).
  destruct (lookup_lt_is_Some_2 (previous_tiles params) (Z.to_nat gi))
    as [pt Hpt]; [lia|].
  exists gi, pt, nt.
  unfold input_tile, output_tile, gather_idx. rewrite Hgi, Hnt. simpl.
  rewrite Hpt. simpl. repeat split; try done; lia.
Qed.

Lemma moved_before_S i :
  moved_before params (S i)
  = (moved_before params i + if decide (moved params i) then 1 else 0)%nat.
Proof.
  unfold moved_before. rewrite seq_S, filter_app, length_app. simpl.
  rewrite filter_cons, filter_nil. by destruct (decide (moved params i)).
Qed.

Lemma moved_before_mono i j :
  (i <= j)%nat -> (moved_before params i <= moved_before params j)%nat.
Proof.
  induction 1 as [|j _ IH]; [done|]. rewrite moved_before_S. lia.
Qed.

Lemma length_slot_variables i :
  length (omap (slot_variable input params) (seq 0 i))
  = moved_before params i.
Proof.
  induction i as [|i IH]; [done|].
  rewrite seq_S, omap_app, length_app, IH, moved_before_S. simpl.
  unfold slot_variable. by destruct (decide (moved params i)).
Qed.

Lemma gather_copies_S i :
  gather_copies g input params (S i)
  = gather_copies g input params i
    ++ (if decide (moved params i)
        then [Copy (slot_source input params i) (slot_dest g input params i)]
        else []).
Proof.
  unfold gather_copies. rewrite seq_S, omap_app. simpl.
  unfold slot_copy. by destruct (decide (moved params i)).
Qed.

Lemma gather_items_S i :
  gather_items g input params (S i)
  = gather_items g input params i ++ [slot_item g input params i].
Proof. unfold gather_items. by rewrite seq_S, fmap_app. Qed.

Lemma gather_graph_S_same i :
  ~ moved params i ->
  gather_graph g input params (S i) = gather_graph g input params i.
Proof.
  intros Hm. unfold gather_graph.
  rewrite seq_S, omap_app, foldl_app. simpl.
  unfold slot_variable, slot_mapping.
  destruct (decide (moved params i)); [done|]. by rewrite app_nil_r.
Qed.

Lemma gather_graph_S_moved i :
  moved params i ->
  gather_graph g input params (S i)
  = {| numTiles := numTiles g;
       variables := variables (gather_graph g input params i)
                    ++ [(elementType input, item_shape input)];
       tileMapping :=
         map_elems (elems (slot_dest g input params i))
                   (Z.to_nat (output_tile params i))
                   (tileMapping (gather_graph g input params i));
       computeSets := computeSets g;
       vertices := vertices g |}.
Proof.
  intros Hm. unfold gather_graph.
  rewrite seq_S, omap_app, foldl_app. simpl.
  unfold slot_variable at 2. unfold slot_mapping at 1.
  destruct (decide (moved params i)); [|done]. by rewrite app_assoc.
Qed.

Lemma gather_graph_variables i :
  length (variables (gather_graph g input params i))
  = (length (variables g) + moved_before params i)%nat.
Proof. simpl. by rewrite length_app, length_slot_variables. Qed.

Lemma gather_graph_0 : gather_graph g input params 0 = g.
Proof. unfold gather_graph. simpl. rewrite app_nil_r. by destruct g. Qed.

(** One iteration of the loop. *)
Lemma slot_step i :
  (i < length (tiles params))%nat ->
  slot input (elementType input) (item_shape input) params i
    (gather_copies g input params i,
     expand0 <$> gather_items g input params i)
    (gather_graph g input params i)
  = (gather_graph g input params (S i),
     Ok (gather_copies g input params (S i),
         expand0 <$> gather_items g input params (S i))).
Proof.
  intros Hi.
  destruct (slot_lookups i Hi)
    as (gi & pt & nt & Hgi & Hpt & Hnt & Hpos & Hext & Hrange & Hvalid
        & Hidx & Hin & Hout).
  unfold slot.
  rewrite (bind_lift_ok _ _ _ gi) by (unfold vec_get; by rewrite Hgi).
  rewrite (bind_lift_ok _ _ _ (sub_tensor input (Z.to_nat gi)))
    by (by apply index_Z_in_range).
  rewrite (bind_lift_ok _ _ _ pt).
  2:{ unfold vec_get_Z, vec_get. destruct (Z.ltb_spec gi 0); [lia|].
      by rewrite Hpt. }
  rewrite (bind_lift_ok _ _ _ nt) by (unfold vec_get; by rewrite Hnt).
  rewrite gather_copies_S, gather_items_S, fmap_app.
  unfold slot_item, slot_source. rewrite Hidx.
  destruct (decide (moved params i)) as [Hm|Hm].
  - rewrite (gather_graph_S_moved i Hm), Hout.
    pose proof Hm as Hm'. unfold moved in Hm'. rewrite Hin, Hout in Hm'.
    destruct (decide (pt = nt)) as [?|_]; [done|].
    erewrite bind_run; [|reflexivity].
    rewrite gather_graph_variables. fold (slot_dest g input params i).
    erewrite bind_run; [|apply setTileMapping_valid; simpl; lia].
    reflexivity.
  - rewrite (gather_graph_S_same i Hm).
    unfold moved in Hm. rewrite Hin, Hout in Hm.
    destruct (decide (pt = nt)) as [_|Hne]; [|by destruct Hm].
    simpl. by rewrite app_nil_r.
Qed.

(** The whole primitive. *)
Lemma gather_program_run outputs :
  tiles params <> [] ->
  program [input] outputs params g
  = (gather_graph g input params (length (tiles params)),
     Ok (Sequence (gather_copies g input params (length (tiles params))),
         outputs ++ [gather_output g input params])).
Proof.
  intros Hne. unfold program.
  destruct (decide (length [input] <> 1%nat)) as [?|_]; [done|].
  rewrite (bind_lift_ok _ _ _ input) by done.
  assert (0 < length (tiles params))%nat as Hpos
    by (destruct (tiles params); [done|simpl; lia]).
  destruct (slot_lookups 0 Hpos) as (gi & _ & _ & _ & _ & _ & _ & Hext & _).
  rewrite (bind_lift_ok _ _ _ (sub_tensor input 0))
    by (apply index_in_range; lia).
  change (shape (sub_tensor input 0)) with (item_shape input).
  assert (for_range (slot input (elementType input) (item_shape input) params)
            (length (tiles params)) ([], []) g
          = (gather_graph g input params (length (tiles params)),
             Ok (gather_copies g input params (length (tiles params)),
                 expand0 <$> gather_items g input params
                               (length (tiles params))))) as Hloop.
  { pose proof (for_range_run
                  (slot input (elementType input) (item_shape input) params)
                  (length (tiles params))
                  (gather_graph g input params)
                  (fun i => (gather_copies g input params i,
                             expand0 <$> gather_items g input params i))
                  slot_step) as H.
    rewrite gather_graph_0 in H. exact H. }
  rewrite (bind_run _ _ _ _ _ Hloop). simpl.
  rewrite (bind_lift_ok _ _ _ (gather_output g input params)); [done|].
  unfold gather_output.
  replace (length (tiles params))
    with (length (gather_items g input params (length (tiles params))))
    at 2 by (unfold gather_items; by rewrite length_fmap, length_seq).
  apply concat_slices.
  - unfold gather_items. destruct (length (tiles params)); [lia|done].
  - apply Forall_fmap, Forall_forall. intros i _. simpl.
    unfold slot_item. by destruct (decide (moved params i)).
Qed.

(** *** The slices of the output *)

Lemma gather_idx_in_range i :
  (i < length (tiles params))%nat -> (gather_idx params i < extent input)%nat.
Proof.
  intros Hi.
  destruct (slot_lookups i Hi) as (gi & _ & _ & _ & _ & _ & _ & H & _ & _ & E & _).
  by rewrite E.
Qed.

Lemma slot_item_ok i :
  (i < length (tiles params))%nat -> tensor_ok (slot_item g input params i).
Proof.
  intros Hi. unfold slot_item. destruct (decide (moved params i)).
  - apply var_tensor_ok.
  - apply sub_tensor_ok; [by destruct Hok|by apply gather_idx_in_range].
Qed.

Lemma index_gather_output i :
  (i < length (tiles params))%nat ->
  index (gather_output g input params) i = Ok (slot_item g input params i).
Proof.
  intros Hi. unfold gather_output.
  replace (length (tiles params))
    with (length (gather_items g input params (length (tiles params))))
    at 1 by (unfold gather_items; by rewrite length_fmap, length_seq).
  apply index_concat_slices.
  - apply Forall_fmap, Forall_forall. intros j _. simpl.
    unfold slot_item. by destruct (decide (moved params j)).
  - apply Forall_fmap, Forall_forall. intros j Hj%elem_of_seq. simpl.
    apply slot_item_ok. lia.
  - unfold gather_items. by rewrite list_lookup_fmap, lookup_seq_lt.
Qed.

(** *** The variables and their tiles *)

Lemma moved_before_lt i n :
  (i < n)%nat -> moved params i ->
  (moved_before params i < moved_before params n)%nat.
Proof.
  intros Hi Hm.
  pose proof (moved_before_mono (S i) n Hi) as H.
  rewrite moved_before_S in H. destruct (decide (moved params i)); [lia|done].
Qed.

Lemma slot_dest_disjoint i n e :
  (i < n)%nat -> moved params i ->
  e ∈ elems (slot_dest g input params i) ->
  e ∉ elems (slot_dest g input params n).
Proof.
  intros Hi Hm He He'.
  apply var_tensor_elems_var in He, He'.
  pose proof (moved_before_lt i n Hi Hm). lia.
Qed.

Lemma slot_dest_fresh i e :
  e ∈ elems (slot_dest g input params i) ->
  (length (variables g) <= e.1)%nat.
Proof. intros He%var_tensor_elems_var. lia. Qed.

Lemma slot_dest_variable i n :
  (i < n)%nat -> moved params i ->
  variables (gather_graph g input params n)
    !! (length (variables g) + moved_before params i)%nat
  = Some (elementType input, item_shape input).
Proof.
  intros Hi Hm. simpl. rewrite lookup_app_r by lia.
  replace (length (variables g) + moved_before params i - length (variables g))%nat
    with (moved_before params i) by lia.
  destruct (lookup_lt_is_Some_2
              (omap (slot_variable input params) (seq 0 n))
              (moved_before params i)) as [x Hx].
  { rewrite length_slot_variables. by apply moved_before_lt. }
  rewrite Hx. f_equal.
  apply list_elem_of_lookup_2, list_elem_of_omap in Hx as (j & _ & Hj).
  unfold slot_variable in Hj.
  destruct (decide (moved params j)); by inversion Hj.
Qed.

Lemma slot_dest_mapped i n e :
  (i < n)%nat -> moved params i ->
  e ∈ elems (slot_dest g input params i) ->
  tileMapping (gather_graph g input params n) !! e
  = Some (Z.to_nat (output_tile params i)).
Proof.
  intros Hi Hm He. simpl. induction n as [|n IH]; [lia|].
  rewrite seq_S, foldl_app. simpl. unfold slot_mapping at 1.
  destruct (decide (i = n)) as [->|Hne].
  - destruct (decide (moved params n)); [|done].
    by apply map_elems_lookup.
  - destruct (decide (moved params n)).
    + rewrite map_elems_lookup_other; [apply IH; lia|].
      apply (slot_dest_disjoint i n); [lia|done..].
    + apply IH. lia.
Qed.

(** *** The copies *)

Lemma exec_copies s n :
  (n <= length (tiles params))%nat ->
  exists s',
    exec (Sequence (gather_copies g input params n)) s = Some s' /\
    (forall e : ElemRef, (e.1 < length (variables g))%nat -> s' e = s e) /\
    (forall j, (j < n)%nat -> moved params j ->
       read s' (slot_dest g input params j)
       = read s (slot_source input params j)).
Proof.
  destruct Hok as (Hten & _ & _ & _ & _ & Hold).
  induction n as [|n IH]; intros Hn.
  - exists s. split; [done|]. split; [done|]. intros j Hj. lia.
  - destruct IH as (s1 & Hexec & Hs1 & Hcopied); [lia|].
    rewrite gather_copies_S.
    destruct (decide (moved params n)) as [Hm|Hm].
    2:{ exists s1. rewrite app_nil_r. split; [by rewrite Hexec|].
        split; [done|].
        intros j Hj Hmj. apply Hcopied; [|done].
        destruct (decide (j = n)) as [->|]; [done|lia]. }
    rewrite exec_Sequence_app, Hexec. simpl.
    eexists. split; [reflexivity|]. split.
    + intros e He. rewrite write_other; [by apply Hs1|].
      intros Hin%slot_dest_fresh. lia.
    + intros j Hj Hmj. destruct (decide (j = n)) as [->|Hne].
      * unfold read at 1. rewrite read_write.
        -- apply read_ext. intros e He. apply Hs1.
           apply sub_tensor_elems_subseteq in He.
           rewrite Forall_forall in Hold. by apply Hold.
        -- apply var_tensor_NoDup.
        -- unfold read. rewrite length_fmap.
           unfold slot_source. rewrite sub_tensor_length;
             [|done|apply gather_idx_in_range; lia].
           unfold slot_dest, var_tensor. simpl.
           by rewrite length_fmap, length_seq.
      * rewrite <- Hcopied by (done || lia).
        apply read_ext. intros e He. apply write_other.
        apply (slot_dest_disjoint j n); [lia|done..].
Qed.

End Run.

(** *** The claims on the gather *)

(** C1 — copy elision: for a descriptor that fits its input and every
    destination slot [i], the copies of the program and the variables
    allocated are those of the slots that change tile, one each and in
    order; when [previous_tiles[indices[i]] = tiles[i]] output slot [i] is
    the source slice [input[indices[i]]] itself, with no copy and no variable
    for it; otherwise output slot [i] is a variable that the graph did not
    have, mapped to tile [tiles[i]], and the copy of the slot goes from the
    source slice to it. *)
Theorem gather_copy_elision g input outputs params i gi pt nt :
  gather_ok g input params ->
  indices params !! i = Some gi ->
  previous_tiles params !! Z.to_nat gi = Some pt ->
  tiles params !! i = Some nt ->
  exists g' copies output,
    program [input] outputs params g
    = (g', Ok (Sequence copies, outputs ++ [output])) /\
    copies
    = omap (slot_copy g input params) (seq 0 (length (tiles params))) /\
    variables g'
    = variables g
      ++ omap (slot_variable input params) (seq 0 (length (tiles params))) /\
    let src := sub_tensor input (Z.to_nat gi) in
    index_Z input gi = Ok src /\
    if decide (pt = nt) then
      index output i = Ok src /\
      slot_copy g input params i = None /\
      slot_variable input params i = None
    else
      let dst := slot_dest g input params i in
      index output i = Ok dst /\
      slot_copy g input params i = Some (Copy src dst) /\
      slot_variable input params i
      = Some (elementType input, item_shape input) /\
      (exists v,
         dst = var_tensor v (elementType input) (item_shape input) /\
         (length (variables g) <= v)%nat /\
         variables g' !! v = Some (elementType input, item_shape input)) /\
      Forall (fun e => tileMapping g' !! e = Some (Z.to_nat nt)) (elems dst).
Proof.
  intros Hok Hgi Hpt Hnt.
  assert (i < length (tiles params))%nat as Hi by (by eapply lookup_lt_Some).
  assert (tiles params <> []) as Hne by (intros E; by rewrite E in Hnt).
  destruct (slot_lookups g input params Hok i Hi)
    as (gi' & pt' & nt' & Hgi' & Hpt' & Hnt' & Hpos & Hext & _ & _
        & Hidx & Hin & Hout).
  rewrite Hgi in Hgi'. injection Hgi' as <-.
  rewrite Hpt in Hpt'. injection Hpt' as <-.
  rewrite Hnt in Hnt'. injection Hnt' as <-.
  eexists _, _, _. split; [by apply gather_program_run|].
  split; [done|]. split; [done|]. cbv zeta.
  split; [by apply index_Z_in_range|].
  rewrite (index_gather_output g input params Hok i Hi).
  unfold slot_item, slot_copy, slot_variable, slot_source. rewrite Hidx.
  destruct (decide (pt = nt)) as [Heq|Hneq];
    destruct (decide (moved params i)) as [Hm|Hm];
    unfold moved in Hm; rewrite ?Hin, ?Hout in Hm; try done.
  split; [done|]. split; [done|]. split; [done|]. split.
  - exists (length (variables g) + moved_before params i)%nat.
    split; [done|]. split; [lia|].
    apply (slot_dest_variable g input params i); [done|].
    unfold moved. by rewrite Hin, Hout.
  - apply Forall_forall. intros e He. rewrite <- Hout.
    apply (slot_dest_mapped g input params i); [done| |done].
    unfold moved. by rewrite Hin, Hout.
Qed.

Lemma gather_copy_elision_witness :
  gather_ok gather_ex_graph gather_ex_input gather_ex_params /\
  exists g' copies output,
    program [gather_ex_input] [] gather_ex_params gather_ex_graph
    = (g', Ok (Sequence copies, [output])) /\
    index output 1 = Ok (slot_dest gather_ex_graph gather_ex_input gather_ex_params 1) /\
    Forall (fun e => tileMapping g' !! e = Some 3%nat)
           (elems (slot_dest gather_ex_graph gather_ex_input gather_ex_params 1)).
Proof.
  assert (gather_ok gather_ex_graph gather_ex_input gather_ex_params) as Hok by compute_done.
  split; [exact Hok|].
  destruct (gather_copy_elision gather_ex_graph gather_ex_input [] gather_ex_params 1 0 0 3
              Hok eq_refl eq_refl eq_refl)
    as (g' & copies & output & Hrun & _ & _ & _ & Hslot).
  exists g', copies, output. split; [exact Hrun|].
  destruct Hslot as (Hout & _ & _ & _ & Hmap). by split.
Defined.

(** C3 — the values: for a descriptor that fits its input and every slot
    [i], the primitive returns, its program runs on every store, and after
    it output slot [i] holds the values that [input[indices[i]]] held,
    whether the slot is the source slice or a copy of it; the output is the
    concatenation, in order and along the leading axis, of the slices of the
    slots. *)
Theorem gather_values g input outputs params s i gi :
  gather_ok g input params ->
  indices params !! i = Some gi ->
  exists g' prog output s' src out_i,
    program [input] outputs params g
    = (g', Ok (prog, outputs ++ [output])) /\
    exec prog s = Some s' /\
    concat (expand0 <$> gather_items g input params (length (tiles params)))
    = Ok output /\
    extent output = length (tiles params) /\
    gather_items g input params (length (tiles params)) !! i = Some out_i /\
    index output i = Ok out_i /\
    index_Z input gi = Ok src /\
    read s' out_i = read s src.
Proof.
  intros Hok Hgi.
  assert (i < length (tiles params))%nat as Hi.
  { destruct Hok as (_ & _ & <- & _). by eapply lookup_lt_Some. }
  assert (tiles params <> []) as Hne
    by (intros E; rewrite E in Hi; simpl in Hi; lia).
  destruct (slot_lookups g input params Hok i Hi)
    as (gi' & pt & nt & Hgi' & _ & _ & Hpos & Hext & _ & _ & Hidx & _).
  rewrite Hgi in Hgi'. injection Hgi' as <-.
  destruct (exec_copies g input params Hok s (length (tiles params)))
    as (s' & Hexec & Hold & Hcopied); [done|].
  exists (gather_graph g input params (length (tiles params))),
    (Sequence (gather_copies g input params (length (tiles params)))),
    (gather_output g input params), s',
    (sub_tensor input (Z.to_nat gi)), (slot_item g input params i).
  split; [by apply gather_program_run|]. split; [done|].
  split.
  { unfold gather_output.
    replace (length (tiles params))
      with (length (gather_items g input params (length (tiles params))))
      at 2 by (unfold gather_items; by rewrite length_fmap, length_seq).
    apply concat_slices.
    - unfold gather_items. destruct (length (tiles params)); [lia|done].
    - apply Forall_fmap, Forall_forall. intros j _. simpl.
      unfold slot_item. by destruct (decide (moved params j)). }
  split; [done|].
  split; [unfold gather_items; by rewrite list_lookup_fmap, lookup_seq_lt|].
  split; [by apply index_gather_output|].
  split; [by apply index_Z_in_range|].
  unfold slot_item. destruct (decide (moved params i)) as [Hm|Hm].
  - rewrite Hcopied by done. unfold slot_source. by rewrite Hidx.
  - unfold slot_source. rewrite Hidx. apply read_ext. intros e He.
    apply Hold. apply sub_tensor_elems_subseteq in He.
    destruct Hok as (_ & _ & _ & _ & _ & Hstore).
    rewrite Forall_forall in Hstore. by apply Hstore.
Qed.

Lemma gather_values_witness :
  gather_ok gather_ex_graph gather_ex_input gather_ex_params /\
  exists g' prog output s' src out_i,
    program [gather_ex_input] [] gather_ex_params gather_ex_graph = (g', Ok (prog, [output])) /\
    exec prog (fun e => Z.of_nat e.2) = Some s' /\
    index output 1 = Ok out_i /\
    index_Z gather_ex_input 0 = Ok src /\
    read s' out_i = read (fun e => Z.of_nat e.2) src.
Proof.
  assert (gather_ok gather_ex_graph gather_ex_input gather_ex_params) as Hok by compute_done.
  split; [exact Hok|].
  destruct (gather_values gather_ex_graph gather_ex_input [] gather_ex_params
              (fun e => Z.of_nat e.2) 1 0 Hok eq_refl)
    as (g' & prog & output & s' & src & out_i & Hrun & Hexec & _ & _ & _
        & Hout & Hsrc & Hval).
  by exists g', prog, output, s', src, out_i.
Defined.

(** *** The index count *)

Lemma slot_surplus input ty sh params i st g :
  (i < length (tiles params))%nat ->
  slot input ty sh params i st g
  = slot input ty sh (without_surplus params) i st g.
Proof.
  intros Hi. unfold slot, without_surplus. simpl.
  assert (vec_get (take (length (tiles params)) (indices params)) i
          = vec_get (indices params) i) as ->; [|done].
  unfold vec_get. by rewrite lookup_take_lt.
Qed.

Lemma slot_never_validates input ty sh params i st g :
  triple (slot input ty sh params i st) g
    (fun _ _ => True) (fun _ e => not_validation e).
Proof.
  unfold slot.
  apply triple_bind_lift.
  destruct (vec_get (indices params) i) as [gi|e] eqn:E1;
    [|apply vec_get_fail in E1 as ->; by intros msg].
  apply triple_bind_lift.
  destruct (index_Z input gi) as [item|e] eqn:E2;
    [|apply index_Z_fail in E2 as [m ->]; by intros msg].
  apply triple_bind_lift.
  destruct (vec_get_Z (previous_tiles params) gi) as [pt|e] eqn:E3;
    [|apply vec_get_Z_fail in E3 as ->; by intros msg].
  apply triple_bind_lift.
  destruct (vec_get (tiles params) i) as [nt|e] eqn:E4;
    [|apply vec_get_fail in E4 as ->; by intros msg].
  destruct (decide (pt = nt)); [done|].
  eapply triple_bind_run; [reflexivity|]. cbv beta iota.
  unfold triple, mbind, M_bind, bind.
  destruct (setTileMapping _ _ _) as [g' [[]|e]] eqn:E5; [done|].
  apply setTileMapping_fail in E5 as ->. by intros msg.
Qed.

(** C8, as the code has it — the gather does not compare the number of
    indices with the number of new tiles: it reads the first
    [len(new_tiles)] indices only, so that a descriptor with more indices is
    accepted and builds what the descriptor without the surplus indices
    builds; and given its one input, no descriptor makes it throw its
    validation error. *)
Theorem gather_surplus_indices_ignored inputs outputs params g :
  program inputs outputs params g
  = program inputs outputs (without_surplus params) g /\
  (length inputs = 1%nat ->
   forall e, (program inputs outputs params g).2 = Fail e ->
             not_validation e).
Proof.
  split.
  - unfold program.
    destruct (decide (length inputs <> 1%nat)); [done|].
    unfold mbind, M_bind, bind, lift.
    destruct (vec_get inputs 0) as [input|e]; [|done].
    destruct (index input 0) as [item|e]; [|done].
    change (tiles (without_surplus params)) with (tiles params).
    rewrite (for_range_ext _
               (slot input (elementType input) (shape item)
                  (without_surplus params))); [done|].
    intros i Hi st g'. by apply slot_surplus.
  - intros Hone e.
    assert (triple (program inputs outputs params) g
              (fun _ _ => True) (fun _ e => not_validation e)) as H.
    { unfold program.
      destruct (decide (length inputs <> 1%nat)); [done|].
      apply triple_bind_lift.
      destruct (vec_get inputs 0) as [input|e'] eqn:E1;
        [|apply vec_get_fail in E1 as ->; by intros msg].
      apply triple_bind_lift.
      destruct (index input 0) as [item|e'] eqn:E2;
        [|apply index_fail in E2 as [m ->]; by intros msg].
      eapply triple_seq.
      - apply (triple_for_range _ _ (fun _ _ _ => True)
                 (fun _ e => not_validation e)); [done|].
        intros i g1 st _ _. apply slot_never_validates.
      - intros g' e' He'. exact He'.
      - intros g1 st _. apply triple_bind_lift.
        destruct (concat st.2) as [output|e'] eqn:E3; [done|].
        apply concat_fail in E3 as [m ->]. by intros msg. }
    unfold triple in H.
    destruct (program inputs outputs params g) as [g' [r|e']]; [done|].
    simpl. by intros [= <-].
Qed.

Lemma gather_surplus_indices_ignored_witness :
  program [gather_ex_input] [] gather_ex_params_surplus gather_ex_graph
  = program [gather_ex_input] [] (without_surplus gather_ex_params_surplus) gather_ex_graph /\
  forall e, (program [gather_ex_input] [] gather_ex_params gather_ex_graph).2 = Fail e ->
            not_validation e.
Proof.
  split.
  - exact (proj1 (gather_surplus_indices_ignored
                    [gather_ex_input] [] gather_ex_params_surplus gather_ex_graph)).
  - exact (proj2 (gather_surplus_indices_ignored
                    [gather_ex_input] [] gather_ex_params gather_ex_graph) eq_refl).
Defined.

(** C8, as the specification has it, fails: three indices for two new
    tiles are accepted. *)
Lemma gather_index_count_counterexample :
  length (indices gather_ex_params_surplus) <> length (tiles gather_ex_params_surplus) /\
  exists g' prog output,
    program [gather_ex_input] [] gather_ex_params_surplus gather_ex_graph
    = (g', Ok (prog, [output])) /\
    extent output = 2%nat.
Proof.
  split; [by compute|].
  eexists _, _, _. split; [vm_compute; reflexivity|reflexivity].
Qed.

End GatherFacts.

(** ** The cross-tile gather: what it leaves alone and what it needs *)

Module GatherFrame.
Import TileGather GatherSpec FrameSpec.

Lemma allocates_only_refl g : allocates_only g g.
Proof. by repeat split. Qed.

Lemma allocates_only_trans g1 g2 g3 :
  allocates_only g1 g2 -> allocates_only g2 g3 -> allocates_only g1 g3.
Proof.
  intros (Hn & Hc & Hv & Hp & Hm) (Hn' & Hc' & Hv' & Hp' & Hm').
  repeat split; try congruence.
  - by etrans.
  - intros e He. rewrite Hm', Hm; [done..|].
    apply prefix_length in Hp. lia.
Qed.

(** A variable that is allocated and mapped at once. *)
Lemma allocates_only_mapped g ty sh tile :
  allocates_only g
    ((addVariable ty sh ≫= fun t => setTileMapping t tile) g).1.
Proof.
  unfold mbind, M_bind, bind, addVariable, setTileMapping. simpl.
  destruct (_ <? _); simpl.
  - repeat split; simpl; [by apply prefix_app_r|].
    intros e He. apply map_elems_lookup_other.
    intros (k & -> & _)%list_elem_of_fmap. simpl in He. lia.
  - repeat split; simpl.
    by apply prefix_app_r.
Qed.

Lemma slot_allocates_only input ty sh params i st g0 g :
  allocates_only g0 g ->
  triple (slot input ty sh params i st) g
    (fun g' _ => allocates_only g0 g') (fun g' _ => allocates_only g0 g').
Proof.
  intros H0. unfold slot.
  apply triple_bind_lift. destruct (vec_get _ _) as [gi|]; [|done].
  apply triple_bind_lift. destruct (index_Z _ _) as [item|]; [|done].
  apply triple_bind_lift. destruct (vec_get_Z _ _) as [pt|]; [|done].
  apply triple_bind_lift. destruct (vec_get _ _) as [nt|]; [|done].
  destruct (decide (pt = nt)); [done|].
  pose proof (allocates_only_mapped g ty sh nt) as H1.
  unfold triple, mbind, M_bind, bind in *. simpl in *.
  destruct (setTileMapping _ _ _) as [g2 [[]|e]]; simpl in *;
    by eapply allocates_only_trans.
Qed.

(** X2 — the gather only allocates: whatever its inputs and its
    descriptor, and whether it returns or fails, it adds no compute set and
    no vertex, keeps every variable the graph had and leaves the tile
    mapping of their storage as it was; all it may add is variables and the
    mapping of their storage. *)
Theorem gather_allocates_only inputs outputs params g :
  allocates_only g (program inputs outputs params g).1.
Proof.
  unfold program.
  destruct (decide (length inputs <> 1%nat)); [apply allocates_only_refl|].
  assert (triple
            (input ← lift (vec_get inputs 0);
             item ← lift (index input 0);
             st ← for_range
                    (slot input (elementType input) (shape item) params)
                    (length (tiles params)) ([], []);
             output ← lift (concat st.2);
             mret (Sequence st.1, outputs ++ [output])) g
            (fun g' _ => allocates_only g g')
            (fun g' _ => allocates_only g g')) as H.
  { apply triple_bind_lift.
    destruct (vec_get inputs 0) as [input|]; [|apply allocates_only_refl].
    apply triple_bind_lift.
    destruct (index input 0) as [item|]; [|apply allocates_only_refl].
    eapply triple_bind.
    - apply (triple_for_range _ _ (fun _ g' _ => allocates_only g g'));
        [apply allocates_only_refl|].
      intros i g1 st _ H1. by apply slot_allocates_only.
    - intros g1 st H1. apply triple_bind_lift.
      by destruct (concat st.2). }
  unfold triple in H.
  match type of H with
  | context [let (_, _) := ?run in _] => by destruct run as [g' [r|e]]
  end.
Qed.

(** X3 — the identity gather: gathering every slot in order to the tile it
    is on returns the input itself (the same type, shape and storage) with
    an empty program, and leaves the graph as it was. *)
Theorem gather_identity g input outputs pt :
  tensor_ok input ->
  pt <> [] ->
  extent input = length pt ->
  program [input] outputs
    {| previous_tiles := pt;
       indices := Z.of_nat <$> seq 0 (length pt);
       tiles := pt |} g
  = (g, Ok (Sequence [], outputs ++ [input])).
Proof.
  intros Hten Hne Hext.
  assert (0 < length pt)%nat as Hpos by (destruct pt; [done|simpl; lia]).
  unfold program.
  destruct (decide (length [input] <> 1%nat)) as [?|_]; [done|].
  rewrite (bind_lift_ok _ _ _ input) by done.
  rewrite (bind_lift_ok _ _ _ (sub_tensor input 0))
    by (apply index_in_range; lia).
  cbn [tiles].
  set (params := {| previous_tiles := pt;
                    indices := Z.of_nat <$> seq 0 (length pt);
                    tiles := pt |}).
  assert (for_range
            (slot input (elementType input) (shape (sub_tensor input 0))
               params)
            (length pt) ([], []) g
          = (g, Ok ([], expand0 <$> (sub_tensor input <$> seq 0 (length pt)))))
    as Hloop.
  { refine (for_range_run
              (slot input (elementType input) (shape (sub_tensor input 0))
                 params)
              (length pt) (fun _ => g)
              (fun i => (@nil Program,
                         expand0 <$> (sub_tensor input <$> seq 0 i))) _).
    intros i Hi. unfold slot.
    destruct (lookup_lt_is_Some_2 pt i Hi) as [tile Htile].
    rewrite (bind_lift_ok _ _ _ (Z.of_nat i)).
    2:{ unfold vec_get. simpl.
        by rewrite list_lookup_fmap, lookup_seq_lt. }
    rewrite (bind_lift_ok _ _ _ (sub_tensor input i)).
    2:{ rewrite index_Z_in_range by lia. by rewrite Nat2Z.id. }
    rewrite (bind_lift_ok _ _ _ tile).
    2:{ unfold vec_get_Z, vec_get. simpl.
        destruct (Z.ltb_spec (Z.of_nat i) 0); [lia|].
        by rewrite Nat2Z.id, Htile. }
    rewrite (bind_lift_ok _ _ _ tile)
      by (unfold vec_get; simpl; by rewrite Htile).
    destruct (decide (tile = tile)) as [_|?]; [|done].
    rewrite seq_S, !fmap_app. done. }
  rewrite (bind_run _ _ _ _ _ Hloop).
  simpl.
  rewrite (bind_lift_ok _ _ _ input); [done|].
  rewrite (concat_slices (elementType input) (tail (shape input))).
  - rewrite length_fmap, length_seq.
    destruct input as [ty sh es]. unfold extent, tensor_ok in *. simpl in *.
    destruct sh as [|d sh]; [simpl in *; lia|]. simpl in *. subst d.
    do 2 f_equal.
    rewrite <- list_fmap_compose.
    apply (concat_slices_of es (length pt) (numElements sh)). done.
  - destruct (length pt); [lia|done].
  - apply Forall_fmap, Forall_forall. by intros i _.
Qed.

Lemma gather_identity_witness :
  program [gather_ex_input] []
    {| previous_tiles := [0; 1; 2];
       indices := Z.of_nat <$> seq 0 3;
       tiles := [0; 1; 2] |} gather_ex_graph
  = (gather_ex_graph, Ok (Sequence [], [gather_ex_input])).
Proof.
  apply (gather_identity gather_ex_graph gather_ex_input [] [0; 1; 2]).
  - reflexivity.
  - done.
  - reflexivity.
Defined.

(** X4 — what the gather needs to return: it returns only for one input
    with at least one slot and, for every new tile [i], an index
    [indices[i]] that is there, is not negative and is a slot of the input
    and an entry of [previous_tiles]; if the slot changes tile, the new
    tile is a tile of the target. *)
Theorem gather_returns_only_if inputs outputs params g g' r :
  program inputs outputs params g = (g', Ok r) ->
  exists input,
    inputs = [input] /\
    (0 < extent input)%nat /\
    forall i nt,
      tiles params !! i = Some nt ->
      exists gi pt,
        indices params !! i = Some gi /\
        0 <= gi /\
        (Z.to_nat gi < extent input)%nat /\
        previous_tiles params !! Z.to_nat gi = Some pt /\
        (pt <> nt -> nt mod 2 ^ 32 < Z.of_nat (numTiles g)).
Proof.
  unfold program.
  destruct (decide (length inputs <> 1%nat)) as [?|Hlen]; [done|].
  intros (input & Hin%vec_get_ok_inv & H)%bind_lift_ok_inv.
  apply bind_lift_ok_inv in H as (item & [Hext _]%index_ok_inv & H).
  apply bind_ok_inv in H as (g1 & st & Hloop & _).
  exists input. split.
  { destruct inputs as [|x [|y l]]; simpl in *; [done| |lia].
    by injection Hin as ->. }
  split; [done|].
  set (cond := fun i : nat =>
         forall nt, tiles params !! i = Some nt ->
           exists gi pt,
             indices params !! i = Some gi /\ 0 <= gi /\
             (Z.to_nat gi < extent input)%nat /\
             previous_tiles params !! Z.to_nat gi = Some pt /\
             (pt <> nt -> nt mod 2 ^ 32 < Z.of_nat (numTiles g))).
  assert (forall i, (i < length (tiles params))%nat -> cond i) as Hall.
  { eapply (triple_ok _ _ _ _
              (fun g' _ => numTiles g' = numTiles g /\
                           forall i, (i < length (tiles params))%nat -> cond i)
              (fun _ _ => True)); [|exact Hloop].
    eapply triple_conseq.
    - apply (triple_for_range _ _
               (fun n g' _ => numTiles g' = numTiles g /\
                              forall i, (i < n)%nat -> cond i)
               (fun _ _ => True)).
      + split; [done|]. intros i Hi. lia.
      + intros i g2 st2 Hi [Hnum Hprev]. unfold slot.
        apply triple_bind_lift.
        destruct (vec_get (indices params) i) as [gi|] eqn:E1; [|done].
        apply triple_bind_lift.
        destruct (index_Z input gi) as [it|] eqn:E2; [|done].
        apply triple_bind_lift.
        destruct (vec_get_Z (previous_tiles params) gi) as [pt|] eqn:E3;
          [|done].
        apply triple_bind_lift.
        destruct (vec_get (tiles params) i) as [nt|] eqn:E4; [|done].
        apply vec_get_ok_inv in E1, E4.
        apply index_Z_ok_inv in E2 as (Hpos & Hlt & _).
        apply vec_get_Z_ok_inv in E3 as [_ E3].
        assert (forall g3, numTiles g3 = numTiles g ->
                  (pt <> nt -> nt mod 2 ^ 32 < Z.of_nat (numTiles g)) ->
                  numTiles g3 = numTiles g /\
                  forall j, (j < S i)%nat -> cond j) as Hstep.
        { intros g3 Hg3 Hnt. split; [done|]. intros j Hj.
          destruct (decide (j = i)) as [->|]; [|apply Hprev; lia].
          intros nt' Hnt'. rewrite E4 in Hnt'. injection Hnt' as <-.
          by exists gi, pt. }
        destruct (decide (pt = nt)) as [->|Hne]; [by apply Hstep|].
        eapply triple_bind_run; [reflexivity|]. cbv beta iota.
        unfold triple, mbind, M_bind, bind.
        destruct (setTileMapping _ _ _) as [g3 [[]|e]] eqn:E5; [|done].
        apply setTileMapping_ok_inv in E5 as [Hvalid Hg3]. simpl in *.
        apply Hstep; [congruence|]. intros _. by rewrite <- Hnum.
    - done.
    - done. }
  intros i nt Hnt. apply Hall; [by eapply lookup_lt_Some|done].
Qed.

Lemma gather_returns_only_if_witness :
  exists input,
    [gather_ex_input] = [input] /\
    (0 < extent input)%nat /\
    forall i nt,
      tiles gather_ex_params !! i = Some nt ->
      exists gi pt,
        indices gather_ex_params !! i = Some gi /\
        0 <= gi /\
        (Z.to_nat gi < extent input)%nat /\
        previous_tiles gather_ex_params !! Z.to_nat gi = Some pt /\
        (pt <> nt -> nt mod 2 ^ 32 < Z.of_nat (numTiles gather_ex_graph)).
Proof.
  eapply (gather_returns_only_if [gather_ex_input] [] gather_ex_params
            gather_ex_graph).
  vm_compute. reflexivity.
Defined.

End GatherFrame.

(** ** The tile-mapped equation *)

Module EquationFacts.
Import TileMapEquation ShardedSpec EquationSpec.

Lemma triple_any {A} (m : M A) g :
  triple m g (fun _ _ => True) (fun _ _ => True).
Proof. unfold triple. by destruct (m g) as [? [?|?]]. Qed.

Section OutputAllocation.

Context {IpuType : Type} (toPoplar : IpuType -> outcome Type_).
Implicit Types (eqn : Equation IpuType) (info : VertexIOInfo IpuType).
Implicit Types (inputs outputs : list Tensor) (t : Tensor).

(** *** The linear search *)

Lemma find_if_distance_found pred (infos : list (VertexIOInfo IpuType)) :
  (find_if_distance pred infos < length infos)%nat ->
  exists x, infos !! find_if_distance pred infos = Some x /\ pred x = true.
Proof.
  induction infos as [|x infos IH]; simpl; [lia|].
  destruct (pred x) eqn:Hx; intros Hlt.
  - by exists x.
  - apply IH. lia.
Qed.

Lemma find_if_distance_first pred (infos : list (VertexIOInfo IpuType)) j x :
  (j < find_if_distance pred infos)%nat -> infos !! j = Some x ->
  pred x = false.
Proof.
  revert j. induction infos as [|y infos IH]; intros j; simpl; [lia|].
  destruct (pred y) eqn:Hy; [lia|]. intros Hj.
  destruct j as [|j]; simpl.
  - by intros [= <-].
  - apply IH. lia.
Qed.

Lemma find_if_distance_Exists pred (infos : list (VertexIOInfo IpuType)) :
  Exists (fun x => pred x = true) infos ->
  (find_if_distance pred infos < length infos)%nat.
Proof.
  induction 1 as [x infos Hx|x infos _ IH]; simpl.
  - rewrite Hx. lia.
  - destruct (pred x); lia.
Qed.

(** The search resolves an [InOut] output to the first input of its name,
    or runs to the end of the inputs. *)
Lemma search_resolved eqn inputs info t :
  length inputs = length (inputs_info eqn) ->
  vec_at inputs
    (find_if_distance (fun ininfo => bool_decide (name ininfo = name info))
       (inputs_info eqn)) = Ok t ->
  resolved eqn inputs info t.
Proof.
  intros Hlen Hat. unfold vec_at in Hat.
  set (pred := fun ininfo : VertexIOInfo IpuType =>
                 bool_decide (name ininfo = name info)) in *.
  destruct (inputs !! find_if_distance pred (inputs_info eqn))
    as [t'|] eqn:Ht; [|done].
  injection Hat as ->.
  destruct (find_if_distance_found pred (inputs_info eqn))
    as (ininfo & Hin & Hpred).
  { rewrite <- Hlen. by eapply lookup_lt_Some. }
  exists (find_if_distance pred (inputs_info eqn)), ininfo.
  split; [done|]. split; [by apply bool_decide_eq_true in Hpred|].
  split; [|done].
  intros j' ininfo' Hj' Hin' Hm.
  pose proof (find_if_distance_first pred _ _ _ Hj' Hin') as Hf.
  by apply bool_decide_eq_false in Hf.
Qed.

Lemma search_matches eqn inputs info :
  length inputs = length (inputs_info eqn) ->
  Exists (matches info) (inputs_info eqn) ->
  exists t,
    vec_at inputs
      (find_if_distance (fun ininfo => bool_decide (name ininfo = name info))
         (inputs_info eqn)) = Ok t.
Proof.
  intros Hlen Hex. unfold vec_at.
  destruct (lookup_lt_is_Some_2 inputs
    (find_if_distance (fun ininfo => bool_decide (name ininfo = name info))
       (inputs_info eqn))) as [t Ht].
  - rewrite Hlen. apply find_if_distance_Exists.
    eapply Exists_impl; [exact Hex|].
    intros ininfo Hm. by apply bool_decide_eq_true.
  - exists t. by rewrite Ht.
Qed.

(** *** [allocateOutputTensors] *)

(** When the allocation returns, every [InOut] output is resolved. *)
Lemma allocation_resolves eqn inputs g g' outputs :
  allocateOutputTensors toPoplar eqn inputs g = (g', Ok outputs) ->
  length inputs = length (inputs_info eqn) /\
  length outputs = length (outputs_info eqn) /\
  forall k outinfo,
    outputs_info eqn !! k = Some outinfo -> iotype outinfo = InOut ->
    exists t, outputs !! k = Some t /\ resolved eqn inputs outinfo t.
Proof.
  unfold allocateOutputTensors.
  destruct (decide (length inputs <> length (inputs_info eqn)))
    as [?|Hlen%dec_stable]; [done|].
  intros Hrun. split; [done|].
  pose proof (triple_for_each (allocate_output toPoplar eqn inputs)
    (outputs_info eqn)
    (fun pre _ outs =>
       length outs = length pre /\
       forall k outinfo, pre !! k = Some outinfo -> iotype outinfo = InOut ->
         exists t, outs !! k = Some t /\ resolved eqn inputs outinfo t)
    (fun _ _ => True) g []) as H.
  unfold triple at 2 in H. rewrite Hrun in H. apply H; clear H Hrun.
  - split; [done|]. intros k outinfo Hk. by rewrite lookup_nil in Hk.
  - intros pre outinfo post g1 outs _ [Houts Hres].
    unfold allocate_output.
    assert (forall t,
      length (outs ++ [t]) = length (pre ++ [outinfo])) as Hlen'
      by (intros t; rewrite !length_app; simpl; lia).
    assert (forall t k oi,
      (k < length pre)%nat -> (pre ++ [outinfo]) !! k = Some oi ->
      iotype oi = InOut ->
      exists t', (outs ++ [t]) !! k = Some t' /\ resolved eqn inputs oi t')
      as Hold.
    { intros t k oi Hk Hoi Hio. rewrite lookup_app_l in Hoi by done.
      rewrite lookup_app_l by lia. by apply Hres. }
    destruct (iotype outinfo) eqn:Hio; try done.
    + eapply triple_seq; [apply triple_any|done|]. intros g2 ty _.
      eapply triple_seq; [apply triple_any|done|]. intros g3 t _.
      apply triple_ret. split; [done|].
      intros k oi Hoi Hioi.
      destruct (decide (k < length pre)%nat) as [Hk|Hk]; [by eapply Hold|].
      apply lookup_lt_Some in Hoi as Hk'.
      rewrite length_app in Hk'. simpl in Hk'.
      assert (k = length pre) as -> by lia.
      rewrite list_lookup_middle in Hoi by done.
      injection Hoi as <-. congruence.
    + apply triple_bind_lift.
      destruct (vec_at inputs _) as [t|e] eqn:Hat; [|done].
      apply triple_ret. split; [done|].
      intros k oi Hoi Hioi.
      destruct (decide (k < length pre)%nat) as [Hk|Hk]; [by eapply Hold|].
      apply lookup_lt_Some in Hoi as Hk'.
      rewrite length_app in Hk'. simpl in Hk'.
      assert (k = length pre) as -> by lia.
      rewrite list_lookup_middle in Hoi by done.
      injection Hoi as <-.
      exists t. split; [by rewrite <- Houts, list_lookup_middle|].
      by apply search_resolved.
Qed.

(** The allocation returns on outputs it can serve, and touches the graph
    for the [Out] ones only. *)
Lemma allocation_returns eqn inputs g :
  length inputs = length (inputs_info eqn) ->
  Forall (allocatable toPoplar g eqn) (outputs_info eqn) ->
  exists g' outputs,
    allocateOutputTensors toPoplar eqn inputs g = (g', Ok outputs) /\
    (Forall (fun outinfo => iotype outinfo = InOut) (outputs_info eqn) ->
     g' = g).
Proof.
  intros Hlen Hall. unfold allocateOutputTensors.
  destruct (decide (length inputs <> length (inputs_info eqn))); [done|].
  assert (triple
    (for_each (allocate_output toPoplar eqn inputs) (outputs_info eqn) []) g
    (fun g' _ =>
       numTiles g' = numTiles g /\
       (Forall (fun outinfo => iotype outinfo = InOut) (outputs_info eqn) ->
        g' = g))
    (fun _ _ => False)) as H.
  { apply (triple_for_each (allocate_output toPoplar eqn inputs)
      (outputs_info eqn)
      (fun pre g' _ =>
         numTiles g' = numTiles g /\
         (Forall (fun outinfo => iotype outinfo = InOut) pre -> g' = g))
      (fun _ _ => False)); [done|].
    intros pre outinfo post g1 outs Hl [Hnt Hsame].
    assert (allocatable toPoplar g eqn outinfo) as Hal.
    { rewrite Forall_forall in Hall. apply Hall. rewrite Hl.
      apply elem_of_app. right. left. }
    unfold allocatable in Hal. unfold allocate_output.
    destruct (iotype outinfo) eqn:Hio; try done.
    - destruct Hal as [Hty Htiles].
      destruct (toPoplar (dtype (aval outinfo))) as [ty|] eqn:Hp; [|done].
      apply triple_bind_lift.
      eapply triple_bind_run.
      { apply ShardedFacts.createShardedVariable_run.
        eapply Forall_impl; [exact Htiles|].
        unfold valid_tile. intros tile. by rewrite Hnt. }
      apply triple_ret. split; [done|].
      intros Hpre. apply Forall_app in Hpre as [_ Hx].
      apply Forall_inv in Hx. congruence.
    - destruct (search_matches eqn inputs outinfo Hlen Hal) as [t Ht].
      apply triple_bind_lift. rewrite Ht.
      apply triple_ret. split; [done|].
      intros Hpre. apply Forall_app in Hpre as [Hpre _]. by apply Hsame. }
  unfold triple in H.
  destruct (for_each _ _ _ g) as [g' [outputs|e]]; [|done].
  exists g', outputs. split; [done|]. apply H.
Qed.

(** C9, as the code has it — [InOut] resolution: with as many inputs as
    input descriptors, the allocation returns when every output descriptor
    can be served; when it returns, every [InOut] output is the very input
    (the same handle, so the same storage) of the first input descriptor of
    its name; and it fails when an [InOut] output has no input descriptor of
    its name. *)
Theorem inout_resolution eqn inputs g :
  length inputs = length (inputs_info eqn) ->
  (Forall (allocatable toPoplar g eqn) (outputs_info eqn) ->
   exists g' outputs,
     allocateOutputTensors toPoplar eqn inputs g = (g', Ok outputs)) /\
  (forall g' outputs,
     allocateOutputTensors toPoplar eqn inputs g = (g', Ok outputs) ->
     forall k outinfo,
       outputs_info eqn !! k = Some outinfo -> iotype outinfo = InOut ->
       exists t, outputs !! k = Some t /\ resolved eqn inputs outinfo t) /\
  (forall outinfo,
     outinfo ∈ outputs_info eqn -> iotype outinfo = InOut ->
     ~ Exists (matches outinfo) (inputs_info eqn) ->
     exists g' e, allocateOutputTensors toPoplar eqn inputs g = (g', Fail e)).
Proof.
  intros Hlen. split; [|split].
  - intros Hall.
    destruct (allocation_returns eqn inputs g Hlen Hall)
      as (g' & outputs & Hrun & _).
    by exists g', outputs.
  - intros g' outputs Hrun. by apply (allocation_resolves eqn inputs g g').
  - intros outinfo [k Hk]%list_elem_of_lookup Hio Hnone.
    destruct (allocateOutputTensors toPoplar eqn inputs g)
      as [g' [outputs|e]] eqn:Hrun; [|by exists g', e].
    exfalso. apply Hnone.
    destruct (allocation_resolves eqn inputs g g' outputs Hrun)
      as (_ & _ & Hres).
    destruct (Hres k outinfo Hk Hio) as (t & _ & j & ininfo & Hj & Hm & _).
    apply Exists_exists. exists ininfo. split; [|done].
    by eapply list_elem_of_lookup_2.
Qed.

End OutputAllocation.

Lemma inout_resolution_witness :
  length [equation_ex_input] = length (inputs_info equation_ex_inout) /\
  Forall (allocatable Ok equation_ex_graph equation_ex_inout) (outputs_info equation_ex_inout) /\
  exists g' outputs,
    allocateOutputTensors Ok equation_ex_inout [equation_ex_input] equation_ex_graph = (g', Ok outputs).
Proof.
  split; [reflexivity|].
  assert (Forall (allocatable Ok equation_ex_graph equation_ex_inout) (outputs_info equation_ex_inout))
    as Hall by compute_done.
  split; [exact Hall|].
  exact (proj1 (inout_resolution Ok equation_ex_inout [equation_ex_input] equation_ex_graph eq_refl) Hall).
Defined.

(** C9, as the specification has it, fails: with two input descriptors of
    the name of the [InOut] output the allocation does not fail, it takes
    the first. *)
Lemma inout_duplicate_counterexample :
  length (filter (matches (equation_ex_info "x" InOut 1)) (inputs_info equation_ex_duplicate))
  = 2%nat /\
  allocateOutputTensors Ok equation_ex_duplicate [equation_ex_input; equation_ex_input2] equation_ex_graph
  = (equation_ex_graph, Ok [equation_ex_input]).
Proof. split; reflexivity. Qed.


(** *** [add]: what a failure leaves in the graph *)

Lemma same_but_vertices_refl g : same_but_vertices g g.
Proof. by repeat split. Qed.

Lemma same_but_vertices_trans g1 g2 g3 :
  same_but_vertices g1 g2 -> same_but_vertices g2 g3 ->
  same_but_vertices g1 g3.
Proof.
  intros (? & ? & ? & ? & ?) (? & ? & ? & ? & ?).
  repeat split; congruence.
Qed.

Lemma vertex_only_ret {A} (a : A) : vertex_only (mret a).
Proof. intros g. apply same_but_vertices_refl. Qed.

Lemma vertex_only_lift {A} (o : outcome A) : vertex_only (lift o).
Proof. intros g. apply same_but_vertices_refl. Qed.

Lemma vertex_only_bind {A B} (m : M A) (k : A -> M B) :
  vertex_only m -> (forall a, vertex_only (k a)) -> vertex_only (m ≫= k).
Proof.
  intros Hm Hk g. unfold mbind, M_bind, bind.
  specialize (Hm g). destruct (m g) as [g1 [a|e]]; simpl in *; [|done].
  eapply same_but_vertices_trans; [exact Hm|apply Hk].
Qed.

Lemma vertex_only_update v f : vertex_only (update_vertex v f).
Proof.
  intros g. unfold update_vertex, same_but_vertices. simpl.
  by rewrite length_alter.
Qed.

Lemma vertex_only_setVertexTile v tile : vertex_only (setVertexTile v tile).
Proof.
  intros g. unfold setVertexTile.
  destruct (_ <? _); [apply vertex_only_update|apply same_but_vertices_refl].
Qed.

Lemma vertex_only_for_each {A St} (body : A -> St -> M St) l st :
  (forall x st, vertex_only (body x st)) -> vertex_only (for_each body l st).
Proof.
  intros Hbody. revert st. induction l as [|x l IH]; intros st.
  - apply vertex_only_ret.
  - simpl. apply vertex_only_bind; [apply Hbody|apply IH].
Qed.

Section Vertices.

Context {IpuType : Type}.
Implicit Types (eqn : Equation IpuType).

Lemma vertex_only_connect_input eqn inputs v tidx k u :
  vertex_only (connect_input eqn inputs v tidx k u).
Proof.
  unfold connect_input.
  repeat (apply vertex_only_bind; [apply vertex_only_lift|intros ?]).
  apply vertex_only_update.
Qed.

Lemma vertex_only_connect_output eqn outputs v tidx k u :
  vertex_only (connect_output eqn outputs v tidx k u).
Proof.
  unfold connect_output.
  apply vertex_only_bind; [apply vertex_only_lift|intros info].
  destruct (decide (iotype info = Out)); [|apply vertex_only_ret].
  repeat (apply vertex_only_bind; [apply vertex_only_lift|intros ?]).
  apply vertex_only_update.
Qed.

(** One iteration of the loop over the tiles: a vertex is added, whether
    the iteration returns or fails, and nothing else changes. *)
Lemma add_vertex_grows eqn inputs outputs cs tidx g :
  (tidx < length (tiles eqn))%nat ->
  let g' := (add_vertex eqn inputs outputs cs tidx tt g).1 in
  numTiles g' = numTiles g /\
  variables g' = variables g /\
  tileMapping g' = tileMapping g /\
  computeSets g' = computeSets g /\
  length (vertices g') = S (length (vertices g)).
Proof.
  intros Hi.
  destruct (lookup_lt_is_Some_2 (tiles eqn) tidx Hi) as [tile Htile].
  unfold add_vertex.
  rewrite (bind_lift_ok _ _ _ tile) by (unfold vec_get; by rewrite Htile).
  erewrite bind_run; [|reflexivity].
  match goal with
  | |- context [(?rest ?g1).1] =>
      assert (vertex_only rest) as Hrest; [|specialize (Hrest g1)]
  end.
  { apply vertex_only_bind; [apply vertex_only_setVertexTile|intros _].
    apply vertex_only_bind.
    { destruct (_ <? _); [apply vertex_only_update|apply vertex_only_ret]. }
    intros _.
    apply vertex_only_bind.
    { apply vertex_only_for_each. intros k u.
      apply vertex_only_connect_input. }
    intros _.
    apply vertex_only_bind.
    { apply vertex_only_for_each. intros k u.
      apply vertex_only_connect_output. }
    intros _.
    apply vertex_only_bind.
    { apply vertex_only_for_each. intros attr u. apply vertex_only_update. }
    intros _.
    apply vertex_only_for_each. intros attr u. apply vertex_only_update. }
  destruct Hrest as (H1 & H2 & H3 & H4 & H5). cbv zeta.
  rewrite H1, H2, H3, H4, H5. simpl.
  rewrite length_app. simpl. repeat split. lia.
Qed.

End Vertices.

(** *** The vertex being wired *)

Lemma wiring_update g0 vs cs nm f g :
  (forall x, v_cs (f x) = v_cs x /\ v_name (f x) = v_name x) ->
  wiring g0 vs cs nm g ->
  triple (update_vertex (length (vertices g0 ++ vs)) f) g
    (fun g' _ => wiring g0 vs cs nm g') (fun g' _ => wiring g0 vs cs nm g').
Proof.
  intros Hf (x & (Hn & Hv & Hm & Hc & Hvs) & Hcs & Hnm).
  unfold triple, update_vertex. exists (f x).
  destruct (Hf x) as [-> ->]. split; [|done].
  repeat split; try done. simpl.
  by rewrite Hvs, !app_assoc, alter_last.
Qed.

Lemma wiring_setVertexTile g0 vs cs nm tile g :
  wiring g0 vs cs nm g ->
  triple (setVertexTile (length (vertices g0 ++ vs)) tile) g
    (fun g' _ => wiring g0 vs cs nm g') (fun g' _ => wiring g0 vs cs nm g').
Proof.
  intros Hw. unfold triple, setVertexTile.
  destruct (_ <? _); [|done]. by apply wiring_update.
Qed.

Lemma wiring_for_each {A} g0 vs cs nm (body : A -> unit -> M unit) l g :
  (forall a u g1, wiring g0 vs cs nm g1 ->
     triple (body a u) g1
       (fun g' _ => wiring g0 vs cs nm g')
       (fun g' _ => wiring g0 vs cs nm g')) ->
  wiring g0 vs cs nm g ->
  triple (for_each body l tt) g
    (fun g' _ => wiring g0 vs cs nm g') (fun g' _ => wiring g0 vs cs nm g').
Proof.
  intros Hbody Hw.
  apply (triple_for_each body l (fun _ g' _ => wiring g0 vs cs nm g'));
    [done|].
  intros pre a post g1 u _ Hw1. by apply Hbody.
Qed.

Section Wired.

Context {IpuType : Type}.
Implicit Types (eqn : Equation IpuType).

Lemma wiring_connect_input eqn inputs g0 vs cs nm tidx k u g :
  wiring g0 vs cs nm g ->
  triple (connect_input eqn inputs (length (vertices g0 ++ vs)) tidx k u) g
    (fun g' _ => wiring g0 vs cs nm g') (fun g' _ => wiring g0 vs cs nm g').
Proof.
  intros Hw. unfold connect_input.
  apply triple_bind_lift. destruct (vec_get _ k) as [info|]; [|done].
  apply triple_bind_lift. destruct (vec_get inputs k) as [input|]; [|done].
  apply triple_bind_lift. destruct (index input tidx) as [part|]; [|done].
  apply triple_bind_lift. destruct (connectReshape info part) as [t|]; [|done].
  by apply wiring_update.
Qed.

Lemma wiring_connect_output eqn outputs g0 vs cs nm tidx k u g :
  wiring g0 vs cs nm g ->
  triple (connect_output eqn outputs (length (vertices g0 ++ vs)) tidx k u) g
    (fun g' _ => wiring g0 vs cs nm g') (fun g' _ => wiring g0 vs cs nm g').
Proof.
  intros Hw. unfold connect_output.
  apply triple_bind_lift. destruct (vec_get _ k) as [info|]; [|done].
  destruct (decide (iotype info = Out)); [|done].
  apply triple_bind_lift. destruct (vec_get outputs k) as [output|]; [|done].
  apply triple_bind_lift. destruct (index output tidx) as [part|]; [|done].
  apply triple_bind_lift. destruct (connectReshape info part) as [t|]; [|done].
  by apply wiring_update.
Qed.

(** One turn of the loop over the tiles, whether it returns or fails: its
    vertex is added behind the others and nothing else changes. *)
Lemma add_vertex_wires eqn inputs outputs cs tidx g0 vs g :
  (tidx < length (tiles eqn))%nat ->
  with_added g0 vs g ->
  triple (add_vertex eqn inputs outputs cs tidx tt) g
    (fun g' _ => wiring g0 vs cs (vname eqn) g')
    (fun g' _ => wiring g0 vs cs (vname eqn) g').
Proof.
  intros Hi (Hn & Hv & Hm & Hc & Hvs).
  destruct (lookup_lt_is_Some_2 (tiles eqn) tidx Hi) as [tile Htile].
  unfold add_vertex. apply triple_bind_lift.
  unfold vec_get. rewrite Htile.
  eapply triple_bind_run; [reflexivity|]. cbv beta iota.
  rewrite Hvs.
  match goal with
  | |- triple _ ?g1 _ _ =>
      assert (wiring g0 vs cs (vname eqn) g1) as Hw
  end.
  { exists {| v_cs := cs; v_name := vname eqn; v_tile := None;
               v_perf := None; v_connections := []; v_initial := [] |}.
    split; [|done]. repeat split; try done.
    simpl. by rewrite app_assoc. }
  eapply triple_bind; [by apply wiring_setVertexTile|].
  intros g2 [] Hw2. eapply triple_bind.
  { destruct (0 <? perf_estimate eqn); [by apply wiring_update|done]. }
  intros g3 [] Hw3. eapply triple_bind.
  { apply wiring_for_each; [|done]. intros k u g4.
    apply wiring_connect_input. }
  intros g4 [] Hw4. eapply triple_bind.
  { apply wiring_for_each; [|done]. intros k u g5.
    apply wiring_connect_output. }
  intros g5 [] Hw5. eapply triple_bind.
  { apply wiring_for_each; [|done]. intros attr u g6 Hw6.
    by apply wiring_update. }
  intros g6 [] Hw6.
  apply wiring_for_each; [|done]. intros attr u g7 Hw7.
  by apply wiring_update.
Qed.

(** The loop over the tiles: it returns with a vertex per tile, or fails in
    the turn of a tile with the vertices of the tiles before and the one of
    that tile. *)
Lemma add_vertices_triple eqn inputs outputs cs g0 n :
  (n <= length (tiles eqn))%nat ->
  triple (for_range (add_vertex eqn inputs outputs cs) n tt) g0
    (fun g' _ =>
       exists vs,
         length vs = n /\ with_added g0 vs g' /\
         instances cs (vname eqn) vs /\
         for_range (add_vertex eqn inputs outputs cs) n tt g0 = (g', Ok tt))
    (fun g' e =>
       exists i g2 vs x,
         (i < n)%nat /\ length vs = i /\
         for_range (add_vertex eqn inputs outputs cs) i tt g0 = (g2, Ok tt) /\
         add_vertex eqn inputs outputs cs i tt g2 = (g', Fail e) /\
         with_added g0 (vs ++ [x]) g' /\
         instances cs (vname eqn) (vs ++ [x])).
Proof.
  intros Hn.
  apply (triple_for_range (add_vertex eqn inputs outputs cs) n
    (fun i g' _ =>
       exists vs,
         length vs = i /\ with_added g0 vs g' /\
         instances cs (vname eqn) vs /\
         for_range (add_vertex eqn inputs outputs cs) i tt g0 = (g', Ok tt))).
  - exists []. split; [done|]. split; [|split; [constructor|done]].
    repeat split. by rewrite app_nil_r.
  - intros i g2 [] Hi (vs & Hlen & Hadd & Hinst & Hrun).
    pose proof (add_vertex_wires eqn inputs outputs cs i g0 vs g2
                  ltac:(lia) Hadd) as Hw.
    unfold triple in *.
    destruct (add_vertex eqn inputs outputs cs i () g2) as [g3 [[]|e]] eqn:E;
      destruct Hw as (x & Hadd3 & Hcs & Hnm).
    + exists (vs ++ [x]). split; [rewrite length_app; simpl; lia|].
      split; [done|]. split; [apply Forall_app; by repeat constructor|].
      rewrite for_range_S. by rewrite (bind_run _ _ _ _ _ Hrun).
    + exists i, g2, vs, x. do 5 (split; [done|]).
      apply Forall_app. by repeat constructor.
Qed.

End Wired.

Section Failure.

Context {IpuType : Type} (toPoplar : IpuType -> outcome Type_).

(** C4, as the code has it — a failure is not rolled back: when the
    outputs have been allocated and the equation compiler fails after that,
    the primitive fails with it, returning no program and no outputs, but
    the graph is the one the failure left: the turns of the tiles before
    some tile [i] have returned and the turn of tile [i] has failed; the
    graph keeps the variables of the outputs and their tile mapping, has
    gained the compute set and holds, behind the vertices it had, a vertex
    of that compute set for each of the tiles before [i] and the one being
    connected for tile [i]. *)
Theorem failure_keeps_partial_state (eqn : Equation IpuType)
    inputs outputs g g1 outs g' e :
  allocateOutputTensors toPoplar eqn inputs g = (g1, Ok outs) ->
  add eqn [] inputs outs g1 = (g', Fail e) ->
  program toPoplar inputs outputs eqn g = (g', Fail e) /\
  exists i g2 vs x,
    (i < length (tiles eqn))%nat /\
    length vs = i /\
    for_range (add_vertex eqn inputs outs (computeSets g1)) i tt
      (addComputeSet g1).1 = (g2, Ok tt) /\
    add_vertex eqn inputs outs (computeSets g1) i tt g2 = (g', Fail e) /\
    numTiles g' = numTiles g1 /\
    variables g' = variables g1 /\
    tileMapping g' = tileMapping g1 /\
    computeSets g' = S (computeSets g1) /\
    vertices g' = vertices g1 ++ vs ++ [x] /\
    instances (computeSets g1) (vname eqn) (vs ++ [x]).
Proof.
  intros Halloc Hadd. split.
  { unfold program, add_allocating, mbind, M_bind, bind.
    by rewrite Halloc, Hadd. }
  destruct (allocation_resolves toPoplar eqn inputs g g1 outs Halloc)
    as (Hin & Hout & _).
  unfold add in Hadd.
  destruct (decide (length inputs <> length (inputs_info eqn))); [done|].
  destruct (decide (length outs <> length (outputs_info eqn))); [done|].
  unfold mbind, M_bind, bind in Hadd. simpl in Hadd.
  pose proof (add_vertices_triple eqn inputs outs (computeSets g1)
                (addComputeSet g1).1 (length (tiles eqn)) ltac:(lia)) as H.
  unfold triple in H. simpl in H.
  destruct (for_range _ _ _ _) as [g3 [[]|e3]]; [done|].
  injection Hadd as <- <-.
  destruct H as (i & g2 & vs & x & Hi & Hlen & Hrun & Hfail & Hadded & Hinst).
  destruct Hadded as (Hn & Hv & Hm & Hc & Hvs).
  exists i, g2, vs, x. by repeat split.
Qed.

End Failure.

Lemma failure_keeps_partial_state_witness :
  exists g' e,
    add equation_ex_short [] [equation_ex_short_input] []
      equation_ex_short_graph = (g', Fail e) /\
    program Ok [equation_ex_short_input] [] equation_ex_short
      equation_ex_short_graph = (g', Fail e) /\
    exists i g2 vs x,
      (i < length (tiles equation_ex_short))%nat /\
      length vs = i /\
      for_range (add_vertex equation_ex_short [equation_ex_short_input] []
                   (computeSets equation_ex_short_graph)) i tt
        (addComputeSet equation_ex_short_graph).1 = (g2, Ok tt) /\
      add_vertex equation_ex_short [equation_ex_short_input] []
        (computeSets equation_ex_short_graph) i tt g2 = (g', Fail e) /\
      numTiles g' = numTiles equation_ex_short_graph /\
      variables g' = variables equation_ex_short_graph /\
      tileMapping g' = tileMapping equation_ex_short_graph /\
      computeSets g' = S (computeSets equation_ex_short_graph) /\
      vertices g' = vertices equation_ex_short_graph ++ vs ++ [x] /\
      instances (computeSets equation_ex_short_graph)
        (vname equation_ex_short) (vs ++ [x]).
Proof.
  eexists _, _. split; [vm_compute; reflexivity|].
  apply (failure_keeps_partial_state Ok equation_ex_short
           [equation_ex_short_input] [] equation_ex_short_graph
           equation_ex_short_graph []).
  - reflexivity.
  - vm_compute. reflexivity.
Defined.

(** C4, as the specification has it, fails: the equation whose input is
    declared of rank 3 fails while its first vertex is connected, and the
    graph has then one compute set and one vertex more than before. *)
Lemma failure_atomicity_counterexample :
  let r := program Ok [equation_ex_input] [] equation_ex_rank3 equation_ex_graph in
  r.2 = Fail (poplibs_error "IPU IO vertex tensor must of rank 1 or 2.") /\
  r.1 <> equation_ex_graph /\
  computeSets r.1 = 1%nat /\
  vertices r.1
  = [ {| v_cs := 0; v_name := "ScaleVertex"; v_tile := Some 1%nat;
         v_perf := None; v_connections := []; v_initial := [] |} ].
Proof.
  cbv zeta. split; [reflexivity|]. split; [|split; reflexivity].
  intros H. apply (f_equal computeSets) in H. by vm_compute in H.
Qed.

End EquationFacts.

(** ** The tile-mapped equation: the vertices *)

Module EquationVertexFacts.
Import TileMapEquation ShardedSpec EquationSpec EquationVertexSpec.

(** An update of the vertex added last. *)
Lemma update_last g vs x f :
  update_vertex (length vs) f (with_vertices g (vs ++ [x]))
  = (with_vertices g (vs ++ [f x]), Ok tt).
Proof. unfold update_vertex, with_vertices. simpl. by rewrite alter_last. Qed.

Lemma with_vertices_twice g vs vs' :
  with_vertices (with_vertices g vs) vs' = with_vertices g vs'.
Proof. done. Qed.

Lemma with_connections_nil x : with_connections x [] = x.
Proof. destruct x. unfold with_connections. simpl. by rewrite app_nil_r. Qed.

Lemma with_initial_nil x : with_initial x [] = x.
Proof. destruct x. unfold with_initial. simpl. by rewrite app_nil_r. Qed.

Lemma add_connection_with x cs f c :
  add_connection f c (with_connections x cs) = with_connections x (cs ++ [(f, c)]).
Proof. unfold add_connection, with_connections. simpl. by rewrite app_assoc. Qed.

Lemma add_initial_with x ivs f i :
  add_initial f i (with_initial x ivs) = with_initial x (ivs ++ [(f, i)]).
Proof. unfold add_initial, with_initial. simpl. by rewrite app_assoc. Qed.

(** A loop that sets one initial value per attribute. *)
Lemma initial_loop (mk : VertexAttribute -> InitialValue) attrs g vs x :
  for_each (fun attr (_ : unit) =>
              setInitialValue (length vs) (attr_name attr) (mk attr))
           attrs tt (with_vertices g (vs ++ [x]))
  = (with_vertices g
       (vs ++ [with_initial x ((fun a => (attr_name a, mk a)) <$> attrs)]),
     Ok tt).
Proof.
  revert x. induction attrs as [|a attrs IH]; intros x; simpl.
  - by rewrite with_initial_nil.
  - unfold setInitialValue at 1.
    erewrite bind_run; [|apply update_last].
    rewrite IH. do 3 f_equal.
    unfold with_initial, add_initial. simpl. by rewrite <- app_assoc.
Qed.

Section Wiring.

Context {IpuType : Type}.
Implicit Types (eqn : Equation IpuType) (info : VertexIOInfo IpuType).

Lemma connectReshape_reshaped info t :
  rank info = 1 \/ rank info = 2 ->
  connectReshape info t = Ok (reshaped info t).
Proof.
  intros Hrank. unfold connectReshape, reshaped.
  destruct (decide (rank info = 1)); [done|].
  destruct (decide (rank info = 2)); [done|]. by destruct Hrank.
Qed.

(** The loop over the inputs connects each in turn. *)
Lemma connect_inputs_run eqn inputs tidx g vs x :
  length inputs = length (inputs_info eqn) ->
  (tidx < length (tiles eqn))%nat ->
  Forall (connectable (length (tiles eqn))) (zip (inputs_info eqn) inputs) ->
  for_range (connect_input eqn inputs (length vs) tidx) (length inputs) tt
    (with_vertices g (vs ++ [x]))
  = (with_vertices g
       (vs ++ [with_connections x (input_connections eqn inputs tidx)]),
     Ok tt).
Proof.
  intros Hlen Htidx Hall.
  pose proof (for_range_run
                (connect_input eqn inputs (length vs) tidx) (length inputs)
                (fun i => with_vertices g
                            (vs ++ [with_connections x
                                      (take i (input_connections eqn inputs
                                                 tidx))]))
                (fun _ => tt)) as H.
  cbv beta in H. rewrite take_0, with_connections_nil in H.
  rewrite H.
  - rewrite take_ge; [done|].
    unfold input_connections. rewrite length_fmap, length_zip_with. lia.
  - intros k Hk.
    destruct (lookup_lt_is_Some_2 inputs k Hk) as [input Hinput].
    destruct (lookup_lt_is_Some_2 (inputs_info eqn) k ltac:(lia))
      as [info Hinfo].
    assert (zip (inputs_info eqn) inputs !! k = Some (info, input)) as Hzip
      by (by apply lookup_zip_Some).
    rewrite Forall_lookup in Hall.
    destruct (Hall _ _ Hzip) as [Hrank Hext]. simpl in *.
    unfold connect_input.
    rewrite (bind_lift_ok _ _ _ info)
      by (unfold vec_get; by rewrite Hinfo).
    rewrite (bind_lift_ok _ _ _ input)
      by (unfold vec_get; by rewrite Hinput).
    rewrite (bind_lift_ok _ _ _ (sub_tensor input tidx))
      by (apply index_in_range; lia).
    rewrite (bind_lift_ok _ _ _ (reshaped info (sub_tensor input tidx)))
      by (apply connectReshape_reshaped, Hrank; lia).
    unfold connect. rewrite update_last, add_connection_with.
    do 4 f_equal. unfold input_connections.
    erewrite take_S_r; [done|]. by rewrite list_lookup_fmap, Hzip.
Qed.

(** The loop over the outputs connects the ones of role [Out]. *)
Lemma connect_outputs_run eqn outputs tidx g vs x :
  length outputs = length (outputs_info eqn) ->
  (tidx < length (tiles eqn))%nat ->
  Forall (fun p => iotype p.1 = Out -> connectable (length (tiles eqn)) p)
         (zip (outputs_info eqn) outputs) ->
  for_range (connect_output eqn outputs (length vs) tidx) (length outputs) tt
    (with_vertices g (vs ++ [x]))
  = (with_vertices g
       (vs ++ [with_connections x (output_connections eqn outputs tidx)]),
     Ok tt).
Proof.
  intros Hlen Htidx Hall.
  pose proof (for_range_run
                (connect_output eqn outputs (length vs) tidx) (length outputs)
                (fun i => with_vertices g
                            (vs ++ [with_connections x
                                      (omap (out_connection tidx)
                                         (take i (zip (outputs_info eqn)
                                                    outputs)))]))
                (fun _ => tt)) as H.
  cbv beta in H. rewrite take_0 in H. simpl omap in H.
  rewrite with_connections_nil in H.
  rewrite H.
  - rewrite take_ge; [done|]. rewrite length_zip_with. lia.
  - intros k Hk.
    destruct (lookup_lt_is_Some_2 outputs k Hk) as [output Houtput].
    destruct (lookup_lt_is_Some_2 (outputs_info eqn) k ltac:(lia))
      as [info Hinfo].
    assert (zip (outputs_info eqn) outputs !! k = Some (info, output))
      as Hzip by (by apply lookup_zip_Some).
    rewrite Forall_lookup in Hall. specialize (Hall _ _ Hzip). simpl in Hall.
    rewrite (take_S_r _ _ _ Hzip), omap_app.
    assert (omap (out_connection tidx) [(info, output)]
            = if decide (iotype info = Out)
              then [connection tidx (info, output)] else []) as ->.
    { simpl. unfold out_connection. simpl.
      by destruct (decide (iotype info = Out)). }
    unfold connect_output.
    rewrite (bind_lift_ok _ _ _ info)
      by (unfold vec_get; by rewrite Hinfo).
    destruct (decide (iotype info = Out)) as [Hout|Hout].
    + destruct (Hall Hout) as [Hrank Hext]. simpl in *.
      rewrite (bind_lift_ok _ _ _ output)
        by (unfold vec_get; by rewrite Houtput).
      rewrite (bind_lift_ok _ _ _ (sub_tensor output tidx))
        by (apply index_in_range; lia).
      rewrite (bind_lift_ok _ _ _ (reshaped info (sub_tensor output tidx)))
        by (apply connectReshape_reshaped, Hrank; lia).
      unfold connect. by rewrite update_last, add_connection_with.
    + simpl. by rewrite app_nil_r.
Qed.

(** One turn of the loop over the tiles adds the vertex of the tile. *)
Lemma add_vertex_run g eqn inputs outputs cs tidx vs :
  equation_ok g eqn inputs outputs ->
  (tidx < length (tiles eqn))%nat ->
  add_vertex eqn inputs outputs cs tidx tt (with_vertices g vs)
  = (with_vertices g (vs ++ [equation_vertex eqn inputs outputs cs tidx]),
     Ok tt).
Proof.
  intros (Hin & Hout & Hvalid & Hins & Houts) Htidx.
  destruct (lookup_lt_is_Some_2 (tiles eqn) tidx Htidx) as [tile Htile].
  rewrite Forall_lookup in Hvalid.
  destruct (Hvalid _ _ Htile) as [Hrange Hint].
  unfold add_vertex.
  rewrite (bind_lift_ok _ _ _ tile) by (unfold vec_get; by rewrite Htile).
  erewrite bind_run; [|reflexivity].
  rewrite with_vertices_twice. simpl vertices.
  erewrite bind_run.
  2:{ rewrite setVertexTile_valid by (simpl; lia). apply update_last. }
  set (x1 := set_tile _ _).
  set (x2 := if 0 <? perf_estimate eqn then set_perf (perf_estimate eqn) x1
             else x1).
  erewrite (bind_run _ _ _ (with_vertices g (vs ++ [x2]))).
  2:{ unfold x2. destruct (0 <? perf_estimate eqn); [|done].
      apply update_last. }
  erewrite bind_run; [|by apply connect_inputs_run].
  erewrite bind_run; [|by apply connect_outputs_run].
  erewrite bind_run; [|apply (initial_loop (fun a => U32 (attr_value a)))].
  rewrite (initial_loop (fun a => F32 (attr_value a))).
  do 4 f_equal.
  unfold equation_vertex, with_initial, with_connections, x2, x1.
  rewrite Htile. simpl.
  destruct (0 <? perf_estimate eqn); done.
Qed.

(** The loop over the tiles adds the vertices of the equation. *)
Lemma add_vertices_run g eqn inputs outputs :
  equation_ok g eqn inputs outputs ->
  for_range (add_vertex eqn inputs outputs (computeSets g))
    (length (tiles eqn)) tt (addComputeSet g).1
  = (equation_graph g eqn inputs outputs, Ok tt).
Proof.
  intros Hok.
  set (g1 := (addComputeSet g).1).
  pose proof (for_range_run
                (add_vertex eqn inputs outputs (computeSets g))
                (length (tiles eqn))
                (fun i => with_vertices g1
                            (vertices g
                             ++ (equation_vertex eqn inputs outputs
                                   (computeSets g) <$> seq 0 i)))
                (fun _ => tt)) as H.
  cbv beta in H.
  replace (vertices g
           ++ (equation_vertex eqn inputs outputs (computeSets g)
                 <$> seq 0 0))
    with (vertices g) in H by (simpl; by rewrite app_nil_r).
  apply H.
  intros i Hi. rewrite seq_S, fmap_app, app_assoc.
  by apply (add_vertex_run g1).
Qed.

(** [add] past its assertions. *)
Lemma add_past_assertions eqn prog inputs outputs g :
  length inputs = length (inputs_info eqn) ->
  length outputs = length (outputs_info eqn) ->
  add eqn prog inputs outputs g
  = (cs ← addComputeSet;
     for_range (add_vertex eqn inputs outputs cs) (length (tiles eqn)) tt;;
     mret (prog ++ [Execute cs])) g.
Proof.
  intros Hin Hout. unfold add.
  destruct (decide (length inputs <> length (inputs_info eqn))); [done|].
  by destruct (decide (length outputs <> length (outputs_info eqn))).
Qed.

(** X8 — what [add] builds: for an equation that fits its tensors and the
    target, [add] returns, appends to the program the execution of one new
    compute set and adds to the graph, behind the vertices it has, one
    vertex per entry of [tiles], in order; the vertex of entry [tidx] is in
    the compute set, has the vertex name of the equation, is mapped to
    [tiles[tidx]], has the performance estimate when it is positive, is
    connected to partition [tidx] of every input in order and then of every
    output of role [Out] (an [InOut] output is not connected again), each
    flattened when its descriptor is of rank 1, and has the 32-bit unsigned
    attributes and then the float attributes as initial values. *)
Theorem add_builds g eqn prog inputs outputs :
  equation_ok g eqn inputs outputs ->
  add eqn prog inputs outputs g
  = (equation_graph g eqn inputs outputs,
     Ok (prog ++ [Execute (computeSets g)])).
Proof.
  intros Hok. pose proof Hok as (Hin & Hout & _).
  rewrite add_past_assertions by done.
  erewrite bind_run; [|reflexivity].
  by rewrite (bind_run _ _ _ _ _ (add_vertices_run g eqn inputs outputs Hok)).
Qed.

(** *** What [add] needs to return *)

Lemma connectReshape_ok_inv info t r :
  connectReshape info t = Ok r -> rank info = 1 \/ rank info = 2.
Proof.
  unfold connectReshape.
  destruct (decide (rank info = 1)); [by left|].
  destruct (decide (rank info = 2)); [by right|done].
Qed.

Lemma connect_inputs_returns eqn inputs v tidx g g' u :
  for_range (connect_input eqn inputs v tidx) (length inputs) tt g
  = (g', Ok u) ->
  forall k p, zip (inputs_info eqn) inputs !! k = Some p ->
    (rank p.1 = 1 \/ rank p.1 = 2) /\ (tidx < extent p.2)%nat.
Proof.
  intros Hrun.
  assert (forall j, (j < length inputs)%nat ->
            forall p, zip (inputs_info eqn) inputs !! j = Some p ->
              (rank p.1 = 1 \/ rank p.1 = 2) /\ (tidx < extent p.2)%nat)
    as Hall.
  { eapply (triple_ok _ _ _ _ (fun _ _ => _) (fun _ _ => True));
      [|exact Hrun].
    apply (triple_for_range _ _
             (fun n _ _ =>
                forall j, (j < n)%nat ->
                  forall p, zip (inputs_info eqn) inputs !! j = Some p ->
                    (rank p.1 = 1 \/ rank p.1 = 2) /\
                    (tidx < extent p.2)%nat)).
    - intros j Hj. lia.
    - intros k g1 [] Hk Hprev. unfold connect_input.
      apply triple_bind_lift.
      destruct (vec_get (inputs_info eqn) k) as [info|] eqn:E1; [|done].
      apply triple_bind_lift.
      destruct (vec_get inputs k) as [input|] eqn:E2; [|done].
      apply triple_bind_lift.
      destruct (index input tidx) as [part|] eqn:E3; [|done].
      apply triple_bind_lift.
      destruct (connectReshape info part) as [t|] eqn:E4; [|done].
      apply vec_get_ok_inv in E1, E2.
      apply index_ok_inv in E3 as [Hext _].
      apply connectReshape_ok_inv in E4.
      unfold triple, connect, update_vertex.
      intros j Hj p Hp.
      destruct (decide (j = k)) as [->|]; [|apply (Hprev j); [lia|done]].
      destruct p as [info' input']. apply lookup_zip_Some in Hp.
      simpl in *. destruct Hp as [Hp1 Hp2].
      rewrite E1 in Hp1. rewrite E2 in Hp2.
      injection Hp1 as <-. by injection Hp2 as <-. }
  intros k p Hp. apply (Hall k); [|done].
  apply lookup_lt_Some in Hp. rewrite length_zip_with in Hp. lia.
Qed.

Lemma connect_outputs_returns eqn outputs v tidx g g' u :
  for_range (connect_output eqn outputs v tidx) (length outputs) tt g
  = (g', Ok u) ->
  forall k p, zip (outputs_info eqn) outputs !! k = Some p ->
    iotype p.1 = Out ->
    (rank p.1 = 1 \/ rank p.1 = 2) /\ (tidx < extent p.2)%nat.
Proof.
  intros Hrun.
  assert (forall j, (j < length outputs)%nat ->
            forall p, zip (outputs_info eqn) outputs !! j = Some p ->
              iotype p.1 = Out ->
              (rank p.1 = 1 \/ rank p.1 = 2) /\ (tidx < extent p.2)%nat)
    as Hall.
  { eapply (triple_ok _ _ _ _ (fun _ _ => _) (fun _ _ => True));
      [|exact Hrun].
    apply (triple_for_range _ _
             (fun n _ _ =>
                forall j, (j < n)%nat ->
                  forall p, zip (outputs_info eqn) outputs !! j = Some p ->
                    iotype p.1 = Out ->
                    (rank p.1 = 1 \/ rank p.1 = 2) /\
                    (tidx < extent p.2)%nat)).
    - intros j Hj. lia.
    - intros k g1 [] Hk Hprev. unfold connect_output.
      apply triple_bind_lift.
      destruct (vec_get (outputs_info eqn) k) as [info|] eqn:E1; [|done].
      apply vec_get_ok_inv in E1.
      destruct (decide (iotype info = Out)) as [Hout|Hout].
      + apply triple_bind_lift.
        destruct (vec_get outputs k) as [output|] eqn:E2; [|done].
        apply triple_bind_lift.
        destruct (index output tidx) as [part|] eqn:E3; [|done].
        apply triple_bind_lift.
        destruct (connectReshape info part) as [t|] eqn:E4; [|done].
        apply vec_get_ok_inv in E2.
        apply index_ok_inv in E3 as [Hext _].
        apply connectReshape_ok_inv in E4.
        unfold triple, connect, update_vertex.
        intros j Hj p Hp Hrole.
        destruct (decide (j = k)) as [->|];
          [|apply (Hprev j); [lia|done..]].
        destruct p as [info' output']. apply lookup_zip_Some in Hp.
        simpl in *. destruct Hp as [Hp1 Hp2].
        rewrite E1 in Hp1. rewrite E2 in Hp2.
        injection Hp1 as <-. by injection Hp2 as <-.
      + apply triple_ret. intros j Hj p Hp Hrole.
        destruct (decide (j = k)) as [->|];
          [|apply (Hprev j); [lia|done..]].
        destruct p as [info' output']. apply lookup_zip_Some in Hp as [Hp1 _].
        rewrite E1 in Hp1. injection Hp1 as <-. done. }
  intros k p Hp. apply (Hall k); [|done].
  apply lookup_lt_Some in Hp. rewrite length_zip_with in Hp. lia.
Qed.

Lemma setVertexTile_ok_inv v tile g g' u :
  setVertexTile v tile g = (g', Ok u) ->
  tile mod 2 ^ 32 < Z.of_nat (numTiles g).
Proof.
  unfold setVertexTile.
  by destruct (Z.ltb_spec (tile mod 2 ^ 32) (Z.of_nat (numTiles g))).
Qed.

Lemma add_vertex_returns g eqn inputs outputs cs tidx g' u :
  add_vertex eqn inputs outputs cs tidx tt g = (g', Ok u) ->
  tile_fits g eqn inputs outputs tidx.
Proof.
  unfold add_vertex.
  intros (tile & Htile%vec_get_ok_inv & H)%bind_lift_ok_inv.
  apply bind_ok_inv in H as (g1 & v & Hv & H).
  apply bind_ok_inv in H as (g2 & [] & Hset%setVertexTile_ok_inv & H).
  apply bind_ok_inv in H as (g3 & [] & _ & H).
  apply bind_ok_inv in H as (g4 & [] & Hins & H).
  apply bind_ok_inv in H as (g5 & [] & Houts & _).
  unfold addVertex in Hv. injection Hv as <- _. simpl in Hset.
  split; [by exists tile|]. split.
  - by eapply connect_inputs_returns.
  - by eapply connect_outputs_returns.
Qed.

(** X9 — what [add] needs to return: given as many inputs and outputs as
    descriptors, tiles that are [int32_t] and a target of at most [2^31]
    tiles, [add] returns only for an equation that fits its tensors and the
    target: every tile is a tile of the target, every input and every output
    of role [Out] has a partition per tile and, when there is a tile at all,
    a declared rank of 1 or 2. *)
Theorem add_returns_only_if g eqn prog inputs outputs g' r :
  length inputs = length (inputs_info eqn) ->
  length outputs = length (outputs_info eqn) ->
  Forall (fun tile => - 2 ^ 31 <= tile < 2 ^ 31) (tiles eqn) ->
  Z.of_nat (numTiles g) <= 2 ^ 31 ->
  add eqn prog inputs outputs g = (g', Ok r) ->
  equation_ok g eqn inputs outputs.
Proof.
  intros Hin Hout Hint Hnum Hrun.
  rewrite add_past_assertions in Hrun by done.
  apply bind_ok_inv in Hrun as (g1 & cs & Hcs & Hrun).
  apply bind_ok_inv in Hrun as (g2 & [] & Hloop & _).
  unfold addComputeSet in Hcs. injection Hcs as <- <-.
  assert (triple
            (for_range (add_vertex eqn inputs outputs (computeSets g))
               (length (tiles eqn)) tt)
            {| numTiles := numTiles g; variables := variables g;
               tileMapping := tileMapping g;
               computeSets := S (computeSets g);
               vertices := vertices g |}
            (fun g' _ =>
               numTiles g' = numTiles g /\
               forall tidx, (tidx < length (tiles eqn))%nat ->
                 tile_fits g eqn inputs outputs tidx)
            (fun _ _ => True)) as HT.
  { apply (triple_for_range _ _
             (fun n g' _ =>
                numTiles g' = numTiles g /\
                forall tidx, (tidx < n)%nat ->
                  tile_fits g eqn inputs outputs tidx)).
    - split; [done|]. intros tidx Htidx. lia.
    - intros i g3 [] Hi [Hn Hprev]. unfold triple.
      pose proof (EquationFacts.add_vertex_grows eqn inputs outputs
                    (computeSets g) i g3 Hi) as (Hn' & _).
      destruct (add_vertex eqn inputs outputs (computeSets g) i () g3)
        as [g4 [[]|e]] eqn:E; [|done].
      simpl in Hn'. split; [congruence|].
      intros tidx Htidx.
      destruct (decide (tidx = i)) as [->|]; [|apply Hprev; lia].
      apply add_vertex_returns in E.
      destruct E as ((tile & Htile & Hvalid) & Hi1 & Hi2).
      split; [|by split]. exists tile. split; [done|]. by rewrite <- Hn. }
  destruct (triple_ok _ _ _ _ _ _ HT Hloop) as [_ Hfits].
  split; [done|]. split; [done|]. split; [|split].
  - apply Forall_lookup. intros tidx tile Htile.
    destruct (Hfits tidx) as ((tile' & Htile' & Hvalid) & _);
      [by eapply lookup_lt_Some|].
    rewrite Htile in Htile'. injection Htile' as <-.
    rewrite Forall_lookup in Hint. specialize (Hint _ _ Htile).
    unfold valid_tile.
    destruct (decide (0 <= tile)) as [Hpos|Hneg].
    + rewrite Z.mod_small in Hvalid by lia. lia.
    + assert (tile mod 2 ^ 32 = tile + 2 ^ 32) as Hmod.
      { symmetry. apply (Z.mod_unique_pos _ _ (-1)); lia. }
      lia.
  - apply Forall_lookup. intros k p Hp. split.
    + intros Hpos. by destruct (Hfits 0%nat Hpos) as (_ & Hi1 & _);
        destruct (Hi1 k p Hp).
    + destruct (length (tiles eqn)) as [|n] eqn:Hn; [lia|].
      destruct (Hfits n ltac:(lia)) as (_ & Hi1 & _).
      destruct (Hi1 k p Hp). lia.
  - apply Forall_lookup. intros k p Hp Hrole. split.
    + intros Hpos. by destruct (Hfits 0%nat Hpos) as (_ & _ & Hi2);
        destruct (Hi2 k p Hp Hrole).
    + destruct (length (tiles eqn)) as [|n] eqn:Hn; [lia|].
      destruct (Hfits n ltac:(lia)) as (_ & _ & Hi2).
      destruct (Hi2 k p Hp Hrole). lia.
Qed.

(** X14 — the primitive is the allocation followed by [add]: when the
    allocation returns outputs that the equation fits, the primitive returns
    the execution of the one new compute set as its program and exactly the
    outputs allocated, whatever the caller's vector of outputs held; the
    graph is the one of the allocation with the compute set and the vertices
    of the equation. *)
Theorem equation_program_builds (toPoplar : IpuType -> outcome Type_)
    g g1 eqn inputs outputs outs :
  allocateOutputTensors toPoplar eqn inputs g = (g1, Ok outs) ->
  equation_ok g1 eqn inputs outs ->
  program toPoplar inputs outputs eqn g
  = (equation_graph g1 eqn inputs outs,
     Ok (Sequence [Execute (computeSets g1)], outs)).
Proof.
  intros Halloc Hok. pose proof Hok as (Hin & Hout & _).
  assert (add eqn [] inputs outs g1
          = (equation_graph g1 eqn inputs outs,
             Ok ([] ++ [Execute (computeSets g1)]))) as Hadd.
  { rewrite add_past_assertions by done.
    erewrite bind_run; [|reflexivity].
    by rewrite (bind_run _ _ _ _ _
                  (add_vertices_run g1 eqn inputs outs Hok)). }
  unfold program, add_allocating, mbind, M_bind, bind.
  by rewrite Halloc, Hadd.
Qed.

End Wiring.

Lemma add_builds_witness :
  add equation_ex_full [] equation_ex_full_inputs equation_ex_full_outputs
    equation_ex_full_graph
  = (equation_graph equation_ex_full_graph equation_ex_full
       equation_ex_full_inputs equation_ex_full_outputs,
     Ok [Execute 0%nat]).
Proof.
  apply (add_builds equation_ex_full_graph equation_ex_full []
           equation_ex_full_inputs equation_ex_full_outputs).
  compute_done.
Defined.

Lemma add_returns_only_if_witness :
  equation_ok equation_ex_full_graph equation_ex_full
    equation_ex_full_inputs equation_ex_full_outputs.
Proof.
  eapply (add_returns_only_if equation_ex_full_graph equation_ex_full []
            equation_ex_full_inputs equation_ex_full_outputs).
  - reflexivity.
  - reflexivity.
  - compute_done.
  - vm_compute. discriminate.
  - vm_compute. reflexivity.
Defined.

Lemma equation_program_builds_witness :
  exists g1 outs,
    allocateOutputTensors Ok equation_ex_inout [equation_ex_input]
      equation_ex_graph = (g1, Ok outs) /\
    program Ok [equation_ex_input] [equation_ex_input2] equation_ex_inout
      equation_ex_graph
    = (equation_graph g1 equation_ex_inout [equation_ex_input] outs,
       Ok (Sequence [Execute (computeSets g1)], outs)).
Proof.
  eexists _, _. split; [reflexivity|].
  apply (equation_program_builds Ok equation_ex_graph _ equation_ex_inout
           [equation_ex_input] [equation_ex_input2]).
  - reflexivity.
  - compute_done.
Defined.

End EquationVertexFacts.

(** ** The tile-mapped equation: the outputs allocated *)

Module AllocationFacts.
Import TileMapEquation ShardedSpec EquationSpec AllocationSpec.

(** The allocation of a sharded variable maps its own storage only. *)
Lemma sharded_graph_mapping_other g ty sh tiles n e :
  e.1 <> length (variables g) ->
  tileMapping (sharded_graph g ty sh tiles n) !! e = tileMapping g !! e.
Proof.
  intros He. simpl. induction n as [|n IH]; [done|].
  rewrite seq_S, foldl_app. simpl foldl. unfold partition_mapping at 1.
  rewrite map_elems_lookup_other; [exact IH|].
  intros Hin%sub_tensor_elems_subseteq%var_tensor_elems_var. done.
Qed.

Section Outputs.

Context {IpuType : Type} (toPoplar : IpuType -> outcome Type_).
Implicit Types (eqn : Equation IpuType) (oi : VertexIOInfo IpuType).

Lemma out_count_app (l1 l2 : list (VertexIOInfo IpuType)) :
  out_count (l1 ++ l2) = (out_count l1 + out_count l2)%nat.
Proof. unfold out_count. by rewrite filter_app, length_app. Qed.

Lemma out_count_snoc (l : list (VertexIOInfo IpuType)) oi :
  out_count (l ++ [oi])
  = (out_count l + if decide (iotype oi = Out) then 1 else 0)%nat.
Proof.
  rewrite out_count_app. f_equal. unfold out_count.
  destruct (decide (iotype oi = Out)).
  - by rewrite filter_cons_True.
  - by rewrite filter_cons_False.
Qed.

Lemma out_count_take_le (l : list (VertexIOInfo IpuType)) k :
  (out_count (take k l) <= out_count l)%nat.
Proof.
  rewrite <- (take_drop k l) at 2. rewrite out_count_app. lia.
Qed.

Lemma out_count_take_S (l : list (VertexIOInfo IpuType)) k oi :
  l !! k = Some oi -> iotype oi = Out ->
  out_count (take (S k) l) = S (out_count (take k l)).
Proof.
  intros Hk Hout. rewrite (take_S_r _ _ _ Hk), out_count_snoc.
  destruct (decide (iotype oi = Out)); [lia|done].
Qed.

Lemma out_count_take_mono (l : list (VertexIOInfo IpuType)) k k' :
  (k <= k')%nat -> (out_count (take k l) <= out_count (take k' l))%nat.
Proof.
  intros Hk. replace (take k l) with (take k (take k' l)).
  - apply out_count_take_le.
  - rewrite take_take. f_equal. lia.
Qed.

(** Earlier outputs keep what holds of them when an output is added. *)
Lemma allocated_earlier g eqn pre oi g1 g2 outs t :
  allocated toPoplar g eqn pre g1 outs ->
  numTiles g2 = numTiles g1 ->
  variables g1 `prefix_of` variables g2 ->
  (forall e, (e.1 < length (variables g1))%nat ->
     tileMapping g2 !! e = tileMapping g1 !! e) ->
  forall k oi',
    (k < length pre)%nat ->
    (pre ++ [oi]) !! k = Some oi' -> iotype oi' = Out ->
    exists ty,
      toPoplar (dtype (aval oi')) = Ok ty /\
      let v := (length (variables g) + out_count (take k (pre ++ [oi])))%nat in
      let t' := var_tensor v ty (out_shape eqn oi') in
      (outs ++ [t]) !! k = Some t' /\
      variables g2 !! v = Some (ty, out_shape eqn oi') /\
      forall i tile,
        tiles eqn !! i = Some tile ->
        Forall (fun e => tileMapping g2 !! e = Some (Z.to_nat tile))
               (elems (sub_tensor t' i)).
Proof.
  intros (Hn & Hlen & Hvars & Hall) Hn2 Hpre Hmap k oi' Hk Hoi Hout.
  rewrite lookup_app_l in Hoi by done.
  destruct (Hall k oi' Hoi Hout) as (ty & Hty & Hrest).
  cbv zeta in Hrest. destruct Hrest as (Ho & Hv & Hm).
  exists ty. split; [done|]. cbv zeta.
  rewrite take_app_le by lia.
  split; [rewrite lookup_app_l; [done|lia]|].
  split; [by eapply prefix_lookup_Some|].
  intros i tile Htile. specialize (Hm i tile Htile).
  apply Forall_forall. intros e He.
  rewrite Forall_forall in Hm. rewrite Hmap; [by apply Hm|].
  apply sub_tensor_elems_subseteq, var_tensor_elems_var in He.
  rewrite He. by eapply lookup_lt_Some.
Qed.

Lemma allocation_allocated eqn inputs g :
  length inputs = length (inputs_info eqn) ->
  Forall (allocatable toPoplar g eqn) (outputs_info eqn) ->
  triple (for_each (allocate_output toPoplar eqn inputs)
            (outputs_info eqn) []) g
    (allocated toPoplar g eqn (outputs_info eqn)) (fun _ _ => False).
Proof.
  intros Hlen Hall.
  apply (triple_for_each (allocate_output toPoplar eqn inputs)
           (outputs_info eqn) (allocated toPoplar g eqn)
           (fun _ _ => False)).
  { split; [done|]. split; [done|]. split; [unfold out_count; simpl; lia|].
    intros k oi Hk. by rewrite lookup_nil in Hk. }
  intros pre oi post g1 outs Hl HI.
  assert (allocatable toPoplar g eqn oi) as Hal.
  { rewrite Forall_forall in Hall. apply Hall. rewrite Hl.
    apply elem_of_app. right. left. }
  pose proof HI as (Hn & Houts & Hvars & Hprev).
  unfold allocatable in Hal. unfold allocate_output.
  destruct (iotype oi) eqn:Hio; try done.
  - destruct Hal as [Hty Htiles].
    destruct (toPoplar (dtype (aval oi))) as [ty|] eqn:Hp; [|done].
    apply triple_bind_lift.
    eapply triple_bind_run.
    { apply ShardedFacts.createShardedVariable_run.
      eapply Forall_impl; [exact Htiles|].
      unfold valid_tile. intros tile. by rewrite Hn. }
    apply triple_ret.
    split; [done|]. split; [rewrite !length_app; simpl; lia|].
    split.
    { simpl. rewrite length_app, out_count_snoc, Hvars. simpl.
      destruct (decide (iotype oi = Out)); [lia|done]. }
    intros k oi' Hoi Hout.
    destruct (decide (k < length pre)%nat) as [Hk|Hk].
    { eapply (allocated_earlier g eqn pre oi g1); try done.
      - simpl. by apply prefix_app_r.
      - intros e He. apply sharded_graph_mapping_other. lia. }
    apply lookup_lt_Some in Hoi as Hk'.
    rewrite length_app in Hk'. simpl in Hk'.
    assert (k = length pre) as -> by lia.
    rewrite list_lookup_middle in Hoi by done. injection Hoi as <-.
    exists ty. split; [done|]. cbv zeta.
    rewrite take_app_length, <- Hvars.
    split; [by rewrite <- Houts, list_lookup_middle|].
    split; [simpl; by rewrite list_lookup_middle|].
    intros i tile Htile. apply Forall_forall. intros e He.
    apply (ShardedFacts.partition_mapped g1 ty (sa_shape (aval oi))
             (tiles eqn) (length (tiles eqn)) i); try done.
    by eapply lookup_lt_Some.
  - destruct (EquationFacts.search_matches eqn inputs oi Hlen Hal) as [t Ht].
    apply triple_bind_lift. rewrite Ht.
    apply triple_ret.
    split; [done|]. split; [rewrite !length_app; simpl; lia|].
    split.
    { rewrite out_count_snoc.
      destruct (decide (iotype oi = Out)); [congruence|lia]. }
    intros k oi' Hoi Hout.
    destruct (decide (k < length pre)%nat) as [Hk|Hk].
    { by eapply (allocated_earlier g eqn pre oi g1). }
    apply lookup_lt_Some in Hoi as Hk'.
    rewrite length_app in Hk'. simpl in Hk'.
    assert (k = length pre) as -> by lia.
    rewrite list_lookup_middle in Hoi by done. injection Hoi as <-.
    congruence.
Qed.

(** X10 — the outputs allocated: for an equation whose outputs can all be
    served, output [k] of role [Out] is a variable that the graph did not
    have, another one than for any other output of role [Out], of the
    Poplar type of its descriptor and with a partition per tile in front of
    the shape of its descriptor; and partition [i] of it is mapped to tile
    [tiles[i]]. *)
Theorem allocation_out_outputs eqn inputs g k oi :
  length inputs = length (inputs_info eqn) ->
  Forall (allocatable toPoplar g eqn) (outputs_info eqn) ->
  outputs_info eqn !! k = Some oi ->
  iotype oi = Out ->
  exists g' outputs ty,
    allocateOutputTensors toPoplar eqn inputs g = (g', Ok outputs) /\
    toPoplar (dtype (aval oi)) = Ok ty /\
    let v := out_variable g eqn k in
    let t := var_tensor v ty (out_shape eqn oi) in
    outputs !! k = Some t /\
    (length (variables g) <= v)%nat /\
    variables g' !! v = Some (ty, out_shape eqn oi) /\
    (forall k' oi',
       outputs_info eqn !! k' = Some oi' -> iotype oi' = Out -> k' <> k ->
       out_variable g eqn k' <> v) /\
    (forall i tile,
       tiles eqn !! i = Some tile ->
       Forall (fun e => tileMapping g' !! e = Some (Z.to_nat tile))
              (elems (sub_tensor t i))).
Proof.
  intros Hlen Hall Hk Hout.
  pose proof (allocation_allocated eqn inputs g Hlen Hall) as H.
  unfold allocateOutputTensors.
  destruct (decide (length inputs <> length (inputs_info eqn))); [done|].
  unfold triple in H.
  destruct (for_each _ _ _ g) as [g' [outputs|e]]; [|done].
  destruct H as (_ & _ & _ & H).
  destruct (H k oi Hk Hout) as (ty & Hty & Hrest).
  cbv zeta in Hrest. destruct Hrest as (Ho & Hv & Hm).
  exists g', outputs, ty. split; [done|]. split; [done|]. cbv zeta.
  unfold out_variable.
  split; [done|]. split; [lia|]. split; [done|]. split; [|done].
  intros k' oi' Hk' Hout' Hne.
  destruct (decide (k' < k)%nat).
  - pose proof (out_count_take_S _ _ _ Hk' Hout').
    pose proof (out_count_take_mono (outputs_info eqn) (S k') k). lia.
  - pose proof (out_count_take_S _ _ _ Hk Hout).
    pose proof (out_count_take_mono (outputs_info eqn) (S k) k'). lia.
Qed.

End Outputs.

Lemma allocation_out_outputs_witness :
  exists g' outputs ty,
    allocateOutputTensors Ok equation_ex_outs [equation_ex_input]
      equation_ex_graph = (g', Ok outputs) /\
    Ok FLOAT = Ok ty /\
    outputs !! 2%nat = Some (var_tensor 2 ty [2%nat; 3%nat]) /\
    (1 <= 2)%nat /\
    variables g' !! 2%nat = Some (ty, [2%nat; 3%nat]) /\
    (forall k' oi',
       outputs_info equation_ex_outs !! k' = Some oi' -> iotype oi' = Out ->
       k' <> 2%nat -> out_variable equation_ex_graph equation_ex_outs k'
                      <> 2%nat) /\
    (forall i tile,
       tiles equation_ex_outs !! i = Some tile ->
       Forall (fun e => tileMapping g' !! e = Some (Z.to_nat tile))
              (elems (sub_tensor (var_tensor 2 ty [2%nat; 3%nat]) i))).
Proof.
  apply (allocation_out_outputs Ok equation_ex_outs [equation_ex_input]
           equation_ex_graph 2 (equation_ex_info "z" Out 1)).
  - reflexivity.
  - compute_done.
  - reflexivity.
  - reflexivity.
Defined.

End AllocationFacts.

(** ** The attributes in JSON *)

Module AttributeFacts.
Import Json VertexAttribute AttributeSpec.

Section Codec.

Context {T : Type}.
Variable value_to_json : T -> json.
Variable value_from_json : json -> result T.

(** X11 — the JSON round trip of an attribute: when the value type reads
    back what it writes, reading what [to_json] writes gives the attribute
    back, whatever the attribute read into held before; and so does reading
    any object that has these two fields, whatever other fields it has. *)
Theorem attribute_round_trip (v v0 : Attribute T) (fields : gmap string json) :
  (forall x, value_from_json (value_to_json x) = Value x) ->
  fields !! "name" = Some (JString (name v)) ->
  fields !! "value" = Some (value_to_json (value v)) ->
  from_json value_from_json (to_json value_to_json v) v0 = (v, Value tt) /\
  from_json value_from_json (JObject fields) v0 = (v, Value tt).
Proof.
  intros Hrt Hname Hvalue. destruct v as [n x]. simpl in *.
  unfold from_json, to_json. simpl.
  rewrite lookup_insert_eq. simpl.
  rewrite lookup_insert_ne by done. rewrite lookup_insert_eq.
  rewrite Hname, Hvalue, Hrt. done.
Qed.

(** X12 — what reading an attribute does on a bad document: a value that
    is not an object is a type error and an object without a name an
    out-of-range error, and the attribute is untouched; a name that is not a
    string is a type error, the attribute untouched; and when the name is
    read and the value is missing (out of range) or does not convert, the
    attribute is left with the new name and its old value. *)
Theorem attribute_bad_document (v0 : Attribute T) (j : json) :
  match j with
  | JObject fields =>
      match fields !! "name" with
      | None => from_json value_from_json j v0 = (v0, Throws out_of_range)
      | Some (JString n) =>
          match fields !! "value" with
          | None =>
              from_json value_from_json j v0
              = (mkAttribute n (value v0), Throws out_of_range)
          | Some jv =>
              forall e, value_from_json jv = Throws e ->
                from_json value_from_json j v0
                = (mkAttribute n (value v0), Throws e)
          end
      | Some _ => from_json value_from_json j v0 = (v0, Throws type_error)
      end
  | _ => from_json value_from_json j v0 = (v0, Throws type_error)
  end.
Proof.
  destruct j as [| | | | |fields]; try reflexivity.
  unfold from_json. simpl.
  destruct (fields !! "name") as [[| | |n| |]|]; try reflexivity.
  simpl. destruct (fields !! "value") as [jv|]; [|reflexivity].
  by intros e ->.
Qed.

End Codec.

Lemma attribute_round_trip_witness :
  from_json number_from_json (to_json number_to_json attribute_ex)
    (mkAttribute "" 0)
  = (attribute_ex, Value tt) /\
  from_json number_from_json
    (JObject (<["doc" := JNull]> (<["value" := JNumber 3]>
                (<["name" := JString "scale"]> ∅))))
    (mkAttribute "" 0)
  = (attribute_ex, Value tt).
Proof.
  apply (attribute_round_trip number_to_json number_from_json attribute_ex).
  - done.
  - reflexivity.
  - reflexivity.
Defined.

End AttributeFacts.

(** ** The comparison of descriptors *)

Module VertexIOInfoEqFacts.
Import TileMapEquation VertexIOInfoEq.

(** X13 — [operator==] on descriptors is equality: two descriptors compare
    equal exactly when they agree on every field, the shape and the type of
    the abstract value included. *)
Theorem vertex_io_info_eqb_eq {IpuType} `{EqDecision IpuType}
    (lhs rhs : VertexIOInfo IpuType) :
  eqb lhs rhs = true <-> lhs = rhs.
Proof.
  unfold eqb. rewrite !andb_true_iff, !bool_decide_eq_true.
  destruct lhs as [n1 io1 [sh1 ty1] r1], rhs as [n2 io2 [sh2 ty2] r2].
  simpl. split.
  - by intros ((((-> & ->) & ->) & ->) & ->).
  - by intros [= -> -> -> -> ->].
Qed.

End VertexIOInfoEqFacts.

